(** * Feo speech recognition: transcript reconciliation and command matching

    A shallow embedding of the text utilities ([utils.ts]), of the
    [RecognitionManager] class ([recognition-manager.ts]) and of the command
    matching pass and the transcript reducer of the [useSpeechRecognition]
    hook ([speech-recognition.ts]), together with the properties that the
    specification states about them and further properties of the code.

    Conventions of the embedding.
    - A JavaScript string is a list of code units.  The embedding covers the
      code units below 256 (Latin-1), one [ascii] each; the character
      classes [\s], [\w], [.] and the case mappings are the restrictions of
      the ECMAScript ones to that range.
    - A JavaScript number that is a similarity score is the exact rational
      [2 * I / n] it denotes (type [Q]); the double the engine computes is
      the nearest one to it.
    - Code that can throw returns in an error monad; code that notifies
      subscribers or drives the recognizer appends to an explicit log.
    - The engine is single-threaded: a call of the manager runs to its end
      before the next one, an [await] goes on with the state the awaited
      call left, and what the recognizer's start primitive does is an input
      of the call.  The callbacks of the subscribers of the manager are
      taken to return and not to call the manager back; the callbacks of
      commands may throw.  The recognizer that [getRecognition] hands out
      is taken to be left as it is by the caller.
    - A [dispatch] of the hook is the reducer applied to the state of the
      hook at that moment. *)

From Stdlib Require Import Ascii String NArith ZArith QArith Bool Lia.
From stdpp Require Import base tactics option list strings gmap gmultiset.

#[local] Open Scope list_scope.
#[local] Open Scope nat_scope.

(** ** Strings as lists of code units *)

Abbreviation jstring := (list ascii).

(** Literals: [str "hello"] is the JavaScript string ['hello']. *)
Definition str (s : string) : jstring := list_ascii_of_string s.

Definition code (c : ascii) : N := N_of_ascii c.

Definition inRange (lo hi : N) (c : ascii) : bool :=
  ((lo <=? code c) && (code c <=? hi))%N.

(** ECMAScript LineTerminator below 256: LF, CR. *)
Definition isLineTerminator (c : ascii) : bool :=
  ((code c =? 10) || (code c =? 13))%N.

(** ECMAScript WhiteSpace and LineTerminator below 256: TAB, LF, VT, FF, CR,
    SP, NBSP.  This is the class [\s], and the set [trim] strips. *)
Definition isSpace (c : ascii) : bool :=
  inRange 9 13 c || ((code c =? 32) || (code c =? 160))%N.

(** The class [\w]: [A-Za-z0-9_]. *)
Definition isWordChar (c : ascii) : bool :=
  inRange 97 122 c || inRange 65 90 c || inRange 48 57 c || (code c =? 95)%N.

(** The class [a-zA-Z0-9]. *)
Definition isAlphaNum (c : ascii) : bool :=
  inRange 97 122 c || inRange 65 90 c || inRange 48 57 c.

(** [String.prototype.toLowerCase] on one Latin-1 code unit. *)
Definition toLowerChar (c : ascii) : ascii :=
  if inRange 65 90 c || (inRange 192 222 c && negb (code c =? 215)%N)
  then ascii_of_N (code c + 32) else c.

Definition toLowerCase (s : jstring) : jstring := map toLowerChar s.

Definition jeqb (a b : jstring) : bool := bool_decide (a = b).

(** [String.prototype.trim]. *)
Fixpoint trimStart (s : jstring) : jstring :=
  match s with
  | c :: s' => if isSpace c then trimStart s' else s
  | [] => []
  end.

Fixpoint trimEnd (s : jstring) : jstring :=
  match s with
  | [] => []
  | c :: s' =>
      match trimEnd s' with
      | [] => if isSpace c then [] else [c]
      | t => c :: t
      end
  end.

Definition trim (s : jstring) : jstring := trimEnd (trimStart s).

(** [s.split(/\s+/)]: the pieces between the maximal runs of white space.  A
    run at either end of [s] leaves an empty piece there, and the empty
    string gives one empty piece.  [inSep] tells that the scan is inside a
    run of white space. *)
Fixpoint splitWs (inSep : bool) (s : jstring) : list jstring :=
  match s with
  | [] => [[]]
  | c :: s' =>
      if isSpace c then
        if inSep then splitWs true s' else [] :: splitWs true s'
      else
        match splitWs false s' with
        | w :: ws => (c :: w) :: ws
        | [] => [[c]]
        end
  end.

Definition split_spaces (s : jstring) : list jstring := splitWs false s.

(** [Array.prototype.join]. *)
Fixpoint join (sep : jstring) (l : list jstring) : jstring :=
  match l with
  | [] => []
  | [w] => w
  | w :: ws => w ++ sep ++ join sep ws
  end.

(** ** Text Normalizer: [removeDuplicateWords] *)

(** [w.toLowerCase().replace(/[^\w]/g, '')]. *)
Definition comparable (w : jstring) : jstring :=
  filter (fun c => isWordChar c = true) (toLowerCase w).

(** The body of the loop over [words]: [prev] is [words[i - 1]], or [None]
    at [i = 0], where [previousWord] is [null] and differs from every
    string. *)
Definition differsFromPrevious (prev : option jstring) (w : jstring) : bool :=
  match prev with
  | None => true
  | Some p => negb (jeqb (comparable w) (comparable p))
  end.

Fixpoint filterWords (prev : option jstring) (words : list jstring)
  : list jstring :=
  match words with
  | [] => []
  | w :: ws =>
      (if differsFromPrevious prev w then [w] else [])
        ++ filterWords (Some w) ws
  end.

Definition removeDuplicateWords (transcript : jstring) : jstring :=
  match trim transcript with
  | [] => []
  | t => join (str " ") (filterWords None (split_spaces t))
  end.

(** ** Transcript Combiner: [concatTranscripts] *)

Definition concatTranscripts (transcriptParts : list jstring) : jstring :=
  removeDuplicateWords (trim (join (str " ") (map trim transcriptParts))).

(** *** Words and separators *)

(** The words that [removeDuplicateWords] splits its input into. *)
Definition words (s : jstring) : list jstring :=
  match trim s with
  | [] => []
  | t => split_spaces t
  end.

(** A word is a non-empty string without white space. *)
Definition isWord (w : jstring) : Prop :=
  w <> [] /\ Forall (fun c => isSpace c = false) w.

(** [s] ends with a character that is not white space. *)
Fixpoint endsNonSpace (s : jstring) : bool :=
  match s with
  | [] => false
  | [c] => negb (isSpace c)
  | _ :: s' => endsNonSpace s'
  end.

Definition startsNonSpace (s : jstring) : bool :=
  match s with
  | [] => false
  | c :: _ => negb (isSpace c)
  end.

(** The predecessor that [filterWords] has after the words [ws]. *)
Fixpoint lastOr (prev : option jstring) (ws : list jstring)
  : option jstring :=
  match ws with
  | [] => prev
  | w :: ws' => lastOr (Some w) ws'
  end.

(** The words that the loop of [removeDuplicateWords] keeps, each word
    paired with the word just before it in the input. *)
Definition keptAfterPredecessor (ws : list jstring) : list jstring :=
  map snd
    (filter (fun pw => differsFromPrevious pw.1 pw.2 = true)
       (zip (None :: map Some ws) ws)).




(** ** Similarity Scorer: [compareTwoStringsUsingDiceCoefficient] *)

(** [s.replace(/\s+/g, '')]. *)
Definition stripSpaces (s : jstring) : jstring :=
  filter (fun c => isSpace c = false) s.

(** The values of [s.substring(i, i + 2)] for [i] from [0] to
    [s.length - 2]. *)
Fixpoint bigrams (s : jstring) : list jstring :=
  match s with
  | a :: (b :: _) as t => [a; b] :: bigrams t
  | _ => []
  end.

(** One turn of the first loop: [firstBigrams.set(bigram, count)]. *)
Definition countBigram (firstBigrams : gmap jstring nat) (bigram : jstring)
  : gmap jstring nat :=
  let count :=
    match firstBigrams !! bigram with
    | Some n => n + 1
    | None => 1
    end in
  <[bigram := count]> firstBigrams.

(** One turn of the second loop, on [firstBigrams] and
    [intersectionSize]. *)
Definition consumeBigram (st : gmap jstring nat * nat) (bigram : jstring)
  : gmap jstring nat * nat :=
  let count :=
    match st.1 !! bigram with
    | Some n => n
    | None => 0
    end in
  if 0 <? count then (<[bigram := count - 1]> st.1, st.2 + 1) else st.

Definition intersectionSizeOf (first second : jstring) : nat :=
  (foldl consumeBigram (foldl countBigram ∅ (bigrams first), 0)
     (bigrams second)).2.

Definition compareTwoStringsUsingDiceCoefficient (first second : jstring) : Q :=
  let first := stripSpaces first in
  let second := stripSpaces second in
  if jeqb first second then 1
  else if (length first <? 2) || (length second <? 2) then 0
  else
    (2 * inject_Z (Z.of_nat (intersectionSizeOf first second)))
    / inject_Z (Z.of_nat (length first + length second - 2)).

(** The multiset of the bigrams that the first loop counts. *)
Definition bigramMultiset (s : jstring) : gmultiset jstring :=
  list_to_set_disj (bigrams s).

(** The score as the specification words it.  White space is the
    characters tab, line feed, vertical tab, form feed, carriage return,
    space and no-break space; a bigram is a pair of adjacent characters;
    the score is the Dice coefficient over the multisets of bigrams of the
    two strings without their white space. *)
Definition whiteSpaceCodes : list N := [9; 10; 11; 12; 13; 32; 160]%N.

Fixpoint withoutWhiteSpace (s : jstring) : jstring :=
  match s with
  | [] => []
  | c :: s' =>
      if bool_decide (code c ∈ whiteSpaceCodes) then withoutWhiteSpace s'
      else c :: withoutWhiteSpace s'
  end.

Definition bigramsOf (s : jstring) : gmultiset jstring :=
  list_to_set_disj (zip_with (fun a b => [a; b]) s (drop 1 s)).

Definition diceCoefficient (first second : jstring) : Q :=
  let f := withoutWhiteSpace first in
  let s := withoutWhiteSpace second in
  if bool_decide (f = s) then 1
  else if bool_decide (length f < 2 \/ length s < 2) then 0
  else
    (2 * inject_Z (Z.of_nat (size (bigramsOf f ∩ bigramsOf s))))
    / inject_Z (Z.of_nat (length f + length s - 2)).

(** [firstBigrams] holds the multiset [X]: the count stored under a bigram
    is its multiplicity, and a bigram without entry has none. *)
Definition holds (firstBigrams : gmap jstring nat) (X : gmultiset jstring)
  : Prop :=
  forall b, match firstBigrams !! b with Some n => n | None => 0 end
            = multiplicity b X.

(** ** Result Parser: [parseResultsToTranscript] *)

(** A [SpeechRecognitionResult]: its [isFinal] flag and the text of its top
    alternative, [result[0].transcript]. *)
Record SpeechRecognitionResult := {
  isFinal : bool;
  transcript : jstring
}.

(** The payload of [onresult]. *)
Record SpeechRecognitionEvent := {
  results : list SpeechRecognitionResult;
  resultIndex : nat
}.

(** One turn of the loop, on the pair [(interimTranscript, finalTranscript)]. *)
Definition accumulateResult (acc : jstring * jstring)
    (result : SpeechRecognitionResult) : jstring * jstring :=
  let t := removeDuplicateWords (transcript result) in
  if isFinal result then (acc.1, acc.2 ++ t) else (acc.1 ++ t, acc.2).

(** Returns [(interimTranscript, finalTranscript)]. *)
Definition parseResultsToTranscript
    (rs : list SpeechRecognitionResult) (index : nat) : jstring * jstring :=
  let acc := foldl accumulateResult ([], []) (drop index rs) in
  (removeDuplicateWords acc.1, removeDuplicateWords acc.2).

(** ** Transcript State Machine and Session Orchestrator:
       [RecognitionManager] *)

(** The recognizer instance held in [this.recognition].  [handlers] tells
    whether [onresult], [onend] and [onerror] are bound to the manager
    ([setSpeechRecognition]) or replaced by no-ops ([disableRecognition]). *)
Record Recognizer := {
  continuous : bool;
  lang : jstring;
  handlers : bool
}.

(** Which callbacks a subscriber registered. *)
Record RecognitionCallbacks := {
  onListeningChange : bool;
  onMicrophoneAvailabilityChange : bool;
  onTranscriptChange : bool;
  onClearTranscript : bool;
  onBrowserSupportsSpeechRecognitionChange : bool;
  onBrowserSupportsContinuousListeningChange : bool
}.

(** A call of a subscriber's callback, with its arguments. *)
Inductive Notification :=
| ListeningChange (nowListening : bool)
| MicrophoneAvailabilityChange (available : bool)
| TranscriptChange (interim final : jstring)
| ClearTranscript
| BrowserSupportsSpeechRecognitionChange (supported : bool)
| BrowserSupportsContinuousListeningChange (supported : bool).

(** What the manager does to the outside: it calls a subscriber, it calls a
    primitive of the recognizer, or it resolves the promise a stop is
    waiting on. *)
Inductive Effect :=
| Notify (id : jstring) (n : Notification)
| RecognizerStart
| RecognizerStop
| RecognizerAbort
| ResolveStop.

(** The value of [this.onStopListening]: the initial no-op, or the
    [resolve] of the promise that [stopListening] awaits. *)
Inductive StopCallback := NoOp | ResolvePending.

Record RecognitionManager := {
  recognition : option Recognizer;
  pauseAfterDisconnect : bool;
  interimTranscript : jstring;
  finalTranscriptState : jstring;
  listening : bool;
  isMicrophoneAvailable : bool;
  subscribers : list (jstring * RecognitionCallbacks);
  onStopListening : StopCallback;
  previousResultWasFinalOnly : bool
}.

(** Field initialisers of the class, with the recognizer that
    [setSpeechRecognition] installs when the browser supports one, and with
    the subscribers [subs] registered. *)
Definition newRecognizer : Recognizer :=
  {| continuous := false; lang := []; handlers := true |}.

Definition newManager (supported : bool)
    (subs : list (jstring * RecognitionCallbacks)) : RecognitionManager :=
  {| recognition := if supported then Some newRecognizer else None;
     pauseAfterDisconnect := false;
     interimTranscript := [];
     finalTranscriptState := [];
     listening := false;
     isMicrophoneAvailable := true;
     subscribers := subs;
     onStopListening := NoOp;
     previousResultWasFinalOnly := false |}.

(** Assignments to the fields of [this]. *)
Definition setRecognition v (m : RecognitionManager) :=
  {| recognition := v; pauseAfterDisconnect := pauseAfterDisconnect m;
     interimTranscript := interimTranscript m;
     finalTranscriptState := finalTranscriptState m;
     listening := listening m; isMicrophoneAvailable := isMicrophoneAvailable m;
     subscribers := subscribers m; onStopListening := onStopListening m;
     previousResultWasFinalOnly := previousResultWasFinalOnly m |}.

Definition setPauseAfterDisconnect v (m : RecognitionManager) :=
  {| recognition := recognition m; pauseAfterDisconnect := v;
     interimTranscript := interimTranscript m;
     finalTranscriptState := finalTranscriptState m;
     listening := listening m; isMicrophoneAvailable := isMicrophoneAvailable m;
     subscribers := subscribers m; onStopListening := onStopListening m;
     previousResultWasFinalOnly := previousResultWasFinalOnly m |}.

Definition setInterimTranscript v (m : RecognitionManager) :=
  {| recognition := recognition m; pauseAfterDisconnect := pauseAfterDisconnect m;
     interimTranscript := v;
     finalTranscriptState := finalTranscriptState m;
     listening := listening m; isMicrophoneAvailable := isMicrophoneAvailable m;
     subscribers := subscribers m; onStopListening := onStopListening m;
     previousResultWasFinalOnly := previousResultWasFinalOnly m |}.

Definition setFinalTranscriptState v (m : RecognitionManager) :=
  {| recognition := recognition m; pauseAfterDisconnect := pauseAfterDisconnect m;
     interimTranscript := interimTranscript m;
     finalTranscriptState := v;
     listening := listening m; isMicrophoneAvailable := isMicrophoneAvailable m;
     subscribers := subscribers m; onStopListening := onStopListening m;
     previousResultWasFinalOnly := previousResultWasFinalOnly m |}.

Definition setListening v (m : RecognitionManager) :=
  {| recognition := recognition m; pauseAfterDisconnect := pauseAfterDisconnect m;
     interimTranscript := interimTranscript m;
     finalTranscriptState := finalTranscriptState m;
     listening := v; isMicrophoneAvailable := isMicrophoneAvailable m;
     subscribers := subscribers m; onStopListening := onStopListening m;
     previousResultWasFinalOnly := previousResultWasFinalOnly m |}.

Definition setIsMicrophoneAvailable v (m : RecognitionManager) :=
  {| recognition := recognition m; pauseAfterDisconnect := pauseAfterDisconnect m;
     interimTranscript := interimTranscript m;
     finalTranscriptState := finalTranscriptState m;
     listening := listening m; isMicrophoneAvailable := v;
     subscribers := subscribers m; onStopListening := onStopListening m;
     previousResultWasFinalOnly := previousResultWasFinalOnly m |}.

Definition setOnStopListening v (m : RecognitionManager) :=
  {| recognition := recognition m; pauseAfterDisconnect := pauseAfterDisconnect m;
     interimTranscript := interimTranscript m;
     finalTranscriptState := finalTranscriptState m;
     listening := listening m; isMicrophoneAvailable := isMicrophoneAvailable m;
     subscribers := subscribers m; onStopListening := v;
     previousResultWasFinalOnly := previousResultWasFinalOnly m |}.

Definition setPreviousResultWasFinalOnly v (m : RecognitionManager) :=
  {| recognition := recognition m; pauseAfterDisconnect := pauseAfterDisconnect m;
     interimTranscript := interimTranscript m;
     finalTranscriptState := finalTranscriptState m;
     listening := listening m; isMicrophoneAvailable := isMicrophoneAvailable m;
     subscribers := subscribers m; onStopListening := onStopListening m;
     previousResultWasFinalOnly := v |}.

Definition setSubscribers v (m : RecognitionManager) :=
  {| recognition := recognition m; pauseAfterDisconnect := pauseAfterDisconnect m;
     interimTranscript := interimTranscript m;
     finalTranscriptState := finalTranscriptState m;
     listening := listening m; isMicrophoneAvailable := isMicrophoneAvailable m;
     subscribers := v; onStopListening := onStopListening m;
     previousResultWasFinalOnly := previousResultWasFinalOnly m |}.

(** A method of the manager: from the state of [this] to a result, the new
    state and the effects in the order they happen. *)
Definition Method (A : Type) : Type :=
  RecognitionManager -> A * RecognitionManager * list Effect.

#[global] Instance method_ret : MRet Method :=
  fun A x m => (x, m, []).

#[global] Instance method_bind : MBind Method :=
  fun A B f c m =>
    let '(x, m1, out1) := c m in
    let '(y, m2, out2) := f x m1 in
    (y, m2, out1 ++ out2).

Definition this : Method RecognitionManager := fun m => (m, m, []).
Definition assign (f : RecognitionManager -> RecognitionManager)
  : Method unit := fun m => (tt, f m, []).
Definition perform (out : list Effect) : Method unit := fun m => (tt, m, out).
Definition when (b : bool) (c : Method unit) : Method unit :=
  if b then c else mret tt.

Definition stateAfter {A} (r : A * RecognitionManager * list Effect)
  : RecognitionManager := r.1.2.
Definition effectsOf {A} (r : A * RecognitionManager * list Effect)
  : list Effect := r.2.
Definition resultOf {A} (r : A * RecognitionManager * list Effect) : A := r.1.1.

(** The identifiers of the subscribers that registered the callback that
    [has] selects, in the order in which they are called. *)
Definition subscribersWith (has : RecognitionCallbacks -> bool)
    (m : RecognitionManager) : list jstring :=
  map fst (filter (fun s => has s.2 = true) (subscribers m)).

(** [Object.keys(this.subscribers).forEach(...)]: the callback selected by
    [has] is called on every subscriber that registered it. *)
Definition notifySubscribers (has : RecognitionCallbacks -> bool)
    (n : Notification) : Method unit :=
  m ← this;
  perform (map (fun id => Notify id n) (subscribersWith has m)).

Definition emitListeningChange (b : bool) : Method unit :=
  assign (setListening b);;
  notifySubscribers onListeningChange (ListeningChange b).

Definition emitMicrophoneAvailabilityChange (b : bool) : Method unit :=
  assign (setIsMicrophoneAvailable b);;
  notifySubscribers onMicrophoneAvailabilityChange (MicrophoneAvailabilityChange b).

Definition emitTranscriptChange (interim final : jstring) : Method unit :=
  notifySubscribers onTranscriptChange (TranscriptChange interim final).

Definition emitClearTranscript : Method unit :=
  notifySubscribers onClearTranscript ClearTranscript.

(** The body of the loop of [emitBrowserSupportsSpeechRecognitionChange]:
    the calls of the two callbacks that the subscriber [s] registered. *)
Definition browserSupportCallbacks (browserSupportsSpeechRecognition : bool)
    (s : jstring * RecognitionCallbacks) : list Effect :=
  (if onBrowserSupportsSpeechRecognitionChange s.2
   then [Notify s.1 (BrowserSupportsSpeechRecognitionChange
                       browserSupportsSpeechRecognition)]
   else [])
  ++ (if onBrowserSupportsContinuousListeningChange s.2
      then [Notify s.1 (BrowserSupportsContinuousListeningChange
                          browserSupportsSpeechRecognition)]
      else []).

Definition emitBrowserSupportsSpeechRecognitionChange
    (browserSupportsSpeechRecognition : bool) : Method unit :=
  m ← this;
  perform
    (flat_map (browserSupportCallbacks browserSupportsSpeechRecognition)
       (subscribers m)).

Definition hasRecognition (m : RecognitionManager) : bool :=
  match recognition m with Some _ => true | None => false end.

(** [this.recognition.continuous], read where [this.recognition] is set. *)
Definition recognitionContinuous (m : RecognitionManager) : bool :=
  match recognition m with Some r => continuous r | None => false end.

Definition stop : Method unit :=
  m ← this;
  when (hasRecognition m && listening m)
    (perform [RecognizerStop];; assign (setListening false)).

Definition abort : Method unit :=
  m ← this;
  when (hasRecognition m && listening m)
    (perform [RecognizerAbort];; assign (setListening false)).

Inductive DisconnectType := ABORT | RESET | STOP.

Definition disconnect (disconnectType : DisconnectType) : Method unit :=
  m ← this;
  when (hasRecognition m && listening m)
    match disconnectType with
    | ABORT => assign (setPauseAfterDisconnect true);; abort
    | RESET => assign (setPauseAfterDisconnect false);; abort
    | STOP => assign (setPauseAfterDisconnect true);; stop
    end.

(** How the promise returned by [stopListening] or [abortListening]
    settles: at once, or when the pending promise is resolved, which
    [this.onStopListening], called on the recognizer's end event, and the
    timer of 100 ms both do. *)
Inductive Settlement := SettlesAtOnce | SettlesOnEndOrTimeout.

(** [if (this.listening) { await new Promise(resolve => { ... }) }]. *)
Definition waitIfListening : Method Settlement :=
  m ← this;
  if listening m
  then assign (setOnStopListening ResolvePending);; mret SettlesOnEndOrTimeout
  else mret SettlesAtOnce.

Definition stopListening : Method Settlement :=
  disconnect STOP;;
  emitListeningChange false;;
  waitIfListening.

Definition abortListening : Method Settlement :=
  disconnect ABORT;;
  emitListeningChange false;;
  waitIfListening.

Definition resetTranscript : Method unit := disconnect RESET.

Definition resetTranscriptState : Method unit :=
  assign (setInterimTranscript []);;
  assign (setFinalTranscriptState []).

Definition detachHandlers (r : Recognizer) : Recognizer :=
  {| continuous := continuous r; lang := lang r; handlers := false |}.

Definition disableRecognition : Method unit :=
  m ← this;
  match recognition m with
  | Some r =>
      assign (setRecognition (Some (detachHandlers r)));;
      when (listening m) (stopListening;; mret tt)
  | None => mret tt
  end.

(** [onError]: [notAllowed] tells that [event.error] is ['not-allowed']. *)
Definition onError (notAllowed : bool) : Method unit :=
  when notAllowed
    (emitMicrophoneAvailabilityChange false;; disableRecognition).

(** [setSpeechRecognition(SpeechRecognition)].  [browserSupportsRecogniser]
    tells that an implementation is given and that it is the native one or
    the browser supports polyfills.  The new recognizer is as its
    constructor and the three assignments leave it: not continuous, the
    handlers of the manager attached. *)
Definition setSpeechRecognition (browserSupportsRecogniser : bool)
  : Method unit :=
  when browserSupportsRecogniser
    (disableRecognition;;
     assign (setRecognition (Some newRecognizer)));;
  emitBrowserSupportsSpeechRecognitionChange browserSupportsRecogniser.

(** What the primitive [this.recognition.start()] does when it is called:
    it starts, it throws a [DOMException] (the recognizer is already
    running), or it throws something else. *)
Inductive StartOutcome := Starts | ThrowsDOMException | ThrowsOther.

(** [start]: the result is the outcome of the primitive if it was called. *)
Definition start (o : StartOutcome) : Method StartOutcome :=
  m ← this;
  if hasRecognition m && negb (listening m) then
    perform [RecognizerStart];;
    match o with
    | Starts => assign (setListening true);; mret Starts
    | thrown => mret thrown
    end
  else mret Starts.

Definition isLanguageChanged (language : option jstring) (r : Recognizer)
  : bool :=
  match language with
  | Some l => negb (jeqb l []) && negb (jeqb l (lang r))
  | None => false
  end.

Definition configure (continuousChanged languageChanged : bool)
    (newContinuous : bool) (language : option jstring) (r : Recognizer)
  : Recognizer :=
  {| continuous := if continuousChanged then newContinuous else continuous r;
     lang := if languageChanged then default [] language else lang r;
     handlers := handlers r |}.

(** [startListening({ continuous, language })]; [o] is what the start
    primitive does if the call reaches it. *)
Definition startListening (newContinuous : bool) (language : option jstring)
    (o : StartOutcome) : Method unit :=
  m ← this;
  match recognition m with
  | None => mret tt
  | Some r =>
      let isContinuousChanged := negb (Bool.eqb newContinuous (continuous r)) in
      let languageChanged := isLanguageChanged language r in
      when (isContinuousChanged || languageChanged)
        (when (listening m) (stopListening;; mret tt);;
         assign (setRecognition
                   (Some (configure isContinuousChanged languageChanged
                            newContinuous language r))));;
      m ← this;
      when (negb (listening m))
        (when (negb (recognitionContinuous m))
           (resetTranscriptState;; emitClearTranscript);;
         thrown ← start o;
         match thrown with
         | Starts => emitListeningChange true
         | ThrowsDOMException => mret tt
         | ThrowsOther => emitMicrophoneAvailabilityChange false
         end)
  end.

(** [onRecognitionDisconnect], the handler of the recognizer's end event;
    [o] is what the start primitive does if continuous mode restarts. *)
Definition onRecognitionDisconnect (o : StartOutcome) : Method unit :=
  m ← this;
  perform (match onStopListening m with
           | ResolvePending => [ResolveStop]
           | NoOp => []
           end);;
  assign (setListening false);;
  (if pauseAfterDisconnect m then emitListeningChange false
   else if hasRecognition m then
     if recognitionContinuous m
     then startListening (recognitionContinuous m) None o
     else emitListeningChange false
   else mret tt);;
  assign (setPauseAfterDisconnect false).

Definition updateFinalTranscript (newFinalTranscript : jstring) : Method unit :=
  m ← this;
  assign (setFinalTranscriptState
            (concatTranscripts [finalTranscriptState m; newFinalTranscript])).

(** [results.length === 1 && results[0].isFinal && !this.interimTranscript]. *)
Definition finalOnly (rs : list SpeechRecognitionResult) (interim : jstring)
  : bool :=
  (length rs =? 1)
  && match rs !! 0 with Some r => isFinal r | None => false end
  && jeqb interim [].

(** [updateTranscript], the handler of [onresult]. *)
Definition updateTranscript (event : SpeechRecognitionEvent) : Method unit :=
  let parsed := parseResultsToTranscript (results event) (resultIndex event) in
  assign (setInterimTranscript parsed.1);;
  when (negb (jeqb parsed.2 [])) (updateFinalTranscript parsed.2);;
  m ← this;
  let isDuplicateResult :=
    previousResultWasFinalOnly m
    && finalOnly (results event) (interimTranscript m) in
  assign (setPreviousResultWasFinalOnly
            (finalOnly (results event) (interimTranscript m)));;
  when (negb isDuplicateResult)
    (emitTranscriptChange (interimTranscript m) (finalTranscriptState m)).

(** A run of result events, handled one after the other. *)
Definition updateAll (events : list SpeechRecognitionEvent)
    (m : RecognitionManager) : RecognitionManager :=
  foldl (fun st ev => stateAfter (updateTranscript ev st)) m events.

(** The transcript-changed callbacks among the effects. *)
Definition transcriptChanges (out : list Effect)
  : list (jstring * jstring * jstring) :=
  omap (fun e => match e with
                 | Notify id (TranscriptChange i f) => Some (id, i, f)
                 | _ => None
                 end) out.

(** The identifiers of the subscribers that registered [onTranscriptChange],
    in the order in which they are called. *)
Definition transcriptSubscribers (m : RecognitionManager) : list jstring :=
  subscribersWith onTranscriptChange m.

(** The batch of [event] is one result, final, and leaves no interim text. *)
Definition finalOnlyBatch (event : SpeechRecognitionEvent) : bool :=
  finalOnly (results event)
    (parseResultsToTranscript (results event) (resultIndex event)).1.

(** The new final text that the batch of [event] carries. *)
Definition batchFinal (event : SpeechRecognitionEvent) : jstring :=
  (parseResultsToTranscript (results event) (resultIndex event)).2.

Definition batchInterim (event : SpeechRecognitionEvent) : jstring :=
  (parseResultsToTranscript (results event) (resultIndex event)).1.

(** A subscriber that registered every callback, and the manager of a
    supporting browser with that one subscriber. *)
Definition allCallbacks : RecognitionCallbacks :=
  {| onListeningChange := true; onMicrophoneAvailabilityChange := true;
     onTranscriptChange := true; onClearTranscript := true;
     onBrowserSupportsSpeechRecognitionChange := true;
     onBrowserSupportsContinuousListeningChange := true |}.

Definition managerWithOneSubscriber : RecognitionManager :=
  newManager true [(str "0", allCallbacks)].

(** A result event that carries [text] as its one, final, result. *)
Definition finalBatch (text : string) : SpeechRecognitionEvent :=
  {| results := [{| isFinal := true; transcript := str text |}];
     resultIndex := 0 |}.

(** The number that a string of decimal digits denotes. *)
Fixpoint decimalValue (acc : N) (s : jstring) : option N :=
  match s with
  | [] => Some acc
  | c :: s' =>
      if inRange 48 57 c then decimalValue (acc * 10 + (code c - 48)) s'
      else None
  end.

(** The array index that a property key is, if it is one: the key is the
    decimal representation, without leading zero, of a number below
    [2^32 - 1]. *)
Definition arrayIndex (key : jstring) : option N :=
  match key with
  | [] => None
  | c :: rest =>
      if (code c =? 48)%N && negb (jeqb rest []) then None
      else
        match decimalValue 0 key with
        | Some n => if (n <? 4294967295)%N then Some n else None
        | None => None
        end
  end.

(** The key of [s] is an array index below [n]. *)
Definition indexBelow (n : N) (s : jstring * RecognitionCallbacks) : bool :=
  match arrayIndex s.1 with
  | Some k => (k <? n)%N
  | None => false
  end.

(** A new entry whose key is the array index [n]: it goes behind the array
    indices below [n]. *)
Fixpoint insertIndexed (n : N) (entry : jstring * RecognitionCallbacks)
    (subs : list (jstring * RecognitionCallbacks))
  : list (jstring * RecognitionCallbacks) :=
  match subs with
  | s :: subs' =>
      if indexBelow n s then s :: insertIndexed n entry subs'
      else entry :: subs
  | [] => [entry]
  end.

(** [this.subscribers[id] = callbacks], on the entries of [subscribers] in
    the order of [Object.keys]: the array indices in ascending order, then
    the other keys in the order of their creation.  The entry of a key that
    is there is replaced where it is; a new array index goes to its place
    among the array indices, and any other new key to the end.  The key
    [__proto__] names no own property: assigning an object to it sets the
    prototype of [subscribers] and adds no entry. *)
Definition putSubscriber (id : jstring) (callbacks : RecognitionCallbacks)
    (subs : list (jstring * RecognitionCallbacks))
  : list (jstring * RecognitionCallbacks) :=
  if jeqb id (str "__proto__") then subs
  else if bool_decide (id ∈ map fst subs) then
    map (fun s => if jeqb s.1 id then (id, callbacks) else s) subs
  else
    match arrayIndex id with
    | Some n => insertIndexed n (id, callbacks) subs
    | None => subs ++ [(id, callbacks)]
    end.

Definition subscribe (id : jstring) (callbacks : RecognitionCallbacks)
  : Method unit :=
  m ← this;
  assign (setSubscribers (putSubscriber id callbacks (subscribers m))).

(** [delete this.subscribers[id]]. *)
Definition unsubscribe (id : jstring) : Method unit :=
  m ← this;
  assign (setSubscribers
            (filter (fun s => jeqb s.1 id = false) (subscribers m))).

(** The calls that reach a manager: the public methods, and the handlers
    that the recognizer calls while they are attached. *)
Inductive Call :=
| Subscribe (id : jstring) (callbacks : RecognitionCallbacks)
| Unsubscribe (id : jstring)
| StartListening (newContinuous : bool) (language : option jstring)
    (o : StartOutcome)
| StopListening
| AbortListening
| ResetTranscript
| OnResult (event : SpeechRecognitionEvent)
| OnEnd (o : StartOutcome)
| OnError (notAllowed : bool)
| SetSpeechRecognition (browserSupportsRecogniser : bool).

Definition handlersAttached (m : RecognitionManager) : bool :=
  match recognition m with Some r => handlers r | None => false end.

Definition call (c : Call) : Method unit :=
  match c with
  | Subscribe id callbacks => subscribe id callbacks
  | Unsubscribe id => unsubscribe id
  | StartListening newContinuous language o =>
      startListening newContinuous language o
  | StopListening => stopListening;; mret tt
  | AbortListening => abortListening;; mret tt
  | ResetTranscript => resetTranscript
  | OnResult event =>
      m ← this; when (handlersAttached m) (updateTranscript event)
  | OnEnd o =>
      m ← this; when (handlersAttached m) (onRecognitionDisconnect o)
  | OnError notAllowed =>
      m ← this; when (handlersAttached m) (onError notAllowed)
  | SetSpeechRecognition browserSupportsRecogniser =>
      setSpeechRecognition browserSupportsRecogniser
  end.

(** The states a manager can be in. *)
Inductive reachable : RecognitionManager -> Prop :=
| reachable_new supported subs : reachable (newManager supported subs)
| reachable_call c m : reachable m -> reachable (stateAfter (call c m)).

(** The reading of the specification under which a start failure other
    than a redundant start disables further attempts: once
    [startListening] has called the start primitive of [m] and the
    primitive has thrown such a failure, the same [startListening] does not
    call the primitive again, whatever the primitive would do. *)
Definition startFailureDisablesAttempts (m : RecognitionManager)
    (newContinuous : bool) (language : option jstring) : Prop :=
  let failed := startListening newContinuous language ThrowsOther m in
  RecognizerStart ∈ effectsOf failed ->
  forall o,
    RecognizerStart
      ∉ effectsOf (startListening newContinuous language o (stateAfter failed)).

(** The recognizer as [startListening] leaves it configured. *)
Definition configured (newContinuous : bool) (language : option jstring)
    (r : Recognizer) : Recognizer :=
  let continuousChanged := negb (Bool.eqb newContinuous (continuous r)) in
  let languageChanged := isLanguageChanged language r in
  if continuousChanged || languageChanged
  then configure continuousChanged languageChanged newContinuous language r
  else r.

(** The manager at the moment [startListening] calls the start primitive,
    when it was not listening and holds the recognizer [r]. *)
Definition readyToStart (newContinuous : bool) (language : option jstring)
    (r : Recognizer) (m : RecognitionManager) : RecognitionManager :=
  let m1 := setRecognition (Some (configured newContinuous language r)) m in
  if continuous (configured newContinuous language r) then m1
  else setFinalTranscriptState [] (setInterimTranscript [] m1).

(** The callbacks called up to that moment. *)
Definition clearedBeforeStart (newContinuous : bool)
    (language : option jstring) (r : Recognizer) (m : RecognitionManager)
  : list Effect :=
  if continuous (configured newContinuous language r) then []
  else map (fun id => Notify id ClearTranscript)
         (subscribersWith onClearTranscript m).

(** ** Command Pattern Compiler: [commandToRegExp] *)

(** *** [String.prototype.replace] with a global regular expression *)

(** [s.replace(re, ...)] for a global [re] that matches no empty string.
    [matchAt s] tells whether [re] matches at the start of [s], and then
    gives the text that replaces the match and the input after it.  The
    scan goes on after a match, and one character further where there is
    none.  Each turn consumes a character, so that [length s] turns are
    enough. *)
Fixpoint replaceLoop (matchAt : jstring -> option (jstring * jstring))
    (turns : nat) (s : jstring) : jstring :=
  match turns with
  | 0 => s
  | S turns' =>
      match s with
      | [] => []
      | c :: s' =>
          match matchAt s with
          | Some (replacement, rest) =>
              replacement ++ replaceLoop matchAt turns' rest
          | None => c :: replaceLoop matchAt turns' s'
          end
      end
  end.

Definition replaceAll (matchAt : jstring -> option (jstring * jstring))
    (s : jstring) : jstring :=
  replaceLoop matchAt (length s) s.

Definition isChar (c : ascii) (lit : string) : bool :=
  bool_decide (c ∈ str lit).

(** The longest prefix of [s] whose characters satisfy [p], and the rest. *)
Fixpoint span (p : ascii -> bool) (s : jstring) : jstring * jstring :=
  match s with
  | c :: s' =>
      if p c then let r := span p s' in (c :: r.1, r.2) else ([], s)
  | [] => ([], [])
  end.

(** [escapeRegExp = /[-{}[\]+?.,\\^$|#]/g], replaced by ['\\$&']. *)
Definition matchEscapeRegExp (s : jstring) : option (jstring * jstring) :=
  match s with
  | c :: rest =>
      if isChar c "-{}[]+?.,\^$|#" then Some (["\"%char; c], rest) else None
  | [] => None
  end.

(** [(.*?)\)]: the shortest run of characters other than line terminators
    that a closing parenthesis follows. *)
Fixpoint lazyUntilClose (s : jstring) : option (jstring * jstring) :=
  match s with
  | [] => None
  | c :: s' =>
      if isChar c ")" then Some ([], s')
      else if isLineTerminator c then None
      else match lazyUntilClose s' with
           | Some (captured, rest) => Some (c :: captured, rest)
           | None => None
           end
  end.

(** [optionalParam = /\s*\((.*?)\)\s*/g], replaced by ['(?:$1)?']. *)
Definition matchOptionalParam (s : jstring) : option (jstring * jstring) :=
  match trimStart s with
  | c :: s1 =>
      if isChar c "(" then
        match lazyUntilClose s1 with
        | Some (captured, rest) =>
            Some (str "(?:" ++ captured ++ str ")?", trimStart rest)
        | None => None
        end
      else None
  | [] => None
  end.

Definition startsWith (prefix : string) (s : jstring) : option jstring :=
  if bool_decide (take (length (str prefix)) s = str prefix)
  then Some (drop (length (str prefix)) s) else None.

(** [namedParam = /(\(\?)?:\w+/g], replaced by the match when the optional
    group took part in it, and by ['([^\\s]+)'] otherwise. *)
Definition matchNamedParam (s : jstring) : option (jstring * jstring) :=
  match startsWith "(?:" s with
  | Some s1 =>
      let name := span isWordChar s1 in
      if jeqb name.1 [] then None else Some (str "(?:" ++ name.1, name.2)
  | None =>
      match startsWith ":" s with
      | Some s1 =>
          let name := span isWordChar s1 in
          if jeqb name.1 [] then None else Some (str "([^\s]+)", name.2)
      | None => None
      end
  end.

(** [splatParam = /\*/g], replaced by ['(.*?)']. *)
Definition matchSplatParam (s : jstring) : option (jstring * jstring) :=
  match s with
  | c :: rest => if isChar c "*" then Some (str "(.*?)", rest) else None
  | [] => None
  end.

(** [optionalRegex = /(\(\?:[^)]+\))\?/g], replaced by ['\\s*$1?\\s*']. *)
Definition matchOptionalRegex (s : jstring) : option (jstring * jstring) :=
  match startsWith "(?:" s with
  | Some s1 =>
      let body := span (fun c => negb (isChar c ")")) s1 in
      if jeqb body.1 [] then None
      else match startsWith ")?" body.2 with
           | Some rest =>
               Some (str "\s*" ++ str "(?:" ++ body.1 ++ str ")" ++ str "?\s*",
                     rest)
           | None => None
           end
  | None => None
  end.

(** The body of the pattern that [commandToRegExp] builds from a string. *)
Definition processedCommand (command : jstring) : jstring :=
  replaceAll matchOptionalRegex
    (replaceAll matchSplatParam
       (replaceAll matchNamedParam
          (replaceAll matchOptionalParam
             (replaceAll matchEscapeRegExp command)))).

(** The source of the regular expression, [`^${processedCommand}$`]. *)
Definition commandSource (command : jstring) : jstring :=
  str "^" ++ processedCommand command ++ str "$".

(** *** Regular expressions

    The pattern language that [commandToRegExp] generates: characters,
    escapes, [.], character classes, groups, alternatives, the quantifiers
    [*], [+] and [?] with their lazy forms, and the assertions [^] and [$].
    The pattern of a [RegExp] given as a command is a term of the same
    type. *)

Inductive ClassAtom :=
| CChar (c : ascii)
| CSpace (negated : bool)      (* [\s], [\S] *)
| CWord (negated : bool)       (* [\w], [\W] *)
| CDigit (negated : bool).     (* [\d], [\D] *)

Inductive Quantifier := Star | Plus | Opt.

Inductive Regex :=
| REmpty
| RChar (c : ascii)
| RAny
| RSet (negated : bool) (atoms : list ClassAtom)
| RBegin
| REnd
| RSeq (r1 r2 : Regex)
| RAlt (r1 r2 : Regex)
| RGroup (index : option nat) (r : Regex)
| RQuant (q : Quantifier) (greedy : bool) (r : Regex).

Inductive Token :=
| TAtom (r : Regex)
| TOpen (capturing : bool)
| TClose
| TBar
| TQuant (q : Quantifier) (greedy : bool).

(** The meaning of the character after a backslash. *)
Definition escapeAtom (e : ascii) : option ClassAtom :=
  if isChar e "s" then Some (CSpace false)
  else if isChar e "S" then Some (CSpace true)
  else if isChar e "w" then Some (CWord false)
  else if isChar e "W" then Some (CWord true)
  else if isChar e "d" then Some (CDigit false)
  else if isChar e "D" then Some (CDigit true)
  else if isAlphaNum e then None
  else Some (CChar e).

Definition atomRegex (a : ClassAtom) : Regex :=
  match a with
  | CChar c => RChar c
  | other => RSet false [other]
  end.

Definition quantifierOf (c : ascii) : option Quantifier :=
  if isChar c "*" then Some Star
  else if isChar c "+" then Some Plus
  else if isChar c "?" then Some Opt
  else None.

(** The tokens of a pattern; [None] when the pattern is not in the
    language.  [inClass] holds the class being read, if any: whether it is
    negated and its atoms so far, last first. *)
Fixpoint tokenize (inClass : option (bool * list ClassAtom)) (s : jstring)
  : option (list Token) :=
  match s with
  | [] => match inClass with None => Some [] | Some _ => None end
  | c :: rest =>
      match inClass with
      | Some (negated, atoms) =>
          if isChar c "]" then
            cons (TAtom (RSet negated (rev atoms))) <$> tokenize None rest
          else if isChar c "\" then
            match rest with
            | e :: rest' =>
                match escapeAtom e with
                | Some a => tokenize (Some (negated, a :: atoms)) rest'
                | None => None
                end
            | [] => None
            end
          else if isChar c "-" then None
          else tokenize (Some (negated, CChar c :: atoms)) rest
      | None =>
          if isChar c "[" then
            match rest with
            | n :: rest' =>
                if isChar n "^" then tokenize (Some (true, [])) rest'
                else tokenize (Some (false, [])) rest
            | [] => None
            end
          else if isChar c "\" then
            match rest with
            | e :: rest' =>
                match escapeAtom e with
                | Some a => cons (TAtom (atomRegex a)) <$> tokenize None rest'
                | None => None
                end
            | [] => None
            end
          else if isChar c "(" then
            match rest with
            | q :: rest' =>
                if isChar q "?" then
                  match rest' with
                  | k :: rest'' =>
                      if isChar k ":"
                      then cons (TOpen false) <$> tokenize None rest''
                      else None
                  | [] => None
                  end
                else cons (TOpen true) <$> tokenize None rest
            | [] => cons (TOpen true) <$> tokenize None rest
            end
          else if isChar c ")" then cons TClose <$> tokenize None rest
          else if isChar c "|" then cons TBar <$> tokenize None rest
          else if isChar c "." then cons (TAtom RAny) <$> tokenize None rest
          else if isChar c "^" then cons (TAtom RBegin) <$> tokenize None rest
          else if isChar c "$" then cons (TAtom REnd) <$> tokenize None rest
          else if isChar c "{}]" then None
          else
            match quantifierOf c with
            | Some q =>
                match rest with
                | l :: rest' =>
                    if isChar l "?"
                    then cons (TQuant q false) <$> tokenize None rest'
                    else cons (TQuant q true) <$> tokenize None rest
                | [] => cons (TQuant q true) <$> tokenize None rest
                end
            | None => cons (TAtom (RChar c)) <$> tokenize None rest
            end
      end
  end.

(** A group being read: its capture index ([None] for [(?:]), its finished
    alternatives and the terms of the current one, last first. *)
Record Frame := {
  frameIndex : option nat;
  frameAlternatives : list Regex;
  frameTerms : list Regex
}.

Definition emptyFrame (index : option nat) : Frame :=
  {| frameIndex := index; frameAlternatives := []; frameTerms := [] |}.

Definition pushTerm (r : Regex) (f : Frame) : Frame :=
  {| frameIndex := frameIndex f; frameAlternatives := frameAlternatives f;
     frameTerms := r :: frameTerms f |}.

Definition sequence (termsLastFirst : list Regex) : Regex :=
  foldl (fun acc r => match acc with REmpty => r | _ => RSeq r acc end)
    REmpty termsLastFirst.

Definition nextAlternative (f : Frame) : Frame :=
  {| frameIndex := frameIndex f;
     frameAlternatives := sequence (frameTerms f) :: frameAlternatives f;
     frameTerms := [] |}.

Definition frameRegex (f : Frame) : Regex :=
  foldl (fun acc r => RAlt r acc) (sequence (frameTerms f))
    (frameAlternatives f).

Definition quantifiable (r : Regex) : bool :=
  match r with
  | RBegin | REnd | RQuant _ _ _ => false
  | _ => true
  end.

(** The pattern of a list of tokens and its number of capturing groups;
    [None] on a syntax error: a parenthesis without partner, or a
    quantifier with nothing to repeat. *)
Fixpoint parseTokens (ts : list Token) (top : Frame) (stack : list Frame)
    (next : nat) : option (Regex * nat) :=
  match ts with
  | [] =>
      match stack with
      | [] => Some (frameRegex top, next)
      | _ :: _ => None
      end
  | t :: ts' =>
      match t with
      | TAtom r => parseTokens ts' (pushTerm r top) stack next
      | TOpen true =>
          parseTokens ts' (emptyFrame (Some next)) (top :: stack) (S next)
      | TOpen false => parseTokens ts' (emptyFrame None) (top :: stack) next
      | TClose =>
          match stack with
          | parent :: stack' =>
              parseTokens ts'
                (pushTerm (RGroup (frameIndex top) (frameRegex top)) parent)
                stack' next
          | [] => None
          end
      | TBar => parseTokens ts' (nextAlternative top) stack next
      | TQuant q greedy =>
          match frameTerms top with
          | r :: before =>
              if quantifiable r then
                parseTokens ts'
                  {| frameIndex := frameIndex top;
                     frameAlternatives := frameAlternatives top;
                     frameTerms := RQuant q greedy r :: before |}
                  stack next
              else None
          | [] => None
          end
      end
  end.

(** A compiled regular expression: its pattern, its number of capturing
    groups and its [i] flag. *)
Record RegExp := {
  pattern : Regex;
  groupCount : nat;
  ignoreCase : bool
}.

(** [new RegExp(source, flags)] on the source that [commandToRegExp]
    builds from a string, the flags being [i] or nothing; [None] when the
    constructor throws a [SyntaxError].  Such a source is in the language
    above: [commandToRegExp] escapes brackets, braces and the other special
    characters of the command, and adds [?], [+], [.], classes and groups
    through its replacements only. *)
Definition newRegExp (source : jstring) (i : bool) : option RegExp :=
  ts ← tokenize None source;
  p ← parseTokens ts (emptyFrame None) [] 0;
  Some {| pattern := p.1; groupCount := p.2; ignoreCase := i |}.

(** *** Matching

    A backtracking matcher in the style of the ECMAScript specification: a
    pattern is matched at index [i] against the rest [s] of the input, and
    hands the index, the rest and the captures it arrives at to its
    continuation [k]; a failure of the continuation makes the pattern try
    its next way of matching. *)

Definition Captures := list (option jstring).

(** Canonicalize of the ECMAScript specification (without [u] flag) on a
    Latin-1 code unit: the upper-case letter. *)
Definition canonicalize (c : ascii) : ascii :=
  if inRange 97 122 c || (inRange 224 254 c && negb (code c =? 247)%N)
  then ascii_of_N (code c - 32) else c.

Definition sameChar (i : bool) (a b : ascii) : bool :=
  if i then bool_decide (canonicalize a = canonicalize b)
  else bool_decide (a = b).

Definition atomMatches (i : bool) (a : ClassAtom) (c : ascii) : bool :=
  match a with
  | CChar x => sameChar i x c
  | CSpace negated => xorb negated (isSpace c)
  | CWord negated => xorb negated (isWordChar c)
  | CDigit negated => xorb negated (inRange 48 57 c)
  end.

(** The capture indices of the groups inside a pattern. *)
Fixpoint groupsOf (r : Regex) : list nat :=
  match r with
  | RSeq r1 r2 | RAlt r1 r2 => groupsOf r1 ++ groupsOf r2
  | RGroup (Some n) r' => n :: groupsOf r'
  | RGroup None r' | RQuant _ _ r' => groupsOf r'
  | _ => []
  end.

Definition clearGroups (indices : list nat) (caps : Captures) : Captures :=
  foldr (fun n acc => <[n := None]> acc) caps indices.

Definition orElse (first : option Captures) (second : unit -> option Captures)
  : option Captures :=
  match first with
  | Some caps => Some caps
  | None => second tt
  end.

Definition Continuation : Type :=
  nat -> jstring -> Captures -> option Captures.

(** RepeatMatcher of the ECMAScript specification, for [*]: one more turn
    of the matcher [m] of the quantified pattern, which has to consume
    input, and then the rest of the turns; or no more turn.  [inner] are
    the groups of the quantified pattern, cleared before each turn.  A turn
    consumes a character, so that [length s] turns are enough. *)
Fixpoint repeatMatcher
    (m : nat -> jstring -> Captures -> Continuation -> option Captures)
    (inner : list nat) (greedy : bool) (k : Continuation)
    (turns : nat) (i : nat) (s : jstring) (caps : Captures)
    {struct turns} : option Captures :=
  let again (_ : unit) :=
    match turns with
    | 0 => None
    | S turns' =>
        m i s (clearGroups inner caps)
          (fun i' s' caps' =>
             if i' =? i then None
             else repeatMatcher m inner greedy k turns' i' s' caps')
    end in
  if greedy then orElse (again tt) (fun _ => k i s caps)
  else orElse (k i s caps) again.

Fixpoint matchFrom (ic : bool) (r : Regex) (i : nat) (s : jstring)
    (caps : Captures) (k : Continuation) {struct r} : option Captures :=
  match r with
  | REmpty => k i s caps
  | RChar c =>
      match s with
      | x :: s' => if sameChar ic c x then k (S i) s' caps else None
      | [] => None
      end
  | RAny =>
      match s with
      | x :: s' => if isLineTerminator x then None else k (S i) s' caps
      | [] => None
      end
  | RSet negated atoms =>
      match s with
      | x :: s' =>
          if xorb negated (existsb (fun a => atomMatches ic a x) atoms)
          then k (S i) s' caps else None
      | [] => None
      end
  | RBegin => if i =? 0 then k i s caps else None
  | REnd => match s with [] => k i s caps | _ :: _ => None end
  | RSeq r1 r2 =>
      matchFrom ic r1 i s caps
        (fun i' s' caps' => matchFrom ic r2 i' s' caps' k)
  | RAlt r1 r2 =>
      orElse (matchFrom ic r1 i s caps k)
        (fun _ => matchFrom ic r2 i s caps k)
  | RGroup index r' =>
      matchFrom ic r' i s caps
        (fun i' s' caps' =>
           k i' s'
             match index with
             | Some n => <[n := Some (take (i' - i) s)]> caps'
             | None => caps'
             end)
  | RQuant q greedy r' =>
      let inner := groupsOf r' in
      match q with
      | Star =>
          repeatMatcher (matchFrom ic r') inner greedy k (length s) i s caps
      | Plus =>
          matchFrom ic r' i s (clearGroups inner caps)
            (fun i' s' caps' =>
               repeatMatcher (matchFrom ic r') inner greedy k (length s')
                 i' s' caps')
      | Opt =>
          let once (_ : unit) :=
            matchFrom ic r' i s (clearGroups inner caps)
              (fun i' s' caps' => if i' =? i then None else k i' s' caps') in
          if greedy then orElse (once tt) (fun _ => k i s caps)
          else orElse (k i s caps) once
      end
  end.

(** [re.exec(s)], for a [re] without [g] flag: the captures of the first
    match, the start indices being tried from [0] on. *)
Fixpoint execFrom (re : RegExp) (i : nat) (s : jstring) : option Captures :=
  orElse
    (matchFrom (ignoreCase re) (pattern re) i s
       (replicate (groupCount re) None) (fun _ _ caps => Some caps))
    (fun _ =>
       match s with
       | _ :: s' => execFrom re (S i) s'
       | [] => None
       end).

Definition exec (re : RegExp) (s : jstring) : option Captures :=
  execFrom re 0 s.

(** [re.test(s)]. *)
Definition test (re : RegExp) (s : jstring) : bool :=
  match exec re s with Some _ => true | None => false end.

(** A command: a string, or a [RegExp] object.  Of a [RegExp] the
    embedding keeps its source and its flags, which [toString] shows, and
    the pattern that its source denotes with the number of its capturing
    groups: the source of a [RegExp] is a valid pattern, so that
    [new RegExp(command.source, 'i')] does not throw and builds that
    pattern with the [i] flag alone.  The [RegExp] commands of the
    embedding are those whose pattern is in the language above. *)
Inductive CommandPattern :=
| CommandString (s : jstring)
| CommandRegExp (source flags : jstring) (sourcePattern : Regex)
    (sourceGroups : nat).

(** [commandToRegExp]; [None] when [new RegExp] throws, which it can on
    the pattern built from a string only. *)
Definition commandToRegExp (command : CommandPattern) : option RegExp :=
  match command with
  | CommandRegExp _ _ sourcePattern sourceGroups =>
      Some {| pattern := sourcePattern; groupCount := sourceGroups;
              ignoreCase := true |}
  | CommandString s => newRegExp (commandSource s) true
  end.

(** [commandToRegExp(command).test(s)], [false] when there is no regular
    expression to test. *)
Definition compiledTest (command : string) (s : jstring) : bool :=
  match commandToRegExp (CommandString (str command)) with
  | Some re => test re s
  | None => false
  end.

(** The regular expression of a command string, [REmpty] without groups
    when [new RegExp] throws. *)
Definition compiled (command : string) : RegExp :=
  default {| pattern := REmpty; groupCount := 0; ignoreCase := true |}
    (commandToRegExp (CommandString (str command))).

Definition notSpace (c : ascii) : bool := negb (isSpace c).
Definition notLineTerminator (c : ascii) : bool := negb (isLineTerminator c).
Definition lineFeed : ascii := ascii_of_N 10.

(** A match of [matchAt] consumes input. *)
Definition consuming (matchAt : jstring -> option (jstring * jstring)) : Prop :=
  forall s replacement rest,
    matchAt s = Some (replacement, rest) -> length rest < length s.

(** Two continuations agree on what a matcher started at index [i] on [s]
    can hand them: a rest of [s], at the index of that rest. *)
Definition agreeAfter (i : nat) (s : jstring) (k1 k2 : Continuation) : Prop :=
  forall i' s' caps,
    i <= i' -> i' + length s' = i + length s -> k1 i' s' caps = k2 i' s' caps.

(** A matcher that only uses its continuation on rests of its input, and
    that fails when its continuation always fails. *)
Definition wellBehaved
    (m : nat -> jstring -> Captures -> Continuation -> option Captures)
  : Prop :=
  (forall i s caps k1 k2,
      agreeAfter i s k1 k2 -> m i s caps k1 = m i s caps k2)
  /\ (forall i s caps, m i s caps (fun _ _ _ => None) = None).

(** ** Command Matching Engine: [matchCommand] and [matchCommands] *)

(** What a call can throw: the [SyntaxError] of [new RegExp], or whatever
    the callback of the command at [commandIndex] throws. *)
Inductive Exception :=
| SyntaxError
| CallbackError (commandIndex : nat).

Inductive Outcome (A : Type) :=
| Returns (a : A)
| Throws (e : Exception).
Arguments Returns {A} a.
Arguments Throws {A} e.

(** The result of [matchCommand]; a field that is absent is [None]. *)
Record MatchResult := {
  isMatch : bool;
  parameters : option (list (option jstring));
  similarity : option Q
}.

(** [s.replace(/\s+/g, ' ')]; [inRun] tells that the scan is inside a run of
    white space. *)
Fixpoint collapseSpaces (inRun : bool) (s : jstring) : jstring :=
  match s with
  | [] => []
  | c :: s' =>
      if isSpace c then
        if inRun then collapseSpaces true s'
        else " "%char :: collapseSpaces true s'
      else c :: collapseSpaces false s'
  end.

(** [s.replace(/[^a-zA-Z0-9\s]/g, ' ').replace(/\s+/g, ' ').trim()]. *)
Definition withoutSpecials (s : jstring) : jstring :=
  trim (collapseSpaces false
          (map (fun c => if isAlphaNum c || isSpace c then c else " "%char) s)).

(** [typeof cmd === 'object' ? cmd.toString() : cmd]. *)
Definition commandToString (cmd : CommandPattern) : jstring :=
  match cmd with
  | CommandString s => s
  | CommandRegExp source flags _ _ => str "/" ++ source ++ str "/" ++ flags
  end.

(** [matchCommand(command, transcript, isFuzzyMatch, fuzzyMatchingThreshold)],
    [commands] being [Array.isArray(command) ? command : [command]]. *)
Fixpoint matchCommand (commands : list CommandPattern) (text : jstring)
    (fuzzy : bool) (threshold : Q) : Outcome MatchResult :=
  match commands with
  | [] => Returns {| isMatch := false; parameters := None; similarity := None |}
  | cmd :: rest =>
      if fuzzy then
        let cleanCmd := withoutSpecials (commandToString cmd) in
        let score := compareTwoStringsUsingDiceCoefficient cleanCmd text in
        if Qle_bool threshold score
        then Returns {| isMatch := true; parameters := None;
                        similarity := Some score |}
        else matchCommand rest text fuzzy threshold
      else
        match commandToRegExp cmd with
        | None => Throws SyntaxError
        | Some regex =>
            match exec regex text with
            | Some caps =>
                Returns {| isMatch := true; parameters := Some caps;
                           similarity := None |}
            | None => matchCommand rest text fuzzy threshold
            end
        end
  end.

(** The field [command] of a command: a string, a [RegExp], or an array of
    strings. *)
Inductive CommandSpec :=
| OneCommand (c : CommandPattern)
| CommandArray (l : list jstring).

(** An argument of a callback; [ArgContext cmd] is the object
    [{ command: cmd, resetTranscript }]. *)
Inductive Arg :=
| ArgString (s : jstring)
| ArgUndefined
| ArgNumber (q : Q)
| ArgContext (cmd : CommandPattern).

(** A [SpeechRecognitionCommand].  [callback] tells, for the arguments of a
    call, whether the callback returns; it throws otherwise. *)
Record SpeechRecognitionCommand := {
  command : CommandSpec;
  callback : list Arg -> bool;
  matchInterim : bool;
  isFuzzyMatch : bool;
  fuzzyMatchingThreshold : option Q;
  bestMatchOnly : bool
}.

(** A call of the callback of the command at [invokedCommand]. *)
Record Invocation := {
  invokedCommand : nat;
  invokedArgs : list Arg
}.

(** A part of the matching pass: the callbacks it calls, in order, and how
    it ends. *)
Definition Pass (A : Type) : Type := list Invocation * Outcome A.

#[global] Instance pass_ret : MRet Pass := fun A x => ([], Returns x).

#[global] Instance pass_bind : MBind Pass :=
  fun A B f c =>
    match c.2 with
    | Returns x => (c.1 ++ (f x).1, (f x).2)
    | Throws e => (c.1, Throws e)
    end.

Definition lift {A} (o : Outcome A) : Pass A := ([], o).

(** [Array.prototype.forEach], with the index of each element. *)
Fixpoint forEachFrom {A} (f : nat -> A -> Pass unit) (index : nat)
    (l : list A) : Pass unit :=
  match l with
  | [] => mret tt
  | x :: l' => f index x;; forEachFrom f (S index) l'
  end.

(** [Array.prototype.map] with a function that can throw. *)
Fixpoint mapPass {A B} (f : A -> Pass B) (l : list A) : Pass (list B) :=
  match l with
  | [] => mret []
  | x :: l' => y ← f x; ys ← mapPass f l'; mret (y :: ys)
  end.

Definition invoke (index : nat) (item : SpeechRecognitionCommand)
    (args : list Arg) : Pass unit :=
  ([{| invokedCommand := index; invokedArgs := args |}],
   if callback item args then Returns tt else Throws (CallbackError index)).

(** An entry of [matches]: [{ command, isMatch, similarity, cleanCommand }]. *)
Record FuzzyMatch := {
  fuzzyCommand : CommandPattern;
  fuzzyIsMatch : bool;
  fuzzySimilarity : Q;
  fuzzyCleanCommand : jstring
}.

Definition testFuzzyMatch (cmd : CommandPattern) (input : jstring)
    (threshold : Q) : Pass FuzzyMatch :=
  let commandWithoutSpecials := withoutSpecials (commandToString cmd) in
  r ← lift (matchCommand [CommandString commandWithoutSpecials] input true
              threshold);
  mret {| fuzzyCommand := cmd; fuzzyIsMatch := isMatch r;
          fuzzySimilarity := default 0%Q (similarity r);
          fuzzyCleanCommand := commandWithoutSpecials |}.

Definition argOfParameter (p : option jstring) : Arg :=
  match p with
  | Some s => ArgString s
  | None => ArgUndefined
  end.

Definition fuzzyArgs (testTranscript : jstring) (m : FuzzyMatch) : list Arg :=
  [ArgString (fuzzyCleanCommand m); ArgString testTranscript;
   ArgNumber (fuzzySimilarity m); ArgContext (fuzzyCommand m)].

Definition commandsToTest (item : SpeechRecognitionCommand)
  : list CommandPattern :=
  match command item with
  | OneCommand c => [c]
  | CommandArray l => map CommandString l
  end.

(** The body of [commandsRef.current.forEach(...)] in [matchCommands], for
    the command [item] at [index]. *)
Definition evaluateCommand (interim final : jstring) (index : nat)
    (item : SpeechRecognitionCommand) : Pass unit :=
  let text := concatTranscripts [final; interim] in
  let threshold := default (8 # 10)%Q (fuzzyMatchingThreshold item) in
  if (negb (jeqb interim []) && negb (matchInterim item))
     || jeqb (trim text) []
  then mret tt
  else
    let testTranscript := if matchInterim item then text else final in
    if jeqb (trim testTranscript) [] then mret tt
    else if isFuzzyMatch item then
      tested ← mapPass (fun cmd => testFuzzyMatch cmd testTranscript threshold)
                 (commandsToTest item);
      match filter (fun m => fuzzyIsMatch m = true) tested with
      | [] => mret tt
      | first :: others =>
          if bestMatchOnly item then
            let bestMatch :=
              foldl (fun best current =>
                       if Qlt_le_dec (fuzzySimilarity best)
                            (fuzzySimilarity current)
                       then current else best)
                first others in
            invoke index item (fuzzyArgs testTranscript bestMatch)
          else
            forEachFrom
              (fun _ m => invoke index item (fuzzyArgs testTranscript m))
              0 (first :: others)
      end
    else
      forEachFrom
        (fun _ cmd =>
           r ← lift (matchCommand [cmd] testTranscript false (8 # 10)%Q);
           if isMatch r then
             match parameters r with
             | Some ps =>
                 invoke index item (map argOfParameter ps ++ [ArgContext cmd])
             | None => invoke index item [ArgContext cmd]
             end
           else mret tt)
        0 (commandsToTest item).

(** [matchCommands(interimTranscript, finalTranscript)] on the registered
    commands. *)
Definition matchCommands (commands : list SpeechRecognitionCommand)
    (interim final : jstring) : Pass unit :=
  forEachFrom (evaluateCommand interim final) 0 commands.


(** The command [hello] with a callback that throws, and with one that
    returns. *)
Definition helloCommand (returns : bool) : SpeechRecognitionCommand :=
  {| command := OneCommand (CommandString (str "hello"));
     callback := fun _ => returns;
     matchInterim := false; isFuzzyMatch := false;
     fuzzyMatchingThreshold := None; bestMatchOnly := false |}.

(** ** The hook [useSpeechRecognition]: its transcript state *)

Module Hook.

(** The state of [transcriptReducer]. *)
Record TranscriptState := {
  interimTranscript : jstring;
  finalTranscript : jstring
}.

(** A [TranscriptAction]: its type, with the payload of an append. *)
Inductive TranscriptAction :=
| APPEND_TRANSCRIPT (payloadInterimTranscript payloadFinalTranscript : jstring)
| CLEAR_TRANSCRIPT.

Definition transcriptReducer (state : TranscriptState)
    (action : TranscriptAction) : TranscriptState :=
  match action with
  | CLEAR_TRANSCRIPT => {| interimTranscript := []; finalTranscript := [] |}
  | APPEND_TRANSCRIPT payloadInterim payloadFinal =>
      {| interimTranscript := payloadInterim;
         finalTranscript :=
           concatTranscripts [finalTranscript state; payloadFinal] |}
  end.

Definition appendTranscript (interimTranscript finalTranscript : jstring)
  : TranscriptAction :=
  APPEND_TRANSCRIPT interimTranscript finalTranscript.

Definition clearTranscript : TranscriptAction := CLEAR_TRANSCRIPT.

(** [handleTranscriptChange], which the hook registers as
    [onTranscriptChange]: the state after the dispatch, and the matching
    pass over the commands of the hook. *)
Definition handleTranscriptChange (transcribing : bool)
    (commands : list SpeechRecognitionCommand)
    (newInterimTranscript newFinalTranscript : jstring)
    (state : TranscriptState) : TranscriptState * Pass unit :=
  (if transcribing
   then transcriptReducer state
          (appendTranscript newInterimTranscript newFinalTranscript)
   else state,
   matchCommands commands newInterimTranscript newFinalTranscript).

(** The [resetTranscript] of the hook: the manager's [resetTranscript],
    then the dispatch of a clear; the result is the state of the hook. *)
Definition resetTranscript (state : TranscriptState) : Method TranscriptState :=
  resetTranscript;;
  mret (transcriptReducer state clearTranscript).

End Hook.

(** ** Further notions, for the properties beyond the specification *)

(** No word of [ws] compares equal to the word before it, [prev] being the
    word before the first. *)
Fixpoint distinctFromPrevious (prev : option jstring) (ws : list jstring)
  : Prop :=
  match ws with
  | [] => True
  | w :: ws' =>
      differsFromPrevious prev w = true /\ distinctFromPrevious (Some w) ws'
  end.

(** A run of calls, made one after the other. *)
Definition callAll (cs : list Call) (m : RecognitionManager)
  : RecognitionManager :=
  foldl (fun st c => stateAfter (call c st)) m cs.

(** The calls that the recognizer makes: its result, end and error events. *)
Definition recognizerEvent (c : Call) : bool :=
  match c with
  | OnResult _ | OnEnd _ | OnError _ => true
  | _ => false
  end.

(** The callback that a notification calls is among those that a
    subscriber registered. *)
Definition registered (n : Notification) (callbacks : RecognitionCallbacks)
  : bool :=
  match n with
  | ListeningChange _ => onListeningChange callbacks
  | MicrophoneAvailabilityChange _ => onMicrophoneAvailabilityChange callbacks
  | TranscriptChange _ _ => onTranscriptChange callbacks
  | ClearTranscript => onClearTranscript callbacks
  | BrowserSupportsSpeechRecognitionChange _ =>
      onBrowserSupportsSpeechRecognitionChange callbacks
  | BrowserSupportsContinuousListeningChange _ =>
      onBrowserSupportsContinuousListeningChange callbacks
  end.

(** The call registers callbacks under [id]. *)
Definition subscribesAs (id : jstring) (c : Call) : bool :=
  match c with
  | Subscribe id' _ => jeqb id' id
  | _ => false
  end.

(** A character of a command string that takes no part in a parameter:
    it is no parenthesis, no colon and no asterisk. *)
Definition literal (c : ascii) : bool := negb (isChar c "():*").

(** What [replace(escapeRegExp, '\\$&')] makes of a string. *)
Definition escaped (s : jstring) : jstring :=
  flat_map (fun c => if isChar c "-{}[]+?.,\^$|#" then ["\"%char; c] else [c]) s.

(** The pattern [^c1...cn$]. *)
Definition literalPattern (s : jstring) : Regex :=
  RSeq RBegin (foldr (fun c rest => RSeq (RChar c) rest) REnd s).

(** Equality of two texts up to the case of their letters. *)
Definition sameText (a b : jstring) : bool :=
  bool_decide (map canonicalize a = map canonicalize b).

(** A text of letters and digits with single spaces between them;
    [inRun] tells that a space comes just before. *)
Fixpoint tidy (inRun : bool) (s : jstring) : bool :=
  match s with
  | [] => true
  | c :: s' =>
      if isSpace c
      then negb inRun && bool_decide (c = " "%char) && tidy true s'
      else isAlphaNum c && tidy false s'
  end.

(** The transcript that a command is tested against. *)
Definition testedTranscript (item : SpeechRecognitionCommand)
    (interim final : jstring) : jstring :=
  if matchInterim item then concatTranscripts [final; interim] else final.

(** The score of a command in fuzzy mode. *)
Definition fuzzyScore (cmd : CommandPattern) (text : jstring) : Q :=
  compareTwoStringsUsingDiceCoefficient
    (withoutSpecials (commandToString cmd)) text.

(** The entry of [matches] for the command [cmd]. *)
Definition fuzzyEntry (text : jstring) (threshold : Q) (cmd : CommandPattern)
  : FuzzyMatch :=
  {| fuzzyCommand := cmd;
     fuzzyIsMatch := Qle_bool threshold (fuzzyScore cmd text);
     fuzzySimilarity :=
       if Qle_bool threshold (fuzzyScore cmd text)
       then fuzzyScore cmd text else 0%Q;
     fuzzyCleanCommand := withoutSpecials (commandToString cmd) |}.



(** The command [item] is tested on this update: [matchCommands] gets past
    its two guards. *)
Definition tested (item : SpeechRecognitionCommand) (interim final : jstring)
  : bool :=
  negb ((negb (jeqb interim []) && negb (matchInterim item))
        || jeqb (trim (concatTranscripts [final; interim])) [])
  && negb (jeqb (trim (testedTranscript item interim final)) []).



(** Characters at which the replacements of [commandToRegExp] find no
    match: no opening parenthesis, no asterisk, neither an opening
    parenthesis nor a colon. *)
Definition notOpen (c : ascii) : bool := negb (isChar c "(").
Definition notStar (c : ascii) : bool := negb (isChar c "*").
Definition notOpenNorColon (c : ascii) : bool := negb (isChar c "(:").

(** [s] does not start with a word character, so that the name of a
    parameter in front of it ends there. *)
Definition startsNonWord (s : jstring) : bool :=
  match s with
  | [] => true
  | c :: _ => negb (isWordChar c)
  end.

(** A character of an optional phrase: it takes no part in a parameter
    and is no line terminator, which [(.*?)] of [optionalParam] would not
    match. *)
Definition phraseChar (c : ascii) : bool :=
  literal c && negb (isLineTerminator c).

(** The terms of a sequence matched one after the other. *)
Fixpoint matchTerms (ic : bool) (rs : list Regex) (i : nat) (s : jstring)
    (caps : Captures) (k : Continuation) : option Captures :=
  match rs with
  | [] => k i s caps
  | r :: rs' =>
      matchFrom ic r i s caps
        (fun i' s' caps' => matchTerms ic rs' i' s' caps' k)
  end.

(** The reading of the specification under which two final-only batches
    with the same content, handled one after the other, call the
    transcript-changed callback of every subscriber exactly once. *)
Definition twoBatchesNotifyOnce (m : RecognitionManager)
    (event : SpeechRecognitionEvent) : Prop :=
  finalOnlyBatch event = true ->
  let first := updateTranscript event m in
  let second := updateTranscript event (stateAfter first) in
  map (fun change => change.1.1)
    (transcriptChanges (effectsOf first ++ effectsOf second))
  = transcriptSubscribers m.



(** * Properties *)

(** ** Properties of the Text Normalizer *)

(** Unit tests of [utils.test.ts] and of [test-duplicate.js]. *)
Example concat_hello_world :
  concatTranscripts [str "hello"; str "world"] = str "hello world"
  /\ concatTranscripts [str "  hello  "; str "  world  "] = str "hello world"
  /\ concatTranscripts [[]; str "world"] = str "world"
  /\ concatTranscripts [str "hello"; []] = str "hello"
  /\ concatTranscripts [[]; []] = [].
Proof. repeat split; vm_compute; reflexivity. Qed.

Example remove_duplicates_punctuation :
  removeDuplicateWords (str "hello, hello world!") = str "hello, world!"
  /\ removeDuplicateWords (str "   ") = [].
Proof. split; vm_compute; reflexivity. Qed.

Lemma splitWs_nonnil b s : splitWs b s <> [].
Proof.
  revert b; induction s as [|c s IH]; intros b; simpl; [done|].
  destruct (isSpace c); [destruct b; [apply IH|done]|].
  destruct (splitWs false s); done.
Qed.

Lemma splitWs_start b c s :
  isSpace c = false -> splitWs b (c :: s) = splitWs false (c :: s).
Proof. intros H; simpl; rewrite H; reflexivity. Qed.

Lemma splitWs_spacefree b s :
  Forall (Forall (fun c => isSpace c = false)) (splitWs b s).
Proof.
  revert b; induction s as [|c s IH]; intros b; simpl.
  - repeat constructor.
  - destruct (isSpace c) eqn:Hc.
    + destruct b; [apply IH|constructor; [constructor|apply IH]].
    + specialize (IH false). destruct (splitWs false s) as [|w ws].
      * repeat constructor; done.
      * inversion IH; subst. constructor; [constructor|]; done.
Qed.

(** On a string that ends with a character that is not white space, every
    piece after a separator is non-empty. *)
Lemma splitWs_nonempty s :
  endsNonSpace s = true ->
  Forall (fun w => w <> []) (splitWs true s)
  /\ Forall (fun w => w <> []) (tail (splitWs false s)).
Proof.
  induction s as [|c s IH]; [done|]. intros He.
  destruct s as [|d s].
  - simpl in He. apply negb_true_iff in He. simpl. rewrite He.
    split; repeat constructor; done.
  - specialize (IH He). destruct IH as [IH1 IH2].
    change (splitWs true (c :: d :: s)) with
      (if isSpace c then splitWs true (d :: s)
       else match splitWs false (d :: s) with
            | w :: ws => (c :: w) :: ws | [] => [[c]] end).
    change (splitWs false (c :: d :: s)) with
      (if isSpace c then [] :: splitWs true (d :: s)
       else match splitWs false (d :: s) with
            | w :: ws => (c :: w) :: ws | [] => [[c]] end).
    destruct (isSpace c); [split; assumption|].
    destruct (splitWs false (d :: s)) as [|w ws] eqn:E.
    + split; repeat constructor; done.
    + simpl in IH2. split; [constructor; [done|assumption]|assumption].
Qed.

Lemma split_spaces_words s :
  startsNonSpace s = true -> endsNonSpace s = true ->
  Forall isWord (split_spaces s).
Proof.
  intros Hs He. unfold split_spaces.
  pose proof (splitWs_spacefree false s) as Hsf.
  destruct (splitWs_nonempty s He) as [_ Ht].
  destruct s as [|c s]; [done|]. simpl in Hs. apply negb_true_iff in Hs.
  simpl in *. rewrite Hs in *.
  destruct (splitWs false s) as [|w ws].
  - repeat constructor; [done|]. inversion Hsf; subst; done.
  - simpl in Ht. inversion Hsf; subst. constructor; [split; done|].
    apply Forall_forall. intros x Hx. split.
    + rewrite Forall_forall in Ht. apply Ht, Hx.
    + match goal with H : Forall _ ws |- _ =>
        rewrite Forall_forall in H; apply H, Hx end.
Qed.

Lemma trimStart_starts s : trimStart s <> [] -> startsNonSpace (trimStart s) = true.
Proof.
  induction s as [|c s IH]; simpl; [done|].
  destruct (isSpace c) eqn:Hc; [exact IH|]. intros _. simpl. by rewrite Hc.
Qed.

Lemma trimEnd_ends s : trimEnd s <> [] -> endsNonSpace (trimEnd s) = true.
Proof.
  induction s as [|c s IH]; simpl; [done|].
  destruct (trimEnd s) as [|d t] eqn:E.
  - destruct (isSpace c) eqn:Hc; [done|]. intros _. simpl. by rewrite Hc.
  - intros _. specialize (IH ltac:(done)). exact IH.
Qed.

Lemma trimEnd_starts s :
  startsNonSpace s = true -> startsNonSpace (trimEnd s) = true.
Proof.
  destruct s as [|c s]; [done|]. simpl. intros Hc.
  destruct (trimEnd s); [|exact Hc].
  apply negb_true_iff in Hc. rewrite Hc. simpl. by rewrite Hc.
Qed.

Lemma trim_shape s :
  trim s <> [] ->
  startsNonSpace (trim s) = true /\ endsNonSpace (trim s) = true.
Proof.
  unfold trim. intros Hn. split; [|by apply trimEnd_ends].
  apply trimEnd_starts, trimStart_starts. intros E. by rewrite E in Hn.
Qed.

Lemma trimStart_id s : startsNonSpace s = true -> trimStart s = s.
Proof.
  destruct s as [|c s]; [done|]. simpl. intros H.
  apply negb_true_iff in H. by rewrite H.
Qed.

Lemma trimEnd_id s : endsNonSpace s = true -> trimEnd s = s.
Proof.
  induction s as [|c s IH]; [done|]. intros He. destruct s as [|d s].
  - simpl in *. apply negb_true_iff in He. by rewrite He.
  - specialize (IH He). change (trimEnd (c :: d :: s)) with
      (match trimEnd (d :: s) with
       | [] => if isSpace c then [] else [c] | t => c :: t end).
    rewrite IH. reflexivity.
Qed.

Lemma trim_id s :
  startsNonSpace s = true -> endsNonSpace s = true -> trim s = s.
Proof.
  intros Hs He. unfold trim. rewrite (trimStart_id s Hs). by apply trimEnd_id.
Qed.

Lemma splitWs_word_app w r :
  Forall (fun c => isSpace c = false) w ->
  splitWs false (w ++ r) =
    match splitWs false r with
    | v :: vs => (w ++ v) :: vs
    | [] => [w]
    end.
Proof.
  induction 1 as [|c w Hc Hw IH]; simpl.
  - destruct (splitWs false r) eqn:E; [by apply splitWs_nonnil in E|done].
  - rewrite Hc, IH. destruct (splitWs false r); reflexivity.
Qed.

Lemma splitWs_word w :
  Forall (fun c => isSpace c = false) w -> splitWs false w = [w].
Proof.
  intros H. rewrite <- (app_nil_r w) at 1.
  rewrite splitWs_word_app by done. simpl. by rewrite app_nil_r.
Qed.

(** Splitting undoes joining with one space. *)
Lemma split_join ws :
  ws <> [] -> Forall isWord ws -> split_spaces (join (str " ") ws) = ws.
Proof.
  unfold split_spaces. induction ws as [|w ws IH]; [done|]. intros _ Hall.
  inversion Hall as [|? ? [Hne Hsf] Hrest]; subst.
  destruct ws as [|v vs]; [by apply splitWs_word|].
  change (join (str " ") (w :: v :: vs))
    with (w ++ str " " ++ join (str " ") (v :: vs)).
  rewrite splitWs_word_app by done.
  specialize (IH ltac:(done) Hrest).
  inversion Hrest as [|? ? [Hvne Hvsf] _]; subst.
  destruct v as [|c v]; [done|]. inversion Hvsf; subst.
  assert (Hstart : splitWs true (join (str " ") ((c :: v) :: vs))
                   = (c :: v) :: vs).
  { assert (Hj : exists r, join (str " ") ((c :: v) :: vs) = c :: r)
      by (destruct vs; simpl; eauto).
    destruct Hj as [r Hj]. rewrite Hj in IH |- *.
    rewrite <- IH. by apply splitWs_start. }
  change (str " " ++ join (str " ") ((c :: v) :: vs))
    with (" "%char :: join (str " ") ((c :: v) :: vs)).
  change (splitWs false (" "%char :: ?s)) with ([] :: splitWs true s).
  rewrite Hstart. by rewrite app_nil_r.
Qed.

Lemma endsNonSpace_app s t :
  t <> [] -> endsNonSpace (s ++ t) = endsNonSpace t.
Proof.
  intros Ht. induction s as [|c s IH]; [done|].
  simpl. destruct (s ++ t) eqn:E; [|exact IH].
  apply app_eq_nil in E. by destruct E.
Qed.

Lemma word_ends w : isWord w -> endsNonSpace w = true.
Proof.
  intros [Hne Hsf]. induction Hsf as [|c w Hc Hw IH]; [done|].
  destruct w; simpl; [by rewrite Hc|]. apply IH. done.
Qed.

Lemma word_starts w : isWord w -> startsNonSpace w = true.
Proof.
  intros [Hne Hsf]. destruct Hsf as [|c w Hc _]; [done|]. simpl. by rewrite Hc.
Qed.

Lemma join_shape ws :
  ws <> [] -> Forall isWord ws ->
  startsNonSpace (join (str " ") ws) = true
  /\ endsNonSpace (join (str " ") ws) = true.
Proof.
  induction ws as [|w ws IH]; [done|]. intros _ Hall.
  inversion Hall as [|? ? Hw Hrest]; subst.
  destruct ws as [|v vs]; [split; [by apply word_starts|by apply word_ends]|].
  destruct (IH ltac:(done) Hrest) as [IHs IHe].
  change (join (str " ") (w :: v :: vs))
    with (w ++ " "%char :: join (str " ") (v :: vs)).
  split.
  - pose proof (word_starts w Hw) as Hs. destruct Hw as [Hne _].
    destruct w; [done|exact Hs].
  - rewrite endsNonSpace_app by done.
    destruct (join (str " ") (v :: vs)) eqn:E; [done|exact IHe].
Qed.

Lemma join_nonnil ws :
  ws <> [] -> Forall isWord ws -> join (str " ") ws <> [].
Proof.
  intros Hne Hall E. destruct (join_shape ws Hne Hall) as [Hs _].
  by rewrite E in Hs.
Qed.

(** [filterWords] looks at its predecessor only through [comparable]. *)
Lemma filterWords_prev p q ws :
  comparable p = comparable q ->
  filterWords (Some p) ws = filterWords (Some q) ws.
Proof. intros E. destruct ws; simpl; [done|]. by rewrite E. Qed.

Lemma filterWords_idem prev ws :
  filterWords prev (filterWords prev ws) = filterWords prev ws.
Proof.
  revert prev; induction ws as [|w ws IH]; intros prev; [done|]. simpl.
  destruct (differsFromPrevious prev w) eqn:E; simpl.
  - by rewrite E, IH.
  - destruct prev as [p|]; [|done]. simpl in E.
    apply negb_false_iff in E. unfold jeqb in E. apply bool_decide_eq_true in E.
    rewrite (filterWords_prev p w) by done. apply IH.
Qed.


Lemma filterWords_words prev ws :
  Forall isWord ws -> Forall isWord (filterWords prev ws).
Proof.
  intros H. revert prev. induction H as [|w ws Hw Hws IH]; intros prev.
  - constructor.
  - simpl. destruct (differsFromPrevious prev w); simpl; [constructor|]; auto.
Qed.

Lemma words_are_words s : Forall isWord (words s).
Proof.
  unfold words. destruct (trim s) eqn:E; [constructor|]. rewrite <- E.
  assert (Hn : trim s <> []) by (by rewrite E).
  destruct (trim_shape s Hn). by apply split_spaces_words.
Qed.

Lemma removeDuplicateWords_words s :
  removeDuplicateWords s = join (str " ") (filterWords None (words s)).
Proof. unfold removeDuplicateWords, words. by destruct (trim s). Qed.

Lemma words_join ws :
  Forall isWord ws -> words (join (str " ") ws) = ws.
Proof.
  intros Hall. destruct ws as [|w ws]; [done|].
  destruct (join_shape (w :: ws) ltac:(done) Hall) as [Hs He].
  unfold words. rewrite trim_id by done.
  destruct (join (str " ") (w :: ws)) eqn:E.
  - by apply join_nonnil in E.
  - rewrite <- E. by apply split_join.
Qed.

Lemma words_removeDuplicateWords s :
  words (removeDuplicateWords s) = filterWords None (words s).
Proof.
  rewrite removeDuplicateWords_words. apply words_join.
  apply filterWords_words, words_are_words.
Qed.

Lemma removeDuplicateWords_idem s :
  removeDuplicateWords (removeDuplicateWords s) = removeDuplicateWords s.
Proof.
  rewrite (removeDuplicateWords_words (removeDuplicateWords s)).
  rewrite words_removeDuplicateWords, filterWords_idem.
  symmetry. apply removeDuplicateWords_words.
Qed.

Lemma filterWords_keptAfterPredecessor prev ws :
  filterWords prev ws
  = map snd
      (filter (fun pw => differsFromPrevious pw.1 pw.2 = true)
         (zip (prev :: map Some ws) ws)).
Proof.
  revert prev. induction ws as [|w ws IH]; intros prev; [done|].
  cbn [filterWords map zip zip_with]. rewrite filter_cons. simpl.
  rewrite (IH (Some w)).
  destruct (differsFromPrevious prev w) eqn:E.
  - rewrite decide_True by done. reflexivity.
  - rewrite decide_False by (by intros ?). reflexivity.
Qed.

(** C7.  The Text Normalizer is idempotent, and it collapses only
    duplicates that are next to each other: its output is the words of the
    input, each kept when it differs (lower-cased, punctuation stripped)
    from the word just before it in the input, and not when it differs from
    some earlier word.  So the later [Hello How you doing] of the example
    stays. *)
Theorem removeDuplicateWords_idempotent :
  (forall x : jstring,
      removeDuplicateWords (removeDuplicateWords x) = removeDuplicateWords x)
  /\ (forall x : jstring,
         removeDuplicateWords x
         = join (str " ") (keptAfterPredecessor (words x)))
  /\ removeDuplicateWords
       (str "Hello Hello Hello How you doing Hello How you doing")
     = str "Hello How you doing Hello How you doing".
Proof.
  split; [exact removeDuplicateWords_idem|]. split; [|vm_compute; done].
  intros x. rewrite removeDuplicateWords_words.
  by rewrite filterWords_keptAfterPredecessor.
Qed.

(** ** Properties of the Similarity Scorer *)

Example dice_unit_tests :
  (compareTwoStringsUsingDiceCoefficient (str "hello") (str "hello") = 1
  /\ compareTwoStringsUsingDiceCoefficient (str "abc") (str "xyz") == 0
  /\ compareTwoStringsUsingDiceCoefficient [] [] = 1
  /\ compareTwoStringsUsingDiceCoefficient (str "hello") [] = 0
  /\ compareTwoStringsUsingDiceCoefficient [] (str "hello") = 0
  /\ compareTwoStringsUsingDiceCoefficient (str "a") (str "b") = 0
  /\ compareTwoStringsUsingDiceCoefficient (str "a") (str "a") = 1
  /\ compareTwoStringsUsingDiceCoefficient (str "hello") (str "helo") == 6 # 7)%Q.
Proof. repeat split; vm_compute; reflexivity. Qed.

Section Dice.
Implicit Types (m : gmap jstring nat) (X Y : gmultiset jstring).
Implicit Types (b : jstring) (l : list jstring).

Lemma holds_empty : holds ∅ ∅.
Proof. intros b. by rewrite lookup_empty, multiplicity_empty. Qed.

Lemma holds_count m X b : holds m X -> holds (countBigram m b) (X ⊎ {[+ b +]}).
Proof.
  intros H c. unfold countBigram. specialize (H c).
  rewrite multiplicity_disj_union, multiplicity_singleton.
  destruct (decide (b = c)) as [->|Hne].
  - rewrite lookup_insert_eq. rewrite decide_True by done.
    destruct (m !! c); lia.
  - rewrite lookup_insert_ne by done. rewrite decide_False by done. lia.
Qed.

Lemma holds_first_loop l m X :
  holds m X -> holds (foldl countBigram m l) (X ⊎ list_to_set_disj l).
Proof.
  revert m X. induction l as [|b l IH]; intros m X H; cbn [foldl].
  - by rewrite list_to_set_disj_nil, (right_id_L ∅ (⊎)).
  - rewrite list_to_set_disj_cons.
    rewrite (assoc_L (⊎)). apply IH. by apply holds_count.
Qed.

(** One turn of the second loop: [X] is the multiset of the first string,
    [Y] the bigrams of the second scanned so far. *)
Lemma consume_step m X Y b n :
  holds m (X ∖ Y) -> n = size (X ∩ Y) ->
  let st := consumeBigram (m, n) b in
  holds st.1 (X ∖ (Y ⊎ {[+ b +]})) /\ st.2 = size (X ∩ (Y ⊎ {[+ b +]})).
Proof.
  intros H ->. unfold consumeBigram. simpl.
  pose proof (H b) as Hb. rewrite multiplicity_difference in Hb.
  destruct (0 <? match m !! b with Some n => n | None => 0 end) eqn:E.
  - apply Nat.ltb_lt in E. simpl. split.
    + intros c. specialize (H c).
      rewrite multiplicity_difference in H |- *.
      rewrite multiplicity_disj_union, multiplicity_singleton.
      destruct (decide (b = c)) as [->|Hne].
      * rewrite lookup_insert_eq. rewrite decide_True by done. lia.
      * rewrite lookup_insert_ne by done. rewrite decide_False by done. lia.
    + assert (Heq : X ∩ (Y ⊎ {[+ b +]}) = (X ∩ Y) ⊎ {[+ b +]}).
      { apply gmultiset_eq. intros c.
        rewrite multiplicity_disj_union, !multiplicity_intersection,
          multiplicity_disj_union, multiplicity_singleton.
        destruct (decide (c = b)) as [->|Hne]; lia. }
      rewrite Heq, gmultiset_size_disj_union, gmultiset_size_singleton. lia.
  - apply Nat.ltb_ge in E. simpl. split.
    + intros c. specialize (H c).
      rewrite multiplicity_difference in H |- *.
      rewrite multiplicity_disj_union, multiplicity_singleton.
      destruct (decide (c = b)) as [->|Hne]; lia.
    + f_equal. apply gmultiset_eq. intros c.
      rewrite !multiplicity_intersection,
        multiplicity_disj_union, multiplicity_singleton.
      destruct (decide (c = b)) as [->|Hne]; lia.
Qed.

Lemma consume_loop l m X Y n :
  holds m (X ∖ Y) -> n = size (X ∩ Y) ->
  (foldl consumeBigram (m, n) l).2 = size (X ∩ (Y ⊎ list_to_set_disj l)).
Proof.
  revert m Y n. induction l as [|b l IH]; intros m Y n H Hn; cbn [foldl].
  - rewrite list_to_set_disj_nil, (right_id_L ∅ (⊎)). exact Hn.
  - destruct (consume_step m X Y b n H Hn) as [H1 H2].
    rewrite list_to_set_disj_cons, (assoc_L (⊎)).
    destruct (consumeBigram (m, n) b) as [m' n'] eqn:E.
    by apply IH.
Qed.

(** The counter of the second loop is the size of the intersection of the
    two multisets of bigrams. *)
Lemma intersectionSizeOf_spec (first second : jstring) :
  intersectionSizeOf first second
  = size (bigramMultiset first ∩ bigramMultiset second).
Proof.
  unfold intersectionSizeOf, bigramMultiset.
  pose proof (holds_first_loop (bigrams first) ∅ ∅ holds_empty) as H.
  rewrite (left_id_L ∅ (⊎)) in H.
  rewrite (consume_loop (bigrams second) _ (list_to_set_disj (bigrams first)) ∅ 0).
  - by rewrite (left_id_L ∅ (⊎)).
  - intros b. rewrite (H b), multiplicity_difference, multiplicity_empty. lia.
  - symmetry. apply gmultiset_size_empty_iff.
    apply gmultiset_eq. intros c.
    rewrite multiplicity_intersection, multiplicity_empty. lia.
Qed.

Lemma length_bigrams (s : jstring) : length (bigrams s) = length s - 1.
Proof.
  induction s as [|a [|b s] IH]; [done..|].
  change (bigrams (a :: b :: s)) with ([a; b] :: bigrams (b :: s)).
  simpl length in *. lia.
Qed.

Lemma size_bigramMultiset (s : jstring) :
  size (bigramMultiset s) = length s - 1.
Proof.
  unfold bigramMultiset. rewrite <- length_bigrams.
  induction (bigrams s) as [|b l IH].
  - by rewrite list_to_set_disj_nil, gmultiset_size_empty.
  - rewrite list_to_set_disj_cons, gmultiset_size_disj_union,
      gmultiset_size_singleton, IH. reflexivity.
Qed.
End Dice.

(** The white space that the code strips is the white space of the
    specification, and the bigrams that it counts are the pairs of adjacent
    characters. *)
Lemma isSpace_whiteSpaceCodes (c : ascii) :
  isSpace c = bool_decide (code c ∈ whiteSpaceCodes).
Proof. by destruct c as [[] [] [] [] [] [] [] []]. Qed.

Lemma stripSpaces_withoutWhiteSpace (s : jstring) :
  stripSpaces s = withoutWhiteSpace s.
Proof.
  induction s as [|c s IH]; [done|]. unfold stripSpaces in *.
  cbn [withoutWhiteSpace]. rewrite <- isSpace_whiteSpaceCodes, <- IH.
  destruct (isSpace c) eqn:E.
  - by rewrite filter_cons_False by by rewrite E.
  - by rewrite filter_cons_True by done.
Qed.

Lemma bigrams_adjacent (s : jstring) :
  bigrams s = zip_with (fun a b => [a; b]) s (drop 1 s).
Proof.
  induction s as [|a [|b s] IH]; [done..|].
  change (bigrams (a :: b :: s)) with ([a; b] :: bigrams (b :: s)).
  by rewrite IH.
Qed.

Lemma bigramMultiset_bigramsOf (s : jstring) : bigramMultiset s = bigramsOf s.
Proof. unfold bigramMultiset, bigramsOf. by rewrite bigrams_adjacent. Qed.

(** The score of the specification, over what the code strips and
    counts. *)
Lemma diceCoefficient_code (first second : jstring) :
  diceCoefficient first second
  = if bool_decide (stripSpaces first = stripSpaces second) then 1%Q
    else if bool_decide (length (stripSpaces first) < 2
                         \/ length (stripSpaces second) < 2) then 0%Q
    else ((2 * inject_Z
                 (Z.of_nat (size (bigramMultiset (stripSpaces first)
                                  ∩ bigramMultiset (stripSpaces second)))))
          / inject_Z (Z.of_nat (length (stripSpaces first)
                                + length (stripSpaces second) - 2)))%Q.
Proof.
  unfold diceCoefficient.
  by rewrite !stripSpaces_withoutWhiteSpace, !bigramMultiset_bigramsOf.
Qed.

Lemma compare_diceCoefficient first second :
  compareTwoStringsUsingDiceCoefficient first second
  = diceCoefficient first second.
Proof.
  rewrite diceCoefficient_code.
  unfold compareTwoStringsUsingDiceCoefficient, jeqb.
  destruct (bool_decide (stripSpaces first = stripSpaces second)); [done|].
  destruct (bool_decide (length (stripSpaces first) < 2
                         \/ length (stripSpaces second) < 2)) eqn:E.
  - apply bool_decide_eq_true in E.
    assert (H : (length (stripSpaces first) <? 2)
                || (length (stripSpaces second) <? 2) = true).
    { apply orb_true_iff. rewrite !Nat.ltb_lt. exact E. }
    by rewrite H.
  - apply bool_decide_eq_false in E.
    assert (H : (length (stripSpaces first) <? 2)
                || (length (stripSpaces second) <? 2) = false).
    { apply orb_false_iff. rewrite !Nat.ltb_ge. lia. }
    rewrite H. by rewrite intersectionSizeOf_spec.
Qed.

(** The score lies between 0 and 1. *)
Lemma diceCoefficient_bounds (first second : jstring) :
  (0 <= diceCoefficient first second <= 1)%Q.
Proof.
  rewrite diceCoefficient_code.
  destruct (bool_decide (stripSpaces first = stripSpaces second));
    [split; discriminate|].
  destruct (bool_decide (length (stripSpaces first) < 2
                         \/ length (stripSpaces second) < 2)) eqn:E;
    [split; discriminate|].
  apply bool_decide_eq_false in E.
  set (f := stripSpaces first) in *. set (s := stripSpaces second) in *.
  set (n := size (bigramMultiset f ∩ bigramMultiset s)).
  assert (Hf : n <= length f - 1).
  { rewrite <- size_bigramMultiset. apply gmultiset_subseteq_size.
    unfold n. multiset_solver. }
  assert (Hs : n <= length s - 1).
  { rewrite <- size_bigramMultiset. apply gmultiset_subseteq_size.
    unfold n. multiset_solver. }
  assert (Hd : (0 < inject_Z (Z.of_nat (length f + length s - 2)))%Q).
  { change 0%Q with (inject_Z 0). rewrite <- Zlt_Qlt. lia. }
  split.
  - apply Qle_shift_div_l; [exact Hd|]. rewrite Qmult_0_l.
    change 0%Q with (2 * inject_Z 0)%Q.
    apply Qmult_le_l; [reflexivity|]. rewrite <- Zle_Qle. lia.
  - apply Qle_shift_div_r; [exact Hd|]. rewrite Qmult_1_l.
    change 2%Q with (inject_Z 2). rewrite <- inject_Z_mult, <- Zle_Qle. lia.
Qed.

(** C5.  [compareTwoStringsUsingDiceCoefficient] computes the score of the
    specification.  With the white space of its two inputs stripped (tab,
    line feed, vertical tab, form feed, carriage return, space and no-break
    space), it returns exactly 1 when the two stripped inputs are the same,
    both empty included; 0 when they differ and one of them has fewer than
    two characters; and otherwise [2 * I / (len1 + len2 - 2)] over the
    stripped lengths, where [I] is the size of the intersection of the two
    multisets of bigrams, so that no occurrence of a bigram is counted
    twice.  The score of [hello] against [helo] is 6/7, strictly between 0
    and 1; [he llo] with white space around and inside scores 1 against
    [hello]; and [aaa] against [aaaa] scores 4/5, the two occurrences of
    [aa] in the first being matched once each. *)
Theorem dice_coefficient_rules (first second : jstring) :
  let f := withoutWhiteSpace first in
  let s := withoutWhiteSpace second in
  let score := compareTwoStringsUsingDiceCoefficient first second in
  (f = s -> score = 1%Q)
  /\ (f <> s -> length f < 2 \/ length s < 2 -> score = 0%Q)
  /\ (f <> s -> 2 <= length f -> 2 <= length s ->
      score
      = ((2 * inject_Z (Z.of_nat (size (bigramsOf f ∩ bigramsOf s))))
         / inject_Z (Z.of_nat (length f + length s - 2)))%Q)
  /\ score = diceCoefficient first second
  /\ (0 <= score <= 1)%Q
  /\ withoutWhiteSpace
       (str " a b" ++ map ascii_of_N [9; 10; 11; 12; 13; 160]%N ++ str "c ")
     = str "abc"
  /\ bigramsOf (str "aaab") = {[+ str "aa"; str "aa"; str "ab" +]}
  /\ compareTwoStringsUsingDiceCoefficient [] [] = 1%Q
  /\ compareTwoStringsUsingDiceCoefficient (str " ") [] = 1%Q
  /\ compareTwoStringsUsingDiceCoefficient
       (str " he llo" ++ [ascii_of_N 9; ascii_of_N 10]) (str "hello")
     = 1%Q
  /\ compareTwoStringsUsingDiceCoefficient (str "a b") (str "ab") = 1%Q
  /\ compareTwoStringsUsingDiceCoefficient (str "a ") (str "b") = 0%Q
  /\ compareTwoStringsUsingDiceCoefficient (str "hello") [] = 0%Q
  /\ (compareTwoStringsUsingDiceCoefficient (str "hello") (str "helo") == 6 # 7)%Q
  /\ (0 < compareTwoStringsUsingDiceCoefficient (str "hello") (str "helo") < 1)%Q
  /\ (compareTwoStringsUsingDiceCoefficient (str "h e l l o") (str "he lo")
      == 6 # 7)%Q
  /\ (compareTwoStringsUsingDiceCoefficient (str "aaa") (str "aaaa") == 4 # 5)%Q
  /\ (compareTwoStringsUsingDiceCoefficient (str "aaaa") (str "aaa") == 4 # 5)%Q.
Proof.
  intros f s score.
  assert (score = diceCoefficient first second) as Hscore
    by apply compare_diceCoefficient.
  split; [|split; [|split; [|split; [exact Hscore|split]]]].
  - intros Hfs. rewrite Hscore. unfold diceCoefficient. fold f s.
    by rewrite bool_decide_eq_true_2.
  - intros Hfs Hshort. rewrite Hscore. unfold diceCoefficient. fold f s.
    rewrite bool_decide_eq_false_2 by done.
    by rewrite bool_decide_eq_true_2.
  - intros Hfs Hf Hs. rewrite Hscore. unfold diceCoefficient. fold f s.
    rewrite bool_decide_eq_false_2 by done.
    by rewrite bool_decide_eq_false_2 by lia.
  - rewrite Hscore. apply diceCoefficient_bounds.
  - split; [vm_compute; reflexivity|].
    split.
    { unfold bigramsOf. cbn. multiset_solver. }
    repeat split; vm_compute; reflexivity.
Qed.

(** [he llo] with white space against [hello]: the stripped inputs are the
    same, and the score is 1. *)
Lemma dice_coefficient_rules_witness :
  compareTwoStringsUsingDiceCoefficient
    (str " he llo" ++ [ascii_of_N 9; ascii_of_N 10]) (str "hello")
  = 1%Q
  /\ compareTwoStringsUsingDiceCoefficient (str "a ") (str "b") = 0%Q.
Proof.
  split.
  - apply (proj1 (dice_coefficient_rules
                    (str " he llo" ++ [ascii_of_N 9; ascii_of_N 10])
                    (str "hello"))).
    reflexivity.
  - apply (proj1 (proj2 (dice_coefficient_rules (str "a ") (str "b")))).
    + discriminate.
    + left. simpl. lia.
Defined.

(** ** Properties of the Transcript Combiner *)

Lemma join_app ws vs :
  ws <> [] -> vs <> [] ->
  join (str " ") (ws ++ vs) = join (str " ") ws ++ str " " ++ join (str " ") vs.
Proof.
  intros Hw Hv. induction ws as [|w ws IH]; [done|].
  destruct ws as [|u us].
  - destruct vs; [done|reflexivity].
  - change (join (str " ") ((w :: u :: us) ++ vs))
      with (w ++ str " " ++ join (str " ") ((u :: us) ++ vs)).
    rewrite IH by done.
    change (join (str " ") (w :: u :: us))
      with (w ++ str " " ++ join (str " ") (u :: us)).
    by rewrite <- !app_assoc.
Qed.

Lemma filterWords_app prev ws vs :
  filterWords prev (ws ++ vs)
  = filterWords prev ws ++ filterWords (lastOr prev ws) vs.
Proof.
  revert prev; induction ws as [|w ws IH]; intros prev; [done|].
  simpl. by rewrite IH, <- app_assoc.
Qed.

Lemma trimEnd_space s : trimEnd (s ++ str " ") = trimEnd s.
Proof.
  unfold str. simpl. induction s as [|c s IH]; [done|]. simpl. by rewrite IH.
Qed.

Lemma removeDuplicateWords_join ws :
  Forall isWord ws ->
  removeDuplicateWords (join (str " ") ws) = join (str " ") (filterWords None ws).
Proof.
  intros H. by rewrite removeDuplicateWords_words, words_join.
Qed.

Lemma trim_join ws :
  Forall isWord ws -> trim (join (str " ") ws) = join (str " ") ws.
Proof.
  intros H. destruct ws as [|w ws]; [done|].
  destruct (join_shape (w :: ws) ltac:(done) H). by apply trim_id.
Qed.

(** Combining two transcripts that are words joined by single spaces. *)
Lemma concatTranscripts_joined ws vs :
  Forall isWord ws -> Forall isWord vs ->
  concatTranscripts [join (str " ") ws; join (str " ") vs]
  = join (str " ") (filterWords None (ws ++ vs)).
Proof.
  intros Hw Hv. unfold concatTranscripts.
  cbn [map]. rewrite (trim_join ws), (trim_join vs) by done.
  change (join (str " ") [join (str " ") ws; join (str " ") vs])
    with (join (str " ") ws ++ str " " ++ join (str " ") vs).
  destruct ws as [|w ws], vs as [|v vs].
  - reflexivity.
  - change (join (str " ") [] ++ str " " ++ ?s) with (" "%char :: s).
    change (trim (" "%char :: ?s)) with (trim s).
    rewrite trim_join by done. by apply removeDuplicateWords_join.
  - change (join (str " ") []) with (@nil ascii). rewrite !app_nil_r.
    assert (Ht : trim (join (str " ") (w :: ws) ++ str " ")
                 = join (str " ") (w :: ws)).
    { destruct (join_shape (w :: ws) ltac:(done) Hw) as [Hs He].
      unfold trim. rewrite trimStart_id.
      - rewrite trimEnd_space. by apply trimEnd_id.
      - destruct (join (str " ") (w :: ws)); [done|exact Hs]. }
    rewrite Ht. by apply removeDuplicateWords_join.
  - rewrite <- join_app by done.
    assert (Hall : Forall isWord ((w :: ws) ++ v :: vs))
      by (by apply Forall_app).
    rewrite trim_join by done. by apply removeDuplicateWords_join.
Qed.

(** A transcript is normalized when the Normalizer leaves it as it is. *)
Lemma normalized_joined s :
  removeDuplicateWords s = s ->
  exists ws, Forall isWord ws /\ filterWords None ws = ws
             /\ s = join (str " ") ws /\ words s = ws.
Proof.
  intros H. exists (filterWords None (words s)).
  split; [apply filterWords_words, words_are_words|].
  split; [apply filterWords_idem|].
  split; [by rewrite <- removeDuplicateWords_words|].
  rewrite <- H at 1. apply words_removeDuplicateWords.
Qed.

(** Appending to a normalized transcript keeps its words in front. *)
Lemma concatTranscripts_normalized f n :
  removeDuplicateWords f = f -> removeDuplicateWords n = n ->
  removeDuplicateWords (concatTranscripts [f; n]) = concatTranscripts [f; n]
  /\ words (concatTranscripts [f; n])
     = words f ++ filterWords (lastOr None (words f)) (words n).
Proof.
  intros Hf Hn. split; [apply removeDuplicateWords_idem|].
  destruct (normalized_joined f Hf) as (ws & Hws & Hfix & -> & Hwf).
  destruct (normalized_joined n Hn) as (vs & Hvs & _ & -> & Hwn).
  rewrite concatTranscripts_joined by done. rewrite Hwf, Hwn.
  rewrite words_join by (apply filterWords_words; by apply Forall_app).
  by rewrite filterWords_app, Hfix.
Qed.



(** ** The Text Normalizer and white space *)





(** ** Properties of the Transcript State Machine *)

Ltac run_method :=
  unfold mbind, method_bind, mret, method_ret, this, assign, perform, when,
    stateAfter, effectsOf, resultOf in *; simpl in *.

(** What one result event does to the manager, in closed form. *)
Lemma updateTranscript_run event m :
  updateTranscript event m =
    (tt,
     setPreviousResultWasFinalOnly (finalOnlyBatch event)
       (setFinalTranscriptState
          (if jeqb (batchFinal event) [] then finalTranscriptState m
           else concatTranscripts [finalTranscriptState m; batchFinal event])
          (setInterimTranscript (batchInterim event) m)),
     if previousResultWasFinalOnly m && finalOnlyBatch event then []
     else map (fun id =>
                 Notify id
                   (TranscriptChange (batchInterim event)
                      (if jeqb (batchFinal event) []
                       then finalTranscriptState m
                       else concatTranscripts
                              [finalTranscriptState m; batchFinal event])))
            (transcriptSubscribers m)).
Proof.
  unfold updateTranscript, updateFinalTranscript, emitTranscriptChange,
    notifySubscribers, finalOnlyBatch, batchFinal, batchInterim,
    transcriptSubscribers.
  destruct (parseResultsToTranscript (results event) (resultIndex event))
    as [interim final].
  destruct m as [rec pause i0 f0 lis mic subs osl prev].
  run_method.
  destruct (jeqb final []); simpl;
    destruct (prev && finalOnly (results event) interim); simpl;
    rewrite ?app_nil_r, ?map_map; reflexivity.
Qed.

Lemma transcriptChanges_notify (ids : list jstring) i f :
  transcriptChanges (map (fun id => Notify id (TranscriptChange i f)) ids)
  = map (fun id => (id, i, f)) ids.
Proof.
  induction ids as [|id ids IH]; [done|].
  unfold transcriptChanges in *. simpl. by f_equal.
Qed.

(** A batch is final-only exactly when it is one result and that result is
    final: such a batch never has interim text. *)
Lemma finalOnlyBatch_shape event :
  finalOnlyBatch event
  = match results event with
    | [r] => isFinal r
    | _ => false
    end.
Proof.
  unfold finalOnlyBatch, finalOnly, parseResultsToTranscript.
  destruct (results event) as [|r [|r' rs]]; [done| |done].
  simpl. destruct (isFinal r) eqn:E; [|done].
  destruct (resultIndex event); simpl.
  - unfold accumulateResult. rewrite E. reflexivity.
  - rewrite drop_nil. reflexivity.
Qed.

Lemma batchFinal_normalized event :
  removeDuplicateWords (batchFinal event) = batchFinal event.
Proof. apply removeDuplicateWords_idem. Qed.

Lemma updateTranscript_normalized event m :
  removeDuplicateWords (finalTranscriptState m) = finalTranscriptState m ->
  removeDuplicateWords (finalTranscriptState (stateAfter (updateTranscript event m)))
  = finalTranscriptState (stateAfter (updateTranscript event m)).
Proof.
  intros H. rewrite updateTranscript_run. unfold stateAfter. simpl.
  destruct (jeqb (batchFinal event) []); [exact H|].
  apply removeDuplicateWords_idem.
Qed.

Lemma updateAll_normalized events m :
  removeDuplicateWords (finalTranscriptState m) = finalTranscriptState m ->
  removeDuplicateWords (finalTranscriptState (updateAll events m))
  = finalTranscriptState (updateAll events m).
Proof.
  revert m. induction events as [|e events IH]; intros m H; [exact H|].
  apply IH. by apply updateTranscript_normalized.
Qed.

(** One update of a manager whose final transcript is normalized. *)
Lemma updateTranscript_appends event m :
  removeDuplicateWords (finalTranscriptState m) = finalTranscriptState m ->
  let m' := stateAfter (updateTranscript event m) in
  words (finalTranscriptState m') =
    words (finalTranscriptState m)
    ++ filterWords (lastOr None (words (finalTranscriptState m)))
         (words (batchFinal event)).
Proof.
  intros H. rewrite updateTranscript_run. unfold stateAfter. simpl.
  destruct (jeqb (batchFinal event) []) eqn:E.
  - unfold jeqb in E. apply bool_decide_eq_true in E. rewrite E.
    change (words []) with (@nil jstring). simpl. by rewrite app_nil_r.
  - apply concatTranscripts_normalized; [exact H|apply batchFinal_normalized].
Qed.

(** Every call other than a result event leaves the final transcript as it
    is or clears it. *)
Lemma call_final c m :
  (forall event, c <> OnResult event) ->
  finalTranscriptState (stateAfter (call c m)) = finalTranscriptState m
  \/ finalTranscriptState (stateAfter (call c m)) = [].
Proof.
  intros Hc.
  destruct m as [rec pause i0 f0 lis mic subs osl prev].
  destruct c as [id cbs|id|nc lg o| | | |event|o|na|sup];
    try (by destruct (Hc event));
    unfold call, setSpeechRecognition,
      emitBrowserSupportsSpeechRecognitionChange, subscribe, unsubscribe,
      startListening, stopListening,
      abortListening, resetTranscript, onRecognitionDisconnect, onError,
      disableRecognition, stopListening, disconnect, stop, abort, start,
      waitIfListening, emitListeningChange, emitMicrophoneAvailabilityChange,
      emitClearTranscript, resetTranscriptState, notifySubscribers,
      handlersAttached, hasRecognition, recognitionContinuous;
    run_method.
  all: try destruct rec as [[rc rl rh]|]; simpl.
  all: try destruct lis; simpl.
  all: try destruct rh; simpl.
  all: try destruct pause; simpl.
  all: try destruct rc; simpl.
  all: try destruct na; simpl.
  all: try destruct nc; simpl.
  all: try destruct (isLanguageChanged lg _); simpl.
  all: try destruct o; simpl.
  all: try destruct sup; simpl.
  all: auto.
Qed.

(** The final transcript of a manager is always normalized. *)
Lemma reachable_normalized m :
  reachable m ->
  removeDuplicateWords (finalTranscriptState m) = finalTranscriptState m.
Proof.
  induction 1 as [supported subs|c m Hm IH]; [reflexivity|].
  destruct c as [id cbs|id|nc lg o| | | |event|o|na|sup].
  7: { simpl. unfold stateAfter, mbind, method_bind, this, when. simpl.
       destruct (handlersAttached m); [|exact IH].
       pose proof (updateTranscript_normalized event m IH) as H.
       unfold stateAfter in H.
       destruct (updateTranscript event m) as [[u m'] out]. exact H. }
  all: match goal with |- context [call ?c ?x] =>
         destruct (call_final c x ltac:(done)) as [-> | ->];
         [exact IH|reflexivity]
       end.
Qed.

Lemma join_prefix ws vs :
  join (str " ") ws `prefix_of` join (str " ") (ws ++ vs).
Proof.
  destruct ws as [|w ws]; [apply prefix_nil|].
  destruct vs as [|v vs]; [by rewrite app_nil_r|].
  rewrite join_app by done. by eexists.
Qed.

(** Along a run of result events, the words of the final transcript stay
    in front. *)
Lemma updateAll_prefix events m :
  removeDuplicateWords (finalTranscriptState m) = finalTranscriptState m ->
  words (finalTranscriptState m)
    `prefix_of` words (finalTranscriptState (updateAll events m)).
Proof.
  revert m. induction events as [|e events IH]; intros m Hn; [done|].
  change (updateAll (e :: events) m)
    with (updateAll events (stateAfter (updateTranscript e m))).
  trans (words (finalTranscriptState (stateAfter (updateTranscript e m)))).
  - rewrite (updateTranscript_appends e m Hn). by eexists.
  - apply IH. by apply updateTranscript_normalized.
Qed.

(** C4.  Along the result events that a manager handles, the accumulated
    final transcript never shrinks.  For every state [m] that a manager can
    be in and every result event: the words of the final transcript before
    the event are a prefix of its words after it, and so is the text; a new
    final fragment that is not empty is appended through
    [concatTranscripts], an empty one leaves the final transcript as it is;
    and the interim transcript is replaced by the interim text of the
    event.  So the words of the final transcript are a prefix of its words
    after any run of result events. *)
Theorem final_transcript_never_shrinks
    (m : RecognitionManager) (event : SpeechRecognitionEvent) :
  reachable m ->
  let m' := stateAfter (updateTranscript event m) in
  words (finalTranscriptState m) `prefix_of` words (finalTranscriptState m')
  /\ finalTranscriptState m `prefix_of` finalTranscriptState m'
  /\ finalTranscriptState m' =
       (if jeqb (batchFinal event) [] then finalTranscriptState m
        else concatTranscripts [finalTranscriptState m; batchFinal event])
  /\ interimTranscript m' = batchInterim event
  /\ (forall events : list SpeechRecognitionEvent,
         words (finalTranscriptState m)
           `prefix_of` words (finalTranscriptState (updateAll events m))).
Proof.
  intros Hm m'. pose proof (reachable_normalized m Hm) as Hn.
  pose proof (updateTranscript_appends event m Hn) as Hw.
  pose proof (updateTranscript_normalized event m Hn) as Hn'.
  fold m' in Hw, Hn'.
  assert (Hp : words (finalTranscriptState m)
               `prefix_of` words (finalTranscriptState m'))
    by (rewrite Hw; by eexists).
  split; [exact Hp|]. split.
  - destruct (normalized_joined _ Hn) as (ws & _ & _ & Hj & Hws).
    destruct (normalized_joined _ Hn') as (vs & _ & _ & Hj' & Hvs).
    rewrite Hj, Hj'. rewrite Hws, Hvs in Hp. destruct Hp as [k ->].
    apply join_prefix.
  - subst m'. rewrite updateTranscript_run. unfold stateAfter. simpl.
    split; [done|]. split; [done|]. intros events. by apply updateAll_prefix.
Qed.

(** After the batch [hello] on a fresh manager, the batch [world]. *)
Lemma final_transcript_never_shrinks_witness :
  words (str "hello") `prefix_of` words (str "hello world")
  /\ str "hello" `prefix_of` str "hello world".
Proof.
  pose proof (final_transcript_never_shrinks
                (stateAfter (call (OnResult (finalBatch "hello"))
                               managerWithOneSubscriber))
                (finalBatch "world")
                (reachable_call _ _ (reachable_new true _))) as H.
  destruct H as (H1 & H2 & _). split; [exact H1|exact H2].
Defined.

(** C3, as the specification states it, fails: two final-only batches
    with the same content that follow a final-only batch call no
    transcript-changed callback at all.  After the batch [hello], the
    batches [hello] and [hello] again are both suppressed. *)
Lemma identical_batches_after_a_final_batch_notify_nobody :
  ~ twoBatchesNotifyOnce
      (stateAfter (call (OnResult (finalBatch "hello"))
                     managerWithOneSubscriber))
      (finalBatch "hello").
Proof.
  unfold twoBatchesNotifyOnce. intros H. specialize (H eq_refl).
  vm_compute in H. discriminate.
Qed.

(** C3, amended.  The transcript-changed notification of a result event is
    suppressed exactly when the batch handled before it and its own batch
    are each one final result without interim text; the manager keeps the
    shape of the batch handled last in [previousResultWasFinalOnly], false
    at first, and the contents of the batches are not compared.  For two
    result events in a row: the first calls no transcript-changed callback
    when the flag is set and its batch has that shape, the second when both
    batches have that shape, and otherwise the callback of every subscriber
    is called once, with the transcripts after the event.  So the second of
    two final-only batches in a row is always suppressed, and the two
    together call every transcript-changed callback exactly once when the
    batch handled before them was not of that shape, and not at all when it
    was.  A batch has that shape, [finalOnlyBatch], exactly when its results
    are one result and that result is final. *)
Theorem duplicate_batch_suppression
    (m : RecognitionManager) (e1 e2 : SpeechRecognitionEvent) :
  let first := updateTranscript e1 m in
  let second := updateTranscript e2 (stateAfter first) in
  finalOnlyBatch e2 = match results e2 with [r] => isFinal r | _ => false end
  /\ previousResultWasFinalOnly (stateAfter first) = finalOnlyBatch e1
  /\ (forall supported subscribers,
         previousResultWasFinalOnly (newManager supported subscribers) = false)
  /\ transcriptChanges (effectsOf first) =
    (if previousResultWasFinalOnly m && finalOnlyBatch e1 then []
     else map (fun id => (id, interimTranscript (stateAfter first),
                          finalTranscriptState (stateAfter first)))
            (transcriptSubscribers m))
  /\ transcriptChanges (effectsOf second) =
    (if finalOnlyBatch e1 && finalOnlyBatch e2 then []
     else map (fun id => (id, interimTranscript (stateAfter second),
                          finalTranscriptState (stateAfter second)))
            (transcriptSubscribers m))
  /\ (finalOnlyBatch e1 = true -> finalOnlyBatch e2 = true ->
      transcriptChanges (effectsOf first ++ effectsOf second) =
        if previousResultWasFinalOnly m then []
        else map (fun id => (id, [], finalTranscriptState (stateAfter first)))
               (transcriptSubscribers m)).
Proof.
  intros first second. subst second first.
  split; [apply finalOnlyBatch_shape|].
  rewrite !updateTranscript_run. unfold stateAfter, effectsOf. simpl.
  split; [reflexivity|]. split; [reflexivity|]. split; [|split].
  - destruct (previousResultWasFinalOnly m && finalOnlyBatch e1); [done|].
    apply transcriptChanges_notify.
  - destruct (finalOnlyBatch e1 && finalOnlyBatch e2); [done|].
    apply transcriptChanges_notify.
  - intros H1 H2. rewrite H1, H2. simpl. rewrite app_nil_r.
    destruct (previousResultWasFinalOnly m); [done|]. simpl.
    rewrite transcriptChanges_notify.
    assert (Hi : batchInterim e1 = []).
    { unfold finalOnlyBatch, finalOnly in H1. fold (batchInterim e1) in H1.
      apply andb_true_iff in H1 as [_ H1]. unfold jeqb in H1.
      by apply bool_decide_eq_true in H1. }
    by rewrite Hi.
Qed.

(** The batch [hello] twice on a fresh manager: one call of the callback;
    and twice more: no call. *)
Lemma duplicate_batch_suppression_witness :
  transcriptChanges
    (effectsOf (updateTranscript (finalBatch "hello") managerWithOneSubscriber)
     ++ effectsOf
          (updateTranscript (finalBatch "hello")
             (stateAfter
                (updateTranscript (finalBatch "hello")
                   managerWithOneSubscriber))))
  = [(str "0", [], str "hello")]
  /\ (let m := stateAfter (updateTranscript (finalBatch "hello")
                             managerWithOneSubscriber) in
      transcriptChanges
        (effectsOf (updateTranscript (finalBatch "hello") m)
         ++ effectsOf
              (updateTranscript (finalBatch "hello")
                 (stateAfter (updateTranscript (finalBatch "hello") m))))
      = []).
Proof.
  split.
  - exact (proj2 (proj2 (proj2 (proj2 (proj2
             (duplicate_batch_suppression managerWithOneSubscriber
                (finalBatch "hello") (finalBatch "hello"))))))
             eq_refl eq_refl).
  - exact (proj2 (proj2 (proj2 (proj2 (proj2
             (duplicate_batch_suppression
                (stateAfter (updateTranscript (finalBatch "hello")
                               managerWithOneSubscriber))
                (finalBatch "hello") (finalBatch "hello"))))))
             eq_refl eq_refl).
Defined.




(** ** Properties of the Session Orchestrator *)

Ltac unfold_methods :=
  unfold call, setSpeechRecognition,
    emitBrowserSupportsSpeechRecognitionChange, subscribe, unsubscribe,
    startListening, stopListening,
    abortListening, resetTranscript, onRecognitionDisconnect, onError,
    disableRecognition, stopListening, disconnect, stop, abort, start,
    waitIfListening, emitListeningChange, emitMicrophoneAvailabilityChange,
    emitClearTranscript, resetTranscriptState, notifySubscribers,
    handlersAttached, hasRecognition, recognitionContinuous, subscribersWith
    in *.

(** C2.  [stopListening] calls the subscribers with listening = false, and
    then settles at once in every state: [disconnect] and
    [emitListeningChange] have cleared [this.listening] before the test
    [if (this.listening)] that guards the wait, so the promise that the end
    event or the timer of 100 ms would resolve is never created.  On a
    manager that listens after a successful [startListening], the call
    stops the recognizer, notifies, and does not wait.  [abortListening]
    settles at once in the same way. *)
Theorem stopListening_settles_at_once :
  (forall m : RecognitionManager,
      resultOf (stopListening m) = SettlesAtOnce
      /\ onStopListening (stateAfter (stopListening m)) = onStopListening m
      /\ listening (stateAfter (stopListening m)) = false
      /\ resultOf (abortListening m) = SettlesAtOnce)
  /\ (let m := stateAfter (startListening false None Starts
                              managerWithOneSubscriber) in
      listening m = true
      /\ stopListening m
         = (SettlesAtOnce,
            setPauseAfterDisconnect true managerWithOneSubscriber,
            [RecognizerStop; Notify (str "0") (ListeningChange false)])).
Proof.
  split; [|split; reflexivity].
  intros [rec pause i0 f0 lis mic subs osl prev].
  unfold_methods. run_method.
  destruct rec, lis; simpl; done.
Qed.

(** C9, as the specification states it, fails: a start failure that is not
    a redundant start does not disable further attempts.  On a fresh
    manager, after [startListening] met such a failure, the same
    [startListening] calls the start primitive again. *)
Lemma start_failure_does_not_disable :
  ~ startFailureDisablesAttempts managerWithOneSubscriber false None.
Proof.
  unfold startFailureDisablesAttempts. intros H.
  assert (Hin : RecognizerStart
                ∈ effectsOf (startListening false None ThrowsOther
                               managerWithOneSubscriber))
    by (vm_compute; apply list_elem_of_In; simpl; tauto).
  apply (H Hin Starts). vm_compute. apply list_elem_of_In. simpl. tauto.
Qed.

(** [startListening] on a manager that is not listening, in closed form. *)
Lemma startListening_run m r newContinuous language o :
  recognition m = Some r ->
  listening m = false ->
  startListening newContinuous language o m =
    (tt,
     match o with
     | Starts => setListening true (readyToStart newContinuous language r m)
     | ThrowsDOMException => readyToStart newContinuous language r m
     | ThrowsOther =>
         setIsMicrophoneAvailable false (readyToStart newContinuous language r m)
     end,
     clearedBeforeStart newContinuous language r m ++ [RecognizerStart]
     ++ match o with
        | Starts =>
            map (fun id => Notify id (ListeningChange true))
              (subscribersWith onListeningChange m)
        | ThrowsDOMException => []
        | ThrowsOther =>
            map (fun id => Notify id (MicrophoneAvailabilityChange false))
              (subscribersWith onMicrophoneAvailabilityChange m)
        end).
Proof.
  intros Hr Hl.
  destruct m as [rec pause i0 f0 lis mic subs osl prev].
  simpl in Hr, Hl. subst rec lis. destruct r as [rc rl rh].
  unfold_methods.
  unfold readyToStart, clearedBeforeStart, configured, configure,
    subscribersWith.
  unfold mbind, method_bind, mret, method_ret, this, assign, perform, when.
  cbn -[isLanguageChanged].
  destruct (isLanguageChanged language _);
    destruct newContinuous, rc, o; cbn;
    rewrite ?app_nil_r, ?map_map; reflexivity.
Qed.

Lemma readyToStart_state newContinuous language r m :
  listening m = false ->
  recognition (readyToStart newContinuous language r m)
  = Some (configured newContinuous language r)
  /\ listening (readyToStart newContinuous language r m) = false
  /\ isMicrophoneAvailable (readyToStart newContinuous language r m)
     = isMicrophoneAvailable m.
Proof.
  intros Hl. unfold readyToStart.
  destruct (continuous (configured newContinuous language r)); simpl; done.
Qed.

(** The outcomes of the start primitive, on a manager that is not
    listening. *)
Lemma start_outcomes_when_not_listening
    (m : RecognitionManager) (r : Recognizer)
    (newContinuous : bool) (language : option jstring) :
  recognition m = Some r ->
  listening m = false ->
  let started := startListening newContinuous language Starts m in
  let redundant := startListening newContinuous language ThrowsDOMException m in
  let failed := startListening newContinuous language ThrowsOther m in
  (exists before,
      effectsOf redundant = before ++ [RecognizerStart]
      /\ effectsOf started =
           before ++ [RecognizerStart]
           ++ map (fun id => Notify id (ListeningChange true))
                (subscribersWith onListeningChange m)
      /\ effectsOf failed =
           before ++ [RecognizerStart]
           ++ map (fun id => Notify id (MicrophoneAvailabilityChange false))
                (subscribersWith onMicrophoneAvailabilityChange m))
  /\ listening (stateAfter redundant) = false
  /\ isMicrophoneAvailable (stateAfter redundant) = isMicrophoneAvailable m
  /\ stateAfter started = setListening true (stateAfter redundant)
  /\ stateAfter failed = setIsMicrophoneAvailable false (stateAfter redundant)
  /\ (forall o,
         RecognizerStart
           ∈ effectsOf (startListening newContinuous language o
                          (stateAfter redundant))
         /\ RecognizerStart
              ∈ effectsOf (startListening newContinuous language o
                             (stateAfter failed))).
Proof.
  intros Hr Hl started redundant failed. subst started redundant failed.
  rewrite !(startListening_run m r) by done.
  unfold effectsOf, stateAfter. simpl.
  destruct (readyToStart_state newContinuous language r m Hl)
    as (Hrec & Hlis & Hmic).
  split; [eexists; split; [|split]; reflexivity|].
  split; [exact Hlis|]. split; [exact Hmic|].
  split; [reflexivity|]. split; [reflexivity|].
  intros o. split.
  - rewrite (startListening_run _ _ _ _ _ Hrec Hlis). simpl.
    apply elem_of_app. right. apply list_elem_of_here.
  - rewrite (startListening_run _ (configured newContinuous language r))
      by done.
    simpl. apply elem_of_app. right. apply list_elem_of_here.
Qed.

Lemma startListening_without_recognition m newContinuous language o :
  recognition m = None ->
  startListening newContinuous language o m = (tt, m, []).
Proof. intros H. unfold startListening, mbind, method_bind, this. simpl. by rewrite H. Qed.

(** [startListening] on a manager that is listening: nothing when the
    configuration is the same, and otherwise a stop followed by the
    [startListening] of a manager that is not listening. *)
Lemma startListening_while_listening m r newContinuous language o :
  recognition m = Some r ->
  listening m = true ->
  startListening newContinuous language o m =
    if negb (Bool.eqb newContinuous (continuous r))
       || isLanguageChanged language r
    then
      (tt,
       stateAfter (startListening newContinuous language o
                     (stateAfter (stopListening m))),
       effectsOf (stopListening m)
       ++ effectsOf (startListening newContinuous language o
                       (stateAfter (stopListening m))))
    else (tt, m, []).
Proof.
  intros Hr Hl.
  destruct m as [rec pause i0 f0 lis mic subs osl prev].
  simpl in Hr, Hl. subst rec lis. destruct r as [rc rl rh].
  unfold_methods. unfold configure, stateAfter, effectsOf.
  unfold mbind, method_bind, mret, method_ret, this, assign, perform, when.
  cbn -[isLanguageChanged].
  destruct (isLanguageChanged language _);
    destruct newContinuous, rc, o; cbn;
    rewrite ?app_nil_r, <- ?app_assoc; reflexivity.
Qed.

Lemma stopListening_state m r :
  recognition m = Some r ->
  recognition (stateAfter (stopListening m)) = Some r
  /\ listening (stateAfter (stopListening m)) = false
  /\ isMicrophoneAvailable (stateAfter (stopListening m))
     = isMicrophoneAvailable m
  /\ subscribers (stateAfter (stopListening m)) = subscribers m.
Proof.
  intros Hr. destruct m as [rec pause i0 f0 lis mic subs osl prev].
  simpl in Hr. subst rec. unfold_methods. run_method.
  destruct lis; simpl; done.
Qed.

(** C9, amended.  When [startListening] calls the start primitive, the
    three outcomes of the primitive share everything up to that call.  A
    failure that is a [DOMException] (redundant start) is swallowed:
    nothing follows the call, the manager stays not listening, its
    microphone availability is unchanged, and no callback is called for
    the failure.  Every other failure marks the microphone unavailable and
    calls the microphone-availability callback of every subscriber with
    [false], and changes nothing else.  Neither disables further attempts:
    the same [startListening], called again, calls the start primitive
    again. *)
Theorem start_failure_handling
    (m : RecognitionManager)
    (newContinuous : bool) (language : option jstring) :
  let started := startListening newContinuous language Starts m in
  let redundant := startListening newContinuous language ThrowsDOMException m in
  let failed := startListening newContinuous language ThrowsOther m in
  RecognizerStart ∈ effectsOf redundant ->
  (exists before,
      effectsOf redundant = before ++ [RecognizerStart]
      /\ effectsOf started =
           before ++ [RecognizerStart]
           ++ map (fun id => Notify id (ListeningChange true))
                (subscribersWith onListeningChange m)
      /\ effectsOf failed =
           before ++ [RecognizerStart]
           ++ map (fun id => Notify id (MicrophoneAvailabilityChange false))
                (subscribersWith onMicrophoneAvailabilityChange m))
  /\ listening (stateAfter redundant) = false
  /\ isMicrophoneAvailable (stateAfter redundant) = isMicrophoneAvailable m
  /\ stateAfter started = setListening true (stateAfter redundant)
  /\ stateAfter failed = setIsMicrophoneAvailable false (stateAfter redundant)
  /\ (forall o,
         RecognizerStart
           ∈ effectsOf (startListening newContinuous language o
                          (stateAfter redundant))
         /\ RecognizerStart
              ∈ effectsOf (startListening newContinuous language o
                             (stateAfter failed))).
Proof.
  intros started redundant failed. subst started redundant failed.
  destruct (recognition m) as [r|] eqn:Hr.
  2: { rewrite startListening_without_recognition by done.
       intros H. by apply elem_of_nil in H. }
  destruct (listening m) eqn:Hl.
  2: { intros _. by apply (start_outcomes_when_not_listening m r). }
  rewrite !(startListening_while_listening m r) by done.
  destruct (negb (eqb newContinuous (continuous r))
            || isLanguageChanged language r).
  2: { intros H. by apply elem_of_nil in H. }
  intros _.
  destruct (stopListening_state m r Hr) as (Hr' & Hl' & Hmic & Hsubs).
  pose proof (start_outcomes_when_not_listening
                (stateAfter (stopListening m)) r newContinuous language
                Hr' Hl') as H.
  cbv zeta in H.
  destruct H as ((before & E1 & E2 & E3) & H2 & H3 & H4 & H5 & H6).
  unfold subscribersWith in *. rewrite Hsubs in E2, E3. rewrite Hmic in H3.
  change (effectsOf (?u, ?st, ?out)) with out.
  change (stateAfter (?u, ?st, ?out)) with st.
  split.
  { exists (effectsOf (stopListening m) ++ before).
    rewrite E1, E2, E3. rewrite <- !app_assoc. done. }
  done.
Qed.

(** The two failures on a fresh manager. *)
Lemma start_failure_handling_witness :
  effectsOf (startListening false None ThrowsDOMException
               managerWithOneSubscriber)
  = [Notify (str "0") ClearTranscript; RecognizerStart]
  /\ stateAfter (startListening false None ThrowsOther managerWithOneSubscriber)
     = setIsMicrophoneAvailable false managerWithOneSubscriber.
Proof.
  assert (Hin : RecognizerStart
                ∈ effectsOf (startListening false None ThrowsDOMException
                               managerWithOneSubscriber))
    by (vm_compute; apply list_elem_of_In; simpl; tauto).
  destruct (start_failure_handling managerWithOneSubscriber false None Hin)
    as (_ & _ & _ & _ & H & _).
  split; [reflexivity|exact H].
Defined.

(** ** Properties of the Command Pattern Compiler *)

Lemma sameChar_refl ic c : sameChar ic c c = true.
Proof. unfold sameChar. destruct ic; by apply bool_decide_eq_true_2. Qed.

Lemma orElse_none x : orElse x (fun _ => None) = x.
Proof. by destruct x. Qed.

(** A pattern that starts with [^] matches at index 0 only. *)
Lemma execFrom_anchored re r i s :
  pattern re = RSeq RBegin r -> execFrom re (S i) s = None.
Proof.
  intros H. revert i. induction s as [|c s IH]; intros i; simpl;
    rewrite H; simpl; [done|apply IH].
Qed.

Lemma exec_anchored re r s :
  pattern re = RSeq RBegin r ->
  exec re s
  = matchFrom (ignoreCase re) r 0 s (replicate (groupCount re) None)
      (fun _ _ caps => Some caps).
Proof.
  intros H. unfold exec. destruct s as [|c s]; simpl; rewrite H; simpl.
  - apply orElse_none.
  - rewrite (execFrom_anchored re r 0 s H). apply orElse_none.
Qed.

(** A quantified pattern that matches one character, the characters that
    satisfy [p], in front of a continuation that wants the end of the
    input: it matches when all the characters that are left satisfy [p],
    greedy or not. *)
Lemma repeatMatcher_to_end
    (m : nat -> jstring -> Captures -> Continuation -> option Captures)
    (p : ascii -> bool) greedy (k : Continuation) :
  (forall i caps k', m i [] caps k' = None) ->
  (forall i x s caps k',
      m i (x :: s) caps k' = if p x then k' (S i) s caps else None) ->
  (forall i x s caps, k i (x :: s) caps = None) ->
  forall s turns i caps,
    length s <= turns ->
    repeatMatcher m [] greedy k turns i s caps
    = if forallb p s then k (i + length s) [] caps else None.
Proof.
  intros Hnil Hcons Hk.
  induction s as [|x s IH]; intros turns i caps Hlen.
  - rewrite Nat.add_0_r. destruct turns; simpl; rewrite ?Hnil;
      destruct greedy; simpl; by rewrite ?orElse_none.
  - destruct turns as [|turns]; [simpl in Hlen; lia|].
    simpl in Hlen. cbn [repeatMatcher clearGroups foldr forallb].
    rewrite Hcons, Hk.
    replace (S i =? i) with false by (symmetry; apply Nat.eqb_neq; lia).
    destruct (p x); simpl.
    + rewrite IH by lia. replace (S i + length s) with (i + S (length s)) by lia.
      destruct greedy; simpl; by rewrite ?orElse_none.
    + by destruct greedy.
Qed.

(** *** The bounds on the number of turns are enough *)

Lemma replaceLoop_enough matchAt :
  consuming matchAt ->
  forall n s turns,
    length s <= n -> length s <= turns ->
    replaceLoop matchAt turns s = replaceLoop matchAt n s.
Proof.
  intros Hc. induction n as [|n IH]; intros s turns Hn Ht.
  - destruct s; [|simpl in Hn; lia]. by destruct turns.
  - destruct s as [|c s]; [by destruct turns|].
    destruct turns as [|turns]; [simpl in Ht; lia|]. simpl in *.
    destruct (matchAt (c :: s)) as [[replacement rest]|] eqn:E.
    + apply Hc in E. simpl in E. f_equal. apply IH; lia.
    + f_equal. apply IH; lia.
Qed.

Lemma length_trimStart s : length (trimStart s) <= length s.
Proof.
  induction s as [|c s IH]; [done|]. simpl. destruct (isSpace c); simpl; lia.
Qed.

Lemma length_span p s : length (span p s).2 <= length s.
Proof.
  induction s as [|c s IH]; [done|]. simpl. destruct (p c); simpl; lia.
Qed.

Lemma length_lazyUntilClose s captured rest :
  lazyUntilClose s = Some (captured, rest) -> length rest < length s.
Proof.
  revert captured. induction s as [|c s IH]; intros captured; [done|]. simpl.
  destruct (isChar c ")"); [intros [= _ <-]; lia|].
  destruct (isLineTerminator c); [done|].
  destruct (lazyUntilClose s) as [[cap r]|]; [|done].
  intros [= _ <-]. specialize (IH cap eq_refl). lia.
Qed.

Lemma length_startsWith prefix s rest :
  startsWith prefix s = Some rest ->
  length rest + length (str prefix) = length s.
Proof.
  unfold startsWith. destruct (bool_decide _) eqn:E; [|done].
  apply bool_decide_eq_true in E. intros [= <-].
  rewrite <- (take_drop (length (str prefix)) s) at 2.
  rewrite length_app, E. lia.
Qed.

(** The five replacements of [commandToRegExp] consume input, so that their
    scans are complete. *)
Lemma replacements_consuming :
  consuming matchEscapeRegExp /\ consuming matchOptionalParam
  /\ consuming matchNamedParam /\ consuming matchSplatParam
  /\ consuming matchOptionalRegex.
Proof.
  repeat split; intros s replacement rest.
  - destruct s as [|c s]; simpl; [done|].
    destruct (isChar c _); [|done]. intros [= _ <-]. lia.
  - unfold matchOptionalParam. pose proof (length_trimStart s) as Hs.
    destruct (trimStart s) as [|c s1]; [done|].
    destruct (isChar c "("); [|done].
    destruct (lazyUntilClose s1) as [[captured r]|] eqn:E; [|done].
    apply length_lazyUntilClose in E. intros [= _ <-].
    pose proof (length_trimStart r). simpl in Hs. lia.
  - unfold matchNamedParam.
    destruct (startsWith "(?:" s) as [s1|] eqn:E1.
    + apply length_startsWith in E1. pose proof (length_span isWordChar s1).
      destruct (jeqb _ _); [done|]. intros [= _ <-]. simpl in E1. lia.
    + destruct (startsWith ":" s) as [s1|] eqn:E2; [|done].
      apply length_startsWith in E2. pose proof (length_span isWordChar s1).
      destruct (jeqb _ _); [done|]. intros [= _ <-]. simpl in E2. lia.
  - destruct s as [|c s]; simpl; [done|].
    destruct (isChar c _); [|done]. intros [= _ <-]. lia.
  - unfold matchOptionalRegex.
    destruct (startsWith "(?:" s) as [s1|] eqn:E1; [|done].
    apply length_startsWith in E1.
    pose proof (length_span (fun c => negb (isChar c ")")) s1) as Hsp.
    destruct (jeqb _ _); [done|].
    destruct (startsWith ")?" _) as [r|] eqn:E2; [|done].
    apply length_startsWith in E2. intros [= _ <-]. simpl in E1, E2. lia.
Qed.

Lemma agreeAfter_later i s i' s' k1 k2 :
  agreeAfter i s k1 k2 -> i <= i' -> i' + length s' = i + length s ->
  agreeAfter i' s' k1 k2.
Proof. intros H Hi Hd j t caps Hj Ht. apply H; lia. Qed.

Lemma repeatMatcher_ext m inner greedy k1 k2 :
  wellBehaved m ->
  forall turns i s caps,
    agreeAfter i s k1 k2 ->
    repeatMatcher m inner greedy k1 turns i s caps
    = repeatMatcher m inner greedy k2 turns i s caps.
Proof.
  intros [Hext _]. induction turns as [|turns IH]; intros i s caps Hk.
  - simpl. rewrite (Hk i s caps) by lia. reflexivity.
  - cbn [repeatMatcher]. rewrite (Hk i s caps) by lia.
    rewrite (Hext i s _ _
               (fun i' s' caps' =>
                  if i' =? i then None
                  else repeatMatcher m inner greedy k2 turns i' s' caps'));
      [reflexivity|].
    intros i' s' caps' Hi Hd. destruct (i' =? i); [done|].
    apply IH. by apply (agreeAfter_later i s).
Qed.

Lemma repeatMatcher_fail m inner greedy :
  wellBehaved m ->
  forall turns i s caps,
    repeatMatcher m inner greedy (fun _ _ _ => None) turns i s caps = None.
Proof.
  intros [Hext Hfail]. induction turns as [|turns IH]; intros i s caps.
  - simpl. by destruct greedy.
  - cbn [repeatMatcher].
    rewrite (Hext i s _ _ (fun _ _ _ => None)).
    + rewrite Hfail. by destruct greedy.
    + intros i' s' caps' _ _. destruct (i' =? i); [done|apply IH].
Qed.

(** The matcher of a pattern only uses its continuation on rests of its
    input, and fails when its continuation always fails. *)
Lemma matchFrom_wellBehaved ic r : wellBehaved (matchFrom ic r).
Proof.
  induction r as [|c| |negated atoms| | |r1 [E1 F1] r2 [E2 F2]
                 |r1 [E1 F1] r2 [E2 F2]|index r [E F]|q greedy r IH];
    split; try (intros i s caps k1 k2 Hk); try (intros i s caps);
    cbn [matchFrom].
  - apply Hk; lia.
  - reflexivity.
  - destruct s as [|x s]; [done|].
    destruct (sameChar ic c x); [|done]. apply Hk; simpl; lia.
  - destruct s as [|x s]; [done|]. by destruct (sameChar ic c x).
  - destruct s as [|x s]; [done|].
    destruct (isLineTerminator x); [done|]. apply Hk; simpl; lia.
  - destruct s as [|x s]; [done|]. by destruct (isLineTerminator x).
  - destruct s as [|x s]; [done|].
    destruct (xorb negated _); [|done]. apply Hk; simpl; lia.
  - destruct s as [|x s]; [done|]. by destruct (xorb negated _).
  - destruct (i =? 0); [|done]. apply Hk; lia.
  - by destruct (i =? 0).
  - destruct s; [|done]. apply Hk; lia.
  - by destruct s.
  - apply E1. intros i' s' caps' Hi Hd. apply E2.
    by apply (agreeAfter_later i s).
  - rewrite (E1 i s caps _ (fun _ _ _ => None)); [apply F1|].
    intros i' s' caps' _ _. apply F2.
  - by rewrite (E1 _ _ _ _ _ Hk), (E2 _ _ _ _ _ Hk).
  - by rewrite F1, F2.
  - apply E. intros i' s' caps' Hi Hd. by apply Hk.
  - apply F.
  - destruct IH as [E F]. destruct q.
    + by apply repeatMatcher_ext.
    + apply E. intros i' s' caps' Hi Hd. apply repeatMatcher_ext; [done|].
      by apply (agreeAfter_later i s).
    + rewrite (Hk i s caps) by lia.
      rewrite (E i s _ _ (fun i' s' caps' =>
                            if i' =? i then None else k2 i' s' caps'));
        [reflexivity|].
      intros i' s' caps' Hi Hd. destruct (i' =? i); [done|]. by apply Hk.
  - destruct IH as [E F]. destruct q.
    + by apply repeatMatcher_fail.
    + rewrite (E i s _ _ (fun _ _ _ => None)); [apply F|].
      intros i' s' caps' _ _. by apply repeatMatcher_fail.
    + rewrite (E i s _ _ (fun _ _ _ => None)).
      * rewrite F. by destruct greedy.
      * intros i' s' caps' _ _. by destruct (i' =? i).
Qed.

(** [length s] turns are enough for a quantifier: more turns change
    nothing. *)
Lemma repeatMatcher_enough m inner greedy k :
  wellBehaved m ->
  forall n s turns i caps,
    length s <= n -> length s <= turns ->
    repeatMatcher m inner greedy k turns i s caps
    = repeatMatcher m inner greedy k n i s caps.
Proof.
  intros [Hext Hfail].
  assert (Hzero : forall turns i caps,
             repeatMatcher m inner greedy k turns i [] caps
             = repeatMatcher m inner greedy k 0 i [] caps).
  { intros [|turns] i caps; [done|]. cbn [repeatMatcher].
    rewrite (Hext i [] _ _ (fun _ _ _ => None)); [by rewrite Hfail|].
    intros i' s' caps' Hi Hd. simpl in Hd.
    replace (i' =? i) with true by (symmetry; apply Nat.eqb_eq; lia). done. }
  induction n as [|n IH]; intros s turns i caps Hn Ht.
  - destruct s; [|simpl in Hn; lia]. apply Hzero.
  - destruct turns as [|turns].
    { destruct s; [|simpl in Ht; lia]. symmetry. apply Hzero. }
    cbn [repeatMatcher].
    rewrite (Hext i s _ _
               (fun i' s' caps' =>
                  if i' =? i then None
                  else repeatMatcher m inner greedy k n i' s' caps'));
      [reflexivity|].
    intros i' s' caps' Hi Hd. destruct (i' =? i) eqn:E; [done|].
    apply Nat.eqb_neq in E. apply IH; lia.
Qed.

(** So the scans of [commandToRegExp] and the quantifiers of a pattern are
    complete with the turns they are given. *)
Lemma replaceAll_complete turns s :
  length s <= turns ->
  replaceLoop matchEscapeRegExp turns s = replaceAll matchEscapeRegExp s
  /\ replaceLoop matchOptionalParam turns s = replaceAll matchOptionalParam s
  /\ replaceLoop matchNamedParam turns s = replaceAll matchNamedParam s
  /\ replaceLoop matchSplatParam turns s = replaceAll matchSplatParam s
  /\ replaceLoop matchOptionalRegex turns s = replaceAll matchOptionalRegex s.
Proof.
  intros H. destruct replacements_consuming as (H1 & H2 & H3 & H4 & H5).
  unfold replaceAll. repeat split; by apply replaceLoop_enough.
Qed.

Lemma quantifier_turns_enough ic r inner greedy k turns i s caps :
  length s <= turns ->
  repeatMatcher (matchFrom ic r) inner greedy k turns i s caps
  = repeatMatcher (matchFrom ic r) inner greedy k (length s) i s caps.
Proof.
  intros H. apply repeatMatcher_enough; [apply matchFrom_wellBehaved|done..].
Qed.

Lemma compiled_named :
  compiled "I am :name"
  = {| pattern :=
         RSeq RBegin
           (RSeq (RChar "I") (RSeq (RChar " ") (RSeq (RChar "a")
              (RSeq (RChar "m") (RSeq (RChar " ")
                 (RSeq (RGroup (Some 0)
                          (RQuant Plus true (RSet true [CSpace false])))
                    REnd))))));
       groupCount := 1; ignoreCase := true |}.
Proof. vm_compute. reflexivity. Qed.

Lemma compiled_splat :
  compiled "I want *"
  = {| pattern :=
         RSeq RBegin
           (RSeq (RChar "I") (RSeq (RChar " ") (RSeq (RChar "w")
              (RSeq (RChar "a") (RSeq (RChar "n") (RSeq (RChar "t")
                 (RSeq (RChar " ")
                    (RSeq (RGroup (Some 0) (RQuant Star false RAny))
                       REnd))))))));
       groupCount := 1; ignoreCase := true |}.
Proof. vm_compute. reflexivity. Qed.

(** [I am :name] on [I am] followed by a space and [w]: it matches when [w]
    is one token without white space, which is the parameter. *)
Lemma exec_named w :
  exec (compiled "I am :name") (str "I am " ++ w)
  = if negb (jeqb w []) && forallb notSpace w then Some [Some w] else None.
Proof.
  rewrite compiled_named. erewrite exec_anchored by reflexivity.
  cbn [matchFrom ignoreCase groupCount replicate str list_ascii_of_string app].
  rewrite !sameChar_refl.
  cbn [groupsOf clearGroups foldr existsb atomMatches].
  destruct w as [|x w]; [reflexivity|].
  change (jeqb (x :: w) []) with false.
  cbn [negb andb forallb xorb orb]. unfold notSpace at 1.
  rewrite orb_false_r. destruct (isSpace x); [reflexivity|].
  cbn [negb xorb].
  rewrite (repeatMatcher_to_end _ notSpace); try done.
  - destruct (forallb notSpace w); [|reflexivity].
    replace (6 + length w - 5) with (length (x :: w)) by (simpl; lia).
    by rewrite firstn_all.
  - intros i y s caps k'. cbn. rewrite orb_false_r. unfold notSpace.
    by destruct (isSpace y).
Qed.

(** [I want *] on [I want] followed by a space and [t]: it matches when [t]
    has no line terminator, and [t] is the parameter. *)
Lemma exec_splat t :
  exec (compiled "I want *") (str "I want " ++ t)
  = if forallb notLineTerminator t then Some [Some t] else None.
Proof.
  rewrite compiled_splat. erewrite exec_anchored by reflexivity.
  cbn [matchFrom ignoreCase groupCount replicate str list_ascii_of_string app].
  rewrite !sameChar_refl.
  cbn [groupsOf clearGroups foldr].
  rewrite (repeatMatcher_to_end _ notLineTerminator); try done.
  - destruct (forallb notLineTerminator t); [|reflexivity].
    replace (7 + length t - 7) with (length t) by lia.
    by rewrite firstn_all.
  - intros i y s caps k'. cbn. unfold notLineTerminator.
    by destruct (isLineTerminator y).
Qed.

Lemma compiledTest_compiled command s :
  commandToRegExp (CommandString (str command)) <> None ->
  compiledTest command s = test (compiled command) s.
Proof.
  unfold compiledTest, compiled.
  by destruct (commandToRegExp (CommandString (str command))).
Qed.

(** The commands of the demo application. *)
Example demo_commands :
  exec (compiled "I would like to order *") (str "I would like to order pizza")
  = Some [Some (str "pizza")]
  /\ exec (compiled "The weather is :condition today")
       (str "the weather is sunny today")
     = Some [Some (str "sunny")]
  /\ exec (compiled "My top sports are * and *")
       (str "My top sports are golf and tennis")
     = Some [Some (str "golf"); Some (str "tennis")]
  /\ compiledTest "Pass the salt (please)" (str "pass the salt") = true
  /\ compiledTest "Pass the salt (please)" (str "Pass the salt please") = true
  /\ compiledTest "Pass the salt (please)" (str "Pass the pepper") = false
  /\ commandToRegExp (CommandString (str "unbalanced)")) = None.
Proof. repeat split; vm_compute; reflexivity. Qed.

(** Outside the transcripts that commands are tested against, a wildcard
    stops at a line terminator: [*] is [(.*?)], and [.] matches no line
    terminator. *)
Example splat_stops_at_line_terminators :
  compiledTest "I want *" (str "I want a" ++ [lineFeed] ++ str "b") = false.
Proof. vm_compute. reflexivity. Qed.

(** ** Properties of the Command Matching Engine *)

Example matchCommand_unit_tests :
  matchCommand [CommandString (str "hello world")] (str "hello world") false
    (8 # 10)
  = Returns {| isMatch := true; parameters := Some []; similarity := None |}
  /\ matchCommand [CommandString (str "hello world")] (str "goodbye world")
       false (8 # 10)
     = Returns {| isMatch := false; parameters := None; similarity := None |}
  /\ matchCommand [CommandString (str "hello")] (str "helo") true (5 # 10)
     = Returns {| isMatch := true; parameters := None;
                  similarity := Some (6 # 7) |}
  /\ matchCommand [CommandString (str "hello"); CommandString (str "hi")]
       (str "hi") false (8 # 10)
     = Returns {| isMatch := true; parameters := Some []; similarity := None |}
  /\ matchCommand [CommandString (str "I am :name")] (str "I am John") false
       (8 # 10)
     = Returns {| isMatch := true; parameters := Some [Some (str "John")];
                  similarity := None |}.
Proof. repeat split; vm_compute; reflexivity. Qed.




(** * Further properties of the code *)

(** ** Text Normalizer and Transcript Combiner *)

Lemma distinctFromPrevious_prev p q ws :
  comparable p = comparable q ->
  distinctFromPrevious (Some p) ws -> distinctFromPrevious (Some q) ws.
Proof. intros E. destruct ws; simpl; [done|]. by rewrite E. Qed.

Lemma filterWords_distinct prev ws :
  distinctFromPrevious prev (filterWords prev ws).
Proof.
  revert prev. induction ws as [|w ws IH]; intros prev; [done|]. simpl.
  destruct (differsFromPrevious prev w) eqn:E; simpl.
  - split; [exact E|apply IH].
  - destruct prev as [p|]; [|done]. simpl in E.
    apply negb_false_iff in E. unfold jeqb in E. apply bool_decide_eq_true in E.
    apply (distinctFromPrevious_prev w p); [done|apply IH].
Qed.

(** X1.  The output of [removeDuplicateWords] has no two neighbouring words
    that compare equal (lower-cased, punctuation stripped): every run of
    duplicates is collapsed entirely, whatever its length. *)
Theorem removeDuplicateWords_no_neighbouring_duplicates (x : jstring) :
  distinctFromPrevious None (words (removeDuplicateWords x)).
Proof. rewrite words_removeDuplicateWords. apply filterWords_distinct. Qed.

Lemma trim_idem s : trim (trim s) = trim s.
Proof.
  destruct (trim s) eqn:E; [done|]. rewrite <- E.
  assert (Hn : trim s <> []) by (by rewrite E).
  destruct (trim_shape s Hn). by apply trim_id.
Qed.

Lemma removeDuplicateWords_trim s :
  removeDuplicateWords (trim s) = removeDuplicateWords s.
Proof. unfold removeDuplicateWords. by rewrite trim_idem. Qed.

(** X2.  [removeDuplicateWords] returns the empty string exactly on the
    inputs that are empty or white space only; on every other input the
    first word of the input is kept as the first word of the output. *)
Theorem removeDuplicateWords_empty_iff (x : jstring) :
  (removeDuplicateWords x = [] <-> trim x = [])
  /\ head (words (removeDuplicateWords x)) = head (words x).
Proof.
  split.
  - split.
    + intros H. destruct (trim x) eqn:E; [done|].
      assert (Hw : words x <> []).
      { unfold words. rewrite E. apply splitWs_nonnil. }
      rewrite removeDuplicateWords_words in H.
      destruct (words x) as [|w ws] eqn:Ew; [done|].
      apply join_nonnil in H; [done|done|].
      apply filterWords_words. rewrite <- Ew. apply words_are_words.
    + intros H. unfold removeDuplicateWords. by rewrite H.
  - rewrite words_removeDuplicateWords. by destruct (words x).
Qed.

Lemma trim_after_space s : trim (" "%char :: s) = trim s.
Proof. reflexivity. Qed.

Lemma trim_before_space s : trim (trim s ++ str " ") = trim s.
Proof.
  destruct (trim s) eqn:E; [reflexivity|]. rewrite <- E.
  assert (Hn : trim s <> []) by (by rewrite E).
  destruct (trim_shape s Hn) as [Hs He].
  unfold trim at 1. rewrite trimStart_id.
  - rewrite trimEnd_space. by apply trimEnd_id.
  - destruct (trim s); [done|exact Hs].
Qed.

(** X3.  An empty fragment is neutral for [concatTranscripts]: combining a
    transcript with the empty string, on either side, or combining it
    alone, gives the transcript normalized, without a space added. *)
Theorem concatTranscripts_empty_fragment (s : jstring) :
  concatTranscripts [[]; s] = removeDuplicateWords s
  /\ concatTranscripts [s; []] = removeDuplicateWords s
  /\ concatTranscripts [s] = removeDuplicateWords s
  /\ concatTranscripts [] = [].
Proof.
  unfold concatTranscripts. cbn [map join].
  change (trim []) with (@nil ascii). rewrite app_nil_r.
  split; [|split; [|split; [|reflexivity]]].
  - change ([] ++ str " " ++ trim s) with (" "%char :: trim s).
    by rewrite trim_after_space, trim_idem, removeDuplicateWords_trim.
  - by rewrite trim_before_space, removeDuplicateWords_trim.
  - by rewrite trim_idem, removeDuplicateWords_trim.
Qed.

(** ** Similarity Scorer *)

(** X4.  The similarity score is always between 0 and 1, both included. *)
Theorem similarity_between_0_and_1 (first second : jstring) :
  (0 <= compareTwoStringsUsingDiceCoefficient first second <= 1)%Q.
Proof. rewrite compare_diceCoefficient. apply diceCoefficient_bounds. Qed.

(** X5.  The similarity score is symmetric: exchanging the two strings
    gives the same number, although the code counts the bigrams of the
    first and consumes them with the second. *)
Theorem similarity_symmetric (first second : jstring) :
  compareTwoStringsUsingDiceCoefficient first second
  = compareTwoStringsUsingDiceCoefficient second first.
Proof.
  rewrite !compare_diceCoefficient, !diceCoefficient_code.
  destruct (bool_decide (stripSpaces first = stripSpaces second)) eqn:E1.
  - apply bool_decide_eq_true in E1. by rewrite bool_decide_eq_true_2.
  - apply bool_decide_eq_false in E1.
    rewrite (bool_decide_eq_false_2 (stripSpaces second = stripSpaces first))
      by (by intros ?).
    rewrite (bool_decide_ext
               (length (stripSpaces first) < 2
                \/ length (stripSpaces second) < 2)
               (length (stripSpaces second) < 2
                \/ length (stripSpaces first) < 2)) by tauto.
    destruct (bool_decide _); [done|].
    rewrite (comm_L (∩) (bigramMultiset (stripSpaces first))).
    by rewrite (Nat.add_comm (length (stripSpaces first))).
Qed.

(** ** Result Parser *)

Lemma accumulate_all_final rs acc :
  Forall (fun r => isFinal r = true) rs ->
  (foldl accumulateResult acc rs).1 = acc.1.
Proof.
  intros H. revert acc. induction H as [|r rs Hr _ IH]; intros acc; [done|].
  simpl. rewrite IH. unfold accumulateResult. by rewrite Hr.
Qed.

Lemma accumulate_all_interim rs acc :
  Forall (fun r => isFinal r = false) rs ->
  (foldl accumulateResult acc rs).2 = acc.2.
Proof.
  intros H. revert acc. induction H as [|r rs Hr _ IH]; intros acc; [done|].
  simpl. rewrite IH. unfold accumulateResult. by rewrite Hr.
Qed.

(** X6.  [parseResultsToTranscript] reads the results from [resultIndex]
    on only: the results before the index have no influence, and an index
    at or past the end gives two empty transcripts.  Both transcripts it
    returns are normalized, and a batch whose results from the index on are
    all final has no interim text, one whose results are all interim no
    final text. *)
Theorem parseResultsToTranscript_from_index
    (consumed rs : list SpeechRecognitionResult) :
  parseResultsToTranscript (consumed ++ rs) (length consumed)
  = parseResultsToTranscript rs 0
  /\ (forall index, length rs <= index ->
        parseResultsToTranscript rs index = ([], []))
  /\ (forall index,
        removeDuplicateWords (parseResultsToTranscript rs index).1
        = (parseResultsToTranscript rs index).1
        /\ removeDuplicateWords (parseResultsToTranscript rs index).2
           = (parseResultsToTranscript rs index).2)
  /\ (Forall (fun r => isFinal r = true) rs ->
      (parseResultsToTranscript (consumed ++ rs) (length consumed)).1 = [])
  /\ (Forall (fun r => isFinal r = false) rs ->
      (parseResultsToTranscript (consumed ++ rs) (length consumed)).2 = []).
Proof.
  unfold parseResultsToTranscript. rewrite drop_app_length, drop_0.
  split; [reflexivity|]. split; [|split; [|split]].
  - intros index H. by rewrite drop_ge.
  - intros index. simpl. split; apply removeDuplicateWords_idem.
  - intros H. simpl. by rewrite accumulate_all_final.
  - intros H. simpl. by rewrite accumulate_all_interim.
Qed.

(** Two final results after one that was consumed. *)
Lemma parseResultsToTranscript_from_index_witness :
  (parseResultsToTranscript
     ([{| isFinal := false; transcript := str "old" |}]
      ++ [{| isFinal := true; transcript := str "hello" |};
          {| isFinal := true; transcript := str "world" |}]) 1).1 = []
  /\ parseResultsToTranscript [] 3 = ([], []).
Proof.
  destruct (parseResultsToTranscript_from_index
              [{| isFinal := false; transcript := str "old" |}]
              [{| isFinal := true; transcript := str "hello" |};
               {| isFinal := true; transcript := str "world" |}])
    as (_ & _ & _ & H & _).
  destruct (parseResultsToTranscript_from_index [] []) as (_ & H0 & _).
  split.
  - apply H. repeat constructor.
  - apply H0. simpl. lia.
Defined.

(** ** Session Orchestrator *)

Lemma elem_of_browserSupportCallbacks e b subs :
  e ∈ flat_map (browserSupportCallbacks b) subs ->
  exists id n callbacks,
    e = Notify id n
    /\ (n = BrowserSupportsSpeechRecognitionChange b
        \/ n = BrowserSupportsContinuousListeningChange b)
    /\ (id, callbacks) ∈ subs /\ registered n callbacks = true.
Proof.
  intros Hin. apply list_elem_of_In, in_flat_map in Hin as ([id cb] & Hs & Hin).
  apply list_elem_of_In in Hs. unfold browserSupportCallbacks in Hin.
  apply in_app_or in Hin as [Hin|Hin]; simpl in Hin.
  - destruct (onBrowserSupportsSpeechRecognitionChange cb) eqn:E; [|done].
    destruct Hin as [<-|[]].
    exists id, (BrowserSupportsSpeechRecognitionChange b), cb. simpl. auto.
  - destruct (onBrowserSupportsContinuousListeningChange cb) eqn:E; [|done].
    destruct Hin as [<-|[]].
    exists id, (BrowserSupportsContinuousListeningChange b), cb. simpl. auto.
Qed.

Lemma not_elem_of_browserSupportCallbacks e b subs :
  (forall id supported,
      e <> Notify id (BrowserSupportsSpeechRecognitionChange supported)) ->
  (forall id supported,
      e <> Notify id (BrowserSupportsContinuousListeningChange supported)) ->
  e ∉ flat_map (browserSupportCallbacks b) subs.
Proof.
  intros H1 H2 Hin.
  apply elem_of_browserSupportCallbacks
    in Hin as (id & n & _ & -> & [->| ->] & _).
  - by apply (H1 id b).
  - by apply (H2 id b).
Qed.

Ltac run_calls :=
  unfold_methods; unfold_methods;
  unfold configure, stateAfter, effectsOf, resultOf,
    mbind, method_bind, mret, method_ret, this, assign, perform, when in *;
  cbn -[isLanguageChanged] in *.

(** The handler of a result event changes the transcripts and the duplicate
    flag only. *)
Lemma updateTranscript_keeps event m :
  let m' := stateAfter (updateTranscript event m) in
  recognition m' = recognition m
  /\ pauseAfterDisconnect m' = pauseAfterDisconnect m
  /\ listening m' = listening m
  /\ isMicrophoneAvailable m' = isMicrophoneAvailable m
  /\ subscribers m' = subscribers m
  /\ onStopListening m' = onStopListening m.
Proof. rewrite updateTranscript_run. unfold stateAfter. simpl. done. Qed.

Lemma call_invariants c m :
  onStopListening m = NoOp ->
  (listening m = true -> hasRecognition m = true) ->
  onStopListening (stateAfter (call c m)) = NoOp
  /\ (listening (stateAfter (call c m)) = true ->
      hasRecognition (stateAfter (call c m)) = true)
  /\ ResolveStop ∉ effectsOf (call c m).
Proof.
  intros Ho Hl.
  destruct c as [id cbs|id|nc lg o| | | |event|o|na|sup].
  7: { simpl. unfold mbind, method_bind, this, when, stateAfter, effectsOf.
       simpl.
       destruct (handlersAttached m);
         [|simpl; split; [done|split; [done|apply not_elem_of_nil]]].
       destruct (updateTranscript_keeps event m)
         as (Hrec & _ & Hlis & _ & _ & Hosl).
       unfold stateAfter in *.
       pose proof (updateTranscript_run event m) as Hrun.
       destruct (updateTranscript event m) as [[u m'] out]. simpl in *.
       split; [congruence|]. split.
       - unfold hasRecognition in *. rewrite Hrec, Hlis. exact Hl.
       - injection Hrun as _ _ ->.
         destruct (previousResultWasFinalOnly m && finalOnlyBatch event);
           [apply not_elem_of_nil|].
         intros Hin. apply list_elem_of_fmap in Hin as (x & Hx & _). done. }
  all: destruct m as [rec pause i0 f0 lis mic subs osl prev];
    simpl in Ho, Hl; subst osl; run_calls.
  all: try destruct rec as [[rc rl rh]|]; cbn -[isLanguageChanged] in *.
  all: try destruct lis; cbn -[isLanguageChanged] in *.
  all: try (by specialize (Hl eq_refl)).
  all: try destruct rh; cbn -[isLanguageChanged].
  all: try destruct pause; cbn -[isLanguageChanged].
  all: try destruct rc; cbn -[isLanguageChanged].
  all: try destruct na; cbn -[isLanguageChanged].
  all: try destruct nc; cbn -[isLanguageChanged].
  all: try destruct (isLanguageChanged lg _); cbn.
  all: try destruct o; cbn.
  all: try destruct sup; cbn.
  all: (split; [reflexivity|split; [done|]]).
  all: rewrite ?app_nil_r, ?elem_of_app, ?elem_of_cons, ?list_elem_of_fmap,
         ?elem_of_nil.
  all: try (intros Hin;
            repeat match goal with
              | H : _ \/ _ |- _ => destruct H
              | H : exists _, _ |- _ => destruct H as (? & ? & ?)
              | H : _ ∈ [] |- _ => by apply elem_of_nil in H
              | H : _ ∈ _ :: _ |- _ => apply elem_of_cons in H
              | H : _ ∈ _ ++ _ |- _ => apply elem_of_app in H
              | H : _ ∈ _ <$> _ |- _ =>
                  apply list_elem_of_fmap in H
              | H : _ ∈ map _ _ |- _ =>
                  apply list_elem_of_fmap in H
              | H : _ ∈ flat_map _ _ |- _ =>
                  apply elem_of_browserSupportCallbacks in H
                    as (? & ? & ? & ? & _)
              end; done).
Qed.

Lemma reachable_invariants m :
  reachable m ->
  onStopListening m = NoOp
  /\ (listening m = true -> hasRecognition m = true).
Proof.
  induction 1 as [supported subs|c m Hm [IH1 IH2]]; [done|].
  destruct (call_invariants c m IH1 IH2) as (H1 & H2 & _). done.
Qed.

(** X7.  In every state a manager can be in: it listens only when it has a
    recognizer, and [onStopListening] is still the initial no-op, because no
    call ever installs the resolver of a stop promise; so no call resolves
    one. *)
Theorem manager_invariants (m : RecognitionManager) :
  reachable m ->
  onStopListening m = NoOp
  /\ (listening m = true -> recognition m <> None)
  /\ (forall c, ResolveStop ∉ effectsOf (call c m)).
Proof.
  intros H. destruct (reachable_invariants m H) as [H1 H2].
  split; [exact H1|]. split.
  - intros Hl Hn. specialize (H2 Hl). unfold hasRecognition in H2.
    by rewrite Hn in H2.
  - intros c. by destruct (call_invariants c m H1 H2) as (_ & _ & H3).
Qed.

(** A manager that listens after a successful start. *)
Lemma manager_invariants_witness :
  onStopListening
    (stateAfter (call (StartListening true None Starts)
                   managerWithOneSubscriber)) = NoOp.
Proof.
  exact (proj1 (manager_invariants _
                  (reachable_call (StartListening true None Starts) _
                     (reachable_new true _)))).
Defined.

(** X8.  Stopping and aborting pause the session, resetting does not.  On
    a listening manager: after [stopListening] or [abortListening], the end
    event of the recognizer only notifies that listening stopped, and does
    not restart the recognizer, even in continuous mode.  After
    [resetTranscript], the end event restarts a continuous recognizer at
    once, and then notifies what [startListening] notifies; it stops a
    recognizer that is not continuous.  The end event always clears the
    pause request. *)
Theorem end_event_after_stop_abort_reset
    (m : RecognitionManager) (r : Recognizer) (o : StartOutcome) :
  reachable m ->
  recognition m = Some r ->
  listening m = true ->
  let notifyStopped :=
    map (fun id => Notify id (ListeningChange false))
      (subscribersWith onListeningChange m) in
  let afterStop := stateAfter (stopListening m) in
  let afterAbort := stateAfter (abortListening m) in
  let afterReset := stateAfter (resetTranscript m) in
  effectsOf (stopListening m) = RecognizerStop :: notifyStopped
  /\ effectsOf (abortListening m) = RecognizerAbort :: notifyStopped
  /\ effectsOf (resetTranscript m) = [RecognizerAbort]
  /\ effectsOf (onRecognitionDisconnect o afterStop) = notifyStopped
  /\ effectsOf (onRecognitionDisconnect o afterAbort) = notifyStopped
  /\ listening (stateAfter (onRecognitionDisconnect o afterStop)) = false
  /\ listening (stateAfter (onRecognitionDisconnect o afterAbort)) = false
  /\ effectsOf (onRecognitionDisconnect o afterReset)
     = (if continuous r then
          RecognizerStart
          :: match o with
             | Starts =>
                 map (fun id => Notify id (ListeningChange true))
                   (subscribersWith onListeningChange m)
             | ThrowsDOMException => []
             | ThrowsOther =>
                 map (fun id => Notify id (MicrophoneAvailabilityChange false))
                   (subscribersWith onMicrophoneAvailabilityChange m)
             end
        else notifyStopped)
  /\ listening (stateAfter (onRecognitionDisconnect o afterReset))
     = (continuous r && match o with Starts => true | _ => false end)
  /\ pauseAfterDisconnect (stateAfter (onRecognitionDisconnect o afterStop))
     = false
  /\ pauseAfterDisconnect (stateAfter (onRecognitionDisconnect o afterReset))
     = false.
Proof.
  intros Hm Hr Hl. destruct (reachable_invariants m Hm) as [Ho _].
  destruct m as [rec pause i0 f0 lis mic subs osl prev].
  simpl in Hr, Hl, Ho. subst rec lis osl. destruct r as [rc rl rh].
  run_calls.
  destruct rc, o; cbn; rewrite ?app_nil_r; repeat split; reflexivity.
Qed.

(** A continuous session that is reset: the end event restarts it. *)
Lemma end_event_after_stop_abort_reset_witness :
  let m := stateAfter (call (StartListening true None Starts)
                         managerWithOneSubscriber) in
  effectsOf (onRecognitionDisconnect Starts (stateAfter (stopListening m)))
  = [Notify (str "0") (ListeningChange false)]
  /\ effectsOf (onRecognitionDisconnect Starts (stateAfter (resetTranscript m)))
     = [RecognizerStart; Notify (str "0") (ListeningChange true)].
Proof.
  pose proof (end_event_after_stop_abort_reset
                (stateAfter (call (StartListening true None Starts)
                               managerWithOneSubscriber))
                {| continuous := true; lang := []; handlers := true |} Starts
                (reachable_call _ _ (reachable_new true _))
                eq_refl eq_refl) as H.
  cbv zeta in H. destruct H as (_ & _ & _ & H1 & _ & _ & _ & H2 & _).
  split; [exact H1|exact H2].
Defined.

(** X9.  Without a recognizer, [startListening] and [resetTranscript] do
    nothing at all, whereas [stopListening] and [abortListening] call no
    primitive but still notify the subscribers that listening is off. *)
Theorem calls_without_recognizer
    (m : RecognitionManager) (newContinuous : bool)
    (language : option jstring) (o : StartOutcome) :
  recognition m = None ->
  startListening newContinuous language o m = (tt, m, [])
  /\ resetTranscript m = (tt, m, [])
  /\ stopListening m
     = (SettlesAtOnce, setListening false m,
        map (fun id => Notify id (ListeningChange false))
          (subscribersWith onListeningChange m))
  /\ abortListening m = stopListening m.
Proof.
  intros Hr. destruct m as [rec pause i0 f0 lis mic subs osl prev].
  simpl in Hr. subst rec. run_calls. rewrite ?app_nil_r. done.
Qed.

(** A manager of a browser without speech recognition. *)
Lemma calls_without_recognizer_witness :
  startListening false None Starts (newManager false [])
  = (tt, newManager false [], []).
Proof.
  exact (proj1 (calls_without_recognizer (newManager false []) false None
                  Starts eq_refl)).
Defined.

(** X10.  [startListening] on a manager that already listens, with the
    continuous mode and the language it already has, does nothing: it calls
    no primitive, notifies nobody and keeps the transcripts. *)
Theorem startListening_again_is_a_no_op
    (m : RecognitionManager) (r : Recognizer)
    (language : option jstring) (o : StartOutcome) :
  recognition m = Some r ->
  listening m = true ->
  isLanguageChanged language r = false ->
  startListening (continuous r) language o m = (tt, m, []).
Proof.
  intros Hr Hl Hlang.
  rewrite (startListening_while_listening m r) by done.
  rewrite Hlang. by destruct (continuous r).
Qed.

Lemma startListening_again_is_a_no_op_witness :
  let m := stateAfter (startListening true None Starts
                         managerWithOneSubscriber) in
  startListening true None Starts m = (tt, m, []).
Proof.
  exact (startListening_again_is_a_no_op
           (stateAfter (startListening true None Starts
                          managerWithOneSubscriber))
           {| continuous := true; lang := []; handlers := true |}
           None Starts eq_refl eq_refl eq_refl).
Defined.

Lemma configured_continuous newContinuous language r :
  continuous (configured newContinuous language r) = newContinuous.
Proof.
  unfold configured, configure.
  destruct newContinuous, (continuous r) eqn:E; simpl;
    destruct (isLanguageChanged language r); simpl; done.
Qed.

(** X11.  On a manager that is not listening, [startListening] in
    non-continuous mode empties both transcripts and calls the
    clear-transcript callbacks before it calls the start primitive, so that
    they are cleared even when the primitive throws; in continuous mode it
    keeps both transcripts and calls no clear-transcript callback. *)
Theorem startListening_clears_unless_continuous
    (m : RecognitionManager) (r : Recognizer) (newContinuous : bool)
    (language : option jstring) (o : StartOutcome) :
  recognition m = Some r ->
  listening m = false ->
  let m' := stateAfter (startListening newContinuous language o m) in
  let out := effectsOf (startListening newContinuous language o m) in
  finalTranscriptState m'
  = (if newContinuous then finalTranscriptState m else [])
  /\ interimTranscript m'
     = (if newContinuous then interimTranscript m else [])
  /\ (exists after,
         out = (if newContinuous then []
                else map (fun id => Notify id ClearTranscript)
                       (subscribersWith onClearTranscript m))
               ++ RecognizerStart :: after
         /\ forall id, Notify id ClearTranscript ∉ after).
Proof.
  intros Hr Hl m' out. subst m' out.
  rewrite (startListening_run m r) by done.
  unfold stateAfter, effectsOf, readyToStart, clearedBeforeStart. simpl.
  rewrite configured_continuous.
  split; [by destruct newContinuous, o|]. split; [by destruct newContinuous, o|].
  eexists. split; [reflexivity|].
  intros id Hin. destruct o; simpl in Hin.
  - apply list_elem_of_fmap in Hin as (x & Hx & _). done.
  - by apply elem_of_nil in Hin.
  - apply list_elem_of_fmap in Hin as (x & Hx & _). done.
Qed.

(** A final transcript is there; a non-continuous start that throws. *)
Lemma startListening_clears_unless_continuous_witness :
  finalTranscriptState
    (stateAfter
       (startListening false None ThrowsOther
          (stateAfter (updateTranscript (finalBatch "hello")
                         managerWithOneSubscriber)))) = [].
Proof.
  exact (proj1 (startListening_clears_unless_continuous
                  (stateAfter (updateTranscript (finalBatch "hello")
                                 managerWithOneSubscriber))
                  newRecognizer false None ThrowsOther eq_refl eq_refl)).
Defined.

(** What a call other than a result event leaves as it is. *)
Lemma call_keeps c m :
  (forall event, c <> OnResult event) ->
  previousResultWasFinalOnly (stateAfter (call c m))
  = previousResultWasFinalOnly m
  /\ ((forall language o, c <> StartListening false language o) ->
      finalTranscriptState (stateAfter (call c m)) = finalTranscriptState m
      /\ interimTranscript (stateAfter (call c m)) = interimTranscript m).
Proof.
  intros Hc.
  destruct m as [rec pause i0 f0 lis mic subs osl prev].
  destruct c as [id cbs|id|nc lg o| | | |event|o|na|sup];
    try (by destruct (Hc event)); run_calls.
  all: try destruct rec as [[rc rl rh]|]; cbn -[isLanguageChanged] in *.
  all: try destruct lis; cbn -[isLanguageChanged] in *.
  all: try destruct rh; cbn -[isLanguageChanged] in *.
  all: try destruct pause; cbn -[isLanguageChanged] in *.
  all: try destruct rc; cbn -[isLanguageChanged] in *.
  all: try destruct na; cbn -[isLanguageChanged] in *.
  all: try destruct nc; cbn -[isLanguageChanged] in *.
  all: try destruct (isLanguageChanged lg _); cbn in *.
  all: try destruct o; cbn in *.
  all: try destruct sup; cbn in *.
  all: split; [reflexivity|]; intros Hs; try done.
  all: try (by destruct (Hs lg Starts)).
  all: try (by destruct (Hs lg ThrowsDOMException)).
  all: try (by destruct (Hs lg ThrowsOther)).
Qed.

(** X12.  Only result events touch the duplicate flag
    [previousResultWasFinalOnly]: stopping, aborting, resetting, the end
    event and [startListening], which clears the transcripts, all keep it.
    So when the last batch before such a call was final-only, the next
    final-only batch is suppressed as a duplicate: its text enters the final
    transcript and no subscriber is told, also when it is the first batch
    of a new session. *)
Theorem duplicate_flag_survives_restart
    (c : Call) (m : RecognitionManager) (event : SpeechRecognitionEvent) :
  (forall e, c <> OnResult e) ->
  previousResultWasFinalOnly m = true ->
  finalOnlyBatch event = true ->
  let m1 := stateAfter (call c m) in
  previousResultWasFinalOnly m1 = true
  /\ effectsOf (updateTranscript event m1) = []
  /\ finalTranscriptState (stateAfter (updateTranscript event m1))
     = (if jeqb (batchFinal event) [] then finalTranscriptState m1
        else concatTranscripts [finalTranscriptState m1; batchFinal event]).
Proof.
  intros Hc Hp He m1. destruct (call_keeps c m Hc) as [Hk _]. fold m1 in Hk.
  rewrite Hp in Hk. split; [exact Hk|].
  rewrite updateTranscript_run. unfold effectsOf, stateAfter. simpl.
  by rewrite Hk, He.
Qed.

(** The batch [hello], a new non-continuous session, the batch [world]:
    the final transcript is [world] and nobody is told. *)
Lemma duplicate_flag_survives_restart_witness :
  let m1 := stateAfter
              (call (StartListening false None Starts)
                 (stateAfter (updateTranscript (finalBatch "hello")
                                managerWithOneSubscriber))) in
  finalTranscriptState m1 = []
  /\ effectsOf (updateTranscript (finalBatch "world") m1) = []
  /\ finalTranscriptState (stateAfter (updateTranscript (finalBatch "world") m1))
     = str "world".
Proof.
  pose proof (duplicate_flag_survives_restart
                (StartListening false None Starts)
                (stateAfter (updateTranscript (finalBatch "hello")
                               managerWithOneSubscriber))
                (finalBatch "world")
                ltac:(discriminate) eq_refl eq_refl) as H.
  cbv zeta in H. destruct H as (_ & H1 & H2).
  split; [reflexivity|]. split; [exact H1|exact H2].
Defined.

(** X13.  The transcripts of the manager are emptied by [startListening]
    in non-continuous mode only.  Every other call that is not a result
    event keeps the interim and the final transcript: subscribing,
    [startListening] in continuous mode, [stopListening],
    [abortListening], the end event with or without restart, an error, and
    also [resetTranscript], which only aborts the recognizer. *)
Theorem transcripts_cleared_by_start_only (c : Call) (m : RecognitionManager) :
  (forall e, c <> OnResult e) ->
  (forall language o, c <> StartListening false language o) ->
  finalTranscriptState (stateAfter (call c m)) = finalTranscriptState m
  /\ interimTranscript (stateAfter (call c m)) = interimTranscript m.
Proof. intros Hc Hs. by apply (call_keeps c m Hc). Qed.

(** [resetTranscript] on a manager that listens and has a final transcript. *)
Lemma transcripts_cleared_by_start_only_witness :
  finalTranscriptState
    (stateAfter
       (call ResetTranscript
          (stateAfter (updateTranscript (finalBatch "hello")
                         (stateAfter (startListening true None Starts
                                        managerWithOneSubscriber))))))
  = str "hello".
Proof.
  exact (proj1 (transcripts_cleared_by_start_only ResetTranscript
                  (stateAfter (updateTranscript (finalBatch "hello")
                                 (stateAfter (startListening true None Starts
                                                managerWithOneSubscriber))))
                  ltac:(discriminate) ltac:(discriminate))).
Defined.

Lemma not_elem_of_notifications (e : Effect) (n : Notification)
    (ids : list jstring) :
  (forall id, e <> Notify id n) ->
  e ∉ map (fun id => Notify id n) ids.
Proof.
  intros H Hin. apply list_elem_of_fmap in Hin as (id & -> & _).
  by apply (H id).
Qed.

(** What no call brings back. *)
Lemma call_never_restores c m :
  (isMicrophoneAvailable m = false ->
   isMicrophoneAvailable (stateAfter (call c m)) = false)
  /\ (c <> SetSpeechRecognition true ->
      handlersAttached m = false ->
      handlersAttached (stateAfter (call c m)) = false)
  /\ (forall id,
         Notify id (MicrophoneAvailabilityChange true) ∉ effectsOf (call c m)).
Proof.
  destruct c as [id cbs|id|nc lg o| | | |event|o|na|sup].
  7: { simpl. unfold mbind, method_bind, this, when, stateAfter, effectsOf.
       simpl. destruct (handlersAttached m) eqn:Eh.
       - destruct (updateTranscript_keeps event m) as (Hrec & _ & _ & Hmic & _).
         unfold stateAfter in *.
         pose proof (updateTranscript_run event m) as Hrun.
         destruct (updateTranscript event m) as [[u m'] out]. simpl in *.
         split; [congruence|]. split; [by intros _|].
         intros id. injection Hrun as _ _ ->.
         destruct (previousResultWasFinalOnly m && finalOnlyBatch event);
           [apply not_elem_of_nil|]. by apply not_elem_of_notifications.
       - simpl. split; [done|]. split; [done|]. intros id.
         apply not_elem_of_nil. }
  all: destruct m as [rec pause i0 f0 lis mic subs osl prev]; run_calls.
  all: try destruct rec as [[rc rl rh]|]; cbn -[isLanguageChanged] in *.
  all: try destruct lis; cbn -[isLanguageChanged] in *.
  all: try destruct rh; cbn -[isLanguageChanged] in *.
  all: try destruct pause; cbn -[isLanguageChanged] in *.
  all: try destruct rc; cbn -[isLanguageChanged] in *.
  all: try destruct na; cbn -[isLanguageChanged] in *.
  all: try destruct nc; cbn -[isLanguageChanged] in *.
  all: try destruct (isLanguageChanged lg _); cbn in *.
  all: try destruct o; cbn in *.
  all: try destruct sup; cbn in *.
  all: try destruct osl; cbn in *.
  all: (split; [done|split; [first [done|by intros Hc; destruct Hc]|]]);
    intros sid.
  all: rewrite ?app_nil_r.
  all: repeat (first [ apply not_elem_of_nil
                     | apply not_elem_of_cons; split; [done|]
                     | apply not_elem_of_app; split
                     | by apply not_elem_of_notifications
                     | by apply not_elem_of_browserSupportCallbacks ]).
Qed.

Lemma callAll_never_restores cs m :
  (isMicrophoneAvailable m = false ->
   isMicrophoneAvailable (callAll cs m) = false)
  /\ (SetSpeechRecognition true ∉ cs ->
      handlersAttached m = false -> handlersAttached (callAll cs m) = false).
Proof.
  revert m. induction cs as [|c cs IH]; intros m; [done|].
  unfold callAll. simpl. fold (callAll cs (stateAfter (call c m))).
  destruct (call_never_restores c m) as (Hmic & Hh & _).
  destruct (IH (stateAfter (call c m))) as [IHmic IHh]. split; [auto|].
  intros [Hc Hcs]%not_elem_of_cons Hm. apply IHh; [done|].
  apply Hh; [by intros ->|done].
Qed.

Lemma recognizerEvent_ignored c m :
  handlersAttached m = false -> recognizerEvent c = true ->
  call c m = (tt, m, []).
Proof.
  intros Hh Hc. destruct c; try discriminate; simpl;
    unfold mbind, method_bind, this, when; simpl; by rewrite Hh.
Qed.

Lemma setSpeechRecognition_installs m :
  recognition (stateAfter (call (SetSpeechRecognition true) m))
  = Some newRecognizer
  /\ isMicrophoneAvailable (stateAfter (call (SetSpeechRecognition true) m))
     = isMicrophoneAvailable m.
Proof.
  destruct m as [rec pause i0 f0 lis mic subs osl prev]. run_calls.
  destruct rec as [[rc rl rh]|]; cbn; [|done]. destruct lis; cbn; done.
Qed.

(** X14.  A [not-allowed] error that reaches the manager tells the
    subscribers that the microphone is unavailable and, if the manager
    was listening, stops the recognizer and tells them that listening
    ended.  It also detaches the three handlers: after any run of further
    calls the microphone is still marked unavailable, and as long as no
    [setSpeechRecognition] has installed a new recognizer every result,
    end or error event is ignored, changing nothing and calling nobody.
    [setSpeechRecognition] with a supported implementation attaches the
    handlers again, so that result events are handled, and leaves the
    microphone marked unavailable. *)
Theorem not_allowed_error_detaches_the_handlers
    (m : RecognitionManager) (cs : list Call) (c : Call)
    (event : SpeechRecognitionEvent) :
  handlersAttached m = true ->
  let m1 := stateAfter (call (OnError true) m) in
  let m2 := callAll cs m1 in
  let m3 := stateAfter (call (SetSpeechRecognition true) m2) in
  effectsOf (call (OnError true) m)
  = map (fun id => Notify id (MicrophoneAvailabilityChange false))
      (subscribersWith onMicrophoneAvailabilityChange m)
    ++ (if listening m
        then RecognizerStop
             :: map (fun id => Notify id (ListeningChange false))
                  (subscribersWith onListeningChange m)
        else [])
  /\ listening m1 = false
  /\ isMicrophoneAvailable m2 = false
  /\ (SetSpeechRecognition true ∉ cs ->
      recognizerEvent c = true -> call c m2 = (tt, m2, []))
  /\ recognition m3 = Some newRecognizer
  /\ isMicrophoneAvailable m3 = false
  /\ call (OnResult event) m3 = updateTranscript event m3.
Proof.
  intros Hh m1 m2 m3.
  assert (effectsOf (call (OnError true) m)
          = map (fun id => Notify id (MicrophoneAvailabilityChange false))
              (subscribersWith onMicrophoneAvailabilityChange m)
            ++ (if listening m
                then RecognizerStop
                     :: map (fun id => Notify id (ListeningChange false))
                          (subscribersWith onListeningChange m)
                else [])
          /\ listening m1 = false
          /\ isMicrophoneAvailable m1 = false
          /\ handlersAttached m1 = false) as (He & Hl & Hmic & Hd).
  { subst m1 m2 m3. destruct m as [rec pause i0 f0 lis mic subs osl prev].
    unfold handlersAttached in Hh. simpl in Hh.
    destruct rec as [[rc rl rh]|]; [|done]. simpl in Hh. subst rh.
    run_calls. destruct lis; cbn; rewrite ?app_nil_r; done. }
  split; [exact He|]. split; [exact Hl|].
  destruct (callAll_never_restores cs m1) as [Hm2 Hh2].
  specialize (Hm2 Hmic). split; [exact Hm2|]. split.
  { intros Hcs Hc. apply recognizerEvent_ignored; [by apply Hh2|done]. }
  destruct (setSpeechRecognition_installs m2) as [Hr3 Hm3].
  fold m3 in Hr3, Hm3.
  split; [exact Hr3|]. split; [by rewrite Hm3|].
  simpl. unfold mbind, method_bind, this, when, handlersAttached. simpl.
  rewrite Hr3. simpl. by destruct (updateTranscript event m3) as [[[] ?] ?].
Qed.

(** The error while listening, then a new start and a result event, which
    is ignored; then [setSpeechRecognition]. *)
Lemma not_allowed_error_detaches_the_handlers_witness :
  let m := stateAfter (startListening false None Starts
                         managerWithOneSubscriber) in
  let m2 := callAll [StartListening true None Starts]
              (stateAfter (call (OnError true) m)) in
  effectsOf (call (OnError true) m)
  = [Notify (str "0") (MicrophoneAvailabilityChange false); RecognizerStop;
     Notify (str "0") (ListeningChange false)]
  /\ listening m2 = true
  /\ call (OnResult (finalBatch "hello")) m2 = (tt, m2, [])
  /\ isMicrophoneAvailable
       (stateAfter (call (SetSpeechRecognition true) m2)) = false.
Proof.
  pose proof (not_allowed_error_detaches_the_handlers
                (stateAfter (startListening false None Starts
                               managerWithOneSubscriber))
                [StartListening true None Starts]
                (OnResult (finalBatch "hello")) (finalBatch "hello")
                eq_refl) as H.
  cbv zeta in H. destruct H as (He & _ & _ & Hc & _ & Hm & _).
  split; [exact He|]. split; [reflexivity|]. split; [|exact Hm].
  apply Hc; [|reflexivity].
  intros Hin. apply elem_of_cons in Hin as [Hin|Hin]; [discriminate Hin|].
  by apply elem_of_nil in Hin.
Defined.

(** X15.  No call tells a subscriber that the microphone is available
    again, and no run of calls sets [isMicrophoneAvailable] back: once a
    start failure or a [not-allowed] error cleared it, it stays cleared for
    the life of the manager. *)
Theorem microphone_availability_never_returns
    (m : RecognitionManager) (cs : list Call) (c : Call) (id : jstring) :
  isMicrophoneAvailable m = false ->
  isMicrophoneAvailable (callAll cs m) = false
  /\ Notify id (MicrophoneAvailabilityChange true)
     ∉ effectsOf (call c (callAll cs m)).
Proof.
  intros Hm. split; [by apply callAll_never_restores|].
  apply call_never_restores.
Qed.

(** A start that fails, then a start that succeeds. *)
Lemma microphone_availability_never_returns_witness :
  let m := stateAfter (startListening false None ThrowsOther
                         managerWithOneSubscriber) in
  isMicrophoneAvailable m = false
  /\ listening (callAll [StartListening false None Starts] m) = true
  /\ isMicrophoneAvailable (callAll [StartListening false None Starts] m)
     = false.
Proof.
  split; [reflexivity|]. split; [reflexivity|].
  exact (proj1 (microphone_availability_never_returns
                  (stateAfter (startListening false None ThrowsOther
                                 managerWithOneSubscriber))
                  [StartListening false None Starts] StopListening (str "0")
                  eq_refl)).
Defined.

Lemma notified_registered (has : RecognitionCallbacks -> bool)
    (n' : Notification) (m : RecognitionManager) (id : jstring)
    (n : Notification) :
  Notify id n ∈ map (fun id => Notify id n') (subscribersWith has m) ->
  n = n' /\ exists callbacks,
    (id, callbacks) ∈ subscribers m /\ has callbacks = true.
Proof.
  intros Hin. apply list_elem_of_fmap in Hin as (id' & Heq & Hin).
  injection Heq as -> ->. split; [done|].
  unfold subscribersWith in Hin.
  apply list_elem_of_fmap in Hin as ([id'' cb] & -> & Hin).
  apply list_elem_of_filter in Hin as [Hhas Hin]. by exists cb.
Qed.

Lemma notified_from (has : RecognitionCallbacks -> bool) (n' : Notification)
    (subs : list (jstring * RecognitionCallbacks)) (id : jstring)
    (n : Notification) :
  (forall callbacks, has callbacks = true -> registered n' callbacks = true) ->
  Notify id n
  ∈ map (fun id => Notify id n')
      (map fst (filter (fun s => has s.2 = true) subs)) ->
  exists callbacks, (id, callbacks) ∈ subs /\ registered n callbacks = true.
Proof.
  intros Hreg Hin. apply list_elem_of_fmap in Hin as (id' & Heq & Hin).
  injection Heq as -> ->.
  apply list_elem_of_fmap in Hin as ([id'' cb] & -> & Hin).
  apply list_elem_of_filter in Hin as [Hhas Hin]. exists cb. auto.
Qed.

Lemma call_notifies_registered c m id n :
  Notify id n ∈ effectsOf (call c m) ->
  exists callbacks,
    (id, callbacks) ∈ subscribers m /\ registered n callbacks = true.
Proof.
  destruct c as [id' cbs|id'|nc lg o| | | |event|o|na|sup].
  7: { simpl. unfold mbind, method_bind, this, when, effectsOf. simpl.
       destruct (handlersAttached m); simpl; [|by intros ?%elem_of_nil].
       pose proof (updateTranscript_run event m) as Hrun.
       destruct (updateTranscript event m) as [[u m'] out]. simpl.
       injection Hrun as _ _ ->.
       destruct (previousResultWasFinalOnly m && finalOnlyBatch event);
         [by intros ?%elem_of_nil|].
       intros Hin. apply notified_registered in Hin as (-> & cb & Hin & Hon).
       by exists cb. }
  all: destruct m as [rec pause i0 f0 lis mic subs osl prev]; run_calls.
  all: try destruct rec as [[rc rl rh]|]; cbn -[isLanguageChanged] in *.
  all: try destruct lis; cbn -[isLanguageChanged] in *.
  all: try destruct rh; cbn -[isLanguageChanged] in *.
  all: try destruct pause; cbn -[isLanguageChanged] in *.
  all: try destruct rc; cbn -[isLanguageChanged] in *.
  all: try destruct na; cbn -[isLanguageChanged] in *.
  all: try destruct nc; cbn -[isLanguageChanged] in *.
  all: try destruct (isLanguageChanged lg _); cbn in *.
  all: try destruct o; cbn in *.
  all: try destruct sup; cbn in *.
  all: try destruct osl; cbn in *.
  all: rewrite ?app_nil_r.
  all: try (by intros ?%elem_of_nil).
  all: intros Hin.
  all: repeat
         first [ apply elem_of_nil in Hin; contradiction
               | apply elem_of_cons in Hin as [Hin|Hin]; [discriminate|]
               | apply elem_of_app in Hin as [Hin|Hin]
               | (eapply notified_from; [|exact Hin]; done)
               | (apply elem_of_browserSupportCallbacks in Hin
                    as (id' & n' & cb & [= <- <-] & _ & Hs & Hr);
                  by exists cb) ].
Qed.

Lemma call_subscribers c m :
  subscribers (stateAfter (call c m))
  = match c with
    | Subscribe id callbacks => putSubscriber id callbacks (subscribers m)
    | Unsubscribe id => filter (fun s => jeqb s.1 id = false) (subscribers m)
    | _ => subscribers m
    end.
Proof.
  destruct c as [id cbs|id|nc lg o| | | |event|o|na|sup].
  7: { simpl. unfold mbind, method_bind, this, when, stateAfter. simpl.
       destruct (handlersAttached m); [|done].
       destruct (updateTranscript_keeps event m) as (_ & _ & _ & _ & Hs & _).
       unfold stateAfter in Hs.
       by destruct (updateTranscript event m) as [[u m'] out]. }
  all: destruct m as [rec pause i0 f0 lis mic subs osl prev]; run_calls.
  all: try destruct rec as [[rc rl rh]|]; cbn -[isLanguageChanged] in *.
  all: try destruct lis; cbn -[isLanguageChanged] in *.
  all: try destruct rh; cbn -[isLanguageChanged] in *.
  all: try destruct pause; cbn -[isLanguageChanged] in *.
  all: try destruct rc; cbn -[isLanguageChanged] in *.
  all: try destruct na; cbn -[isLanguageChanged] in *.
  all: try destruct nc; cbn -[isLanguageChanged] in *.
  all: try destruct (isLanguageChanged lg _); cbn in *.
  all: try destruct o; cbn in *.
  all: try destruct sup; cbn in *.
  all: done.
Qed.

Lemma insertIndexed_keys n entry subs id' :
  id' ∈ map fst (insertIndexed n entry subs)
  <-> id' = entry.1 \/ id' ∈ map fst subs.
Proof.
  induction subs as [|s subs IH]; cbn [insertIndexed map].
  - by rewrite elem_of_cons.
  - destruct (indexBelow n s); cbn [map]; rewrite !elem_of_cons; [|done].
    rewrite IH. tauto.
Qed.

Lemma putSubscriber_keys id callbacks subs id' :
  id' ∈ map fst (putSubscriber id callbacks subs)
  <-> (id' = id /\ id <> str "__proto__") \/ id' ∈ map fst subs.
Proof.
  unfold putSubscriber, jeqb.
  case_bool_decide as Hproto; [tauto|].
  case_bool_decide as Hin.
  - assert (map fst (map (fun s : jstring * RecognitionCallbacks =>
                            if bool_decide (s.1 = id) then (id, callbacks)
                            else s) subs)
            = map fst subs) as ->.
    { rewrite map_map. apply map_ext. intros [k v]. simpl.
      by case_bool_decide. }
    split; [tauto|]. intros [[-> _]|H]; done.
  - destruct (arrayIndex id).
    + rewrite insertIndexed_keys. simpl. tauto.
    + rewrite map_app, elem_of_app. simpl. rewrite elem_of_cons, elem_of_nil.
      tauto.
Qed.

Lemma unsubscribed_key id subs :
  id ∉ map fst (filter (fun s : jstring * RecognitionCallbacks =>
                          jeqb s.1 id = false) subs).
Proof.
  intros Hin. apply list_elem_of_fmap in Hin as ([k v] & -> & Hin).
  apply list_elem_of_filter in Hin as [Hk _]. simpl in Hk.
  unfold jeqb in Hk. by case_bool_decide.
Qed.

Lemma call_keeps_unsubscribed id c m :
  subscribesAs id c = false ->
  id ∉ map fst (subscribers m) ->
  id ∉ map fst (subscribers (stateAfter (call c m))).
Proof.
  intros Hc Hid. rewrite call_subscribers. destruct c; try done.
  - simpl in Hc. rewrite putSubscriber_keys. intros [[-> _]|H]; [|done].
    unfold jeqb in Hc. by case_bool_decide.
  - intros Hin. apply Hid.
    apply list_elem_of_fmap in Hin as (s & -> & Hin).
    apply list_elem_of_filter in Hin as [_ Hin].
    apply list_elem_of_fmap. by exists s.
Qed.

(** X16.  Whatever call the manager handles, every subscriber callback it
    makes goes to an identifier that is subscribed when the call begins,
    and to a callback that this subscriber registered. *)
Theorem notifications_reach_registered_subscribers
    (c : Call) (m : RecognitionManager) (id : jstring) (n : Notification) :
  Notify id n ∈ effectsOf (call c m) ->
  exists callbacks,
    (id, callbacks) ∈ subscribers m /\ registered n callbacks = true.
Proof. apply call_notifies_registered. Qed.

(** The subscriber [0] is told that listening began. *)
Lemma notifications_reach_registered_subscribers_witness :
  exists callbacks,
    (str "0", callbacks) ∈ subscribers managerWithOneSubscriber
    /\ registered (ListeningChange true) callbacks = true.
Proof.
  apply (notifications_reach_registered_subscribers
           (StartListening false None Starts) managerWithOneSubscriber).
  vm_compute. do 2 apply list_elem_of_further. apply list_elem_of_here.
Defined.

(** X17.  After [unsubscribe id], no callback of [id] is called by any
    later call, as long as nothing subscribes under [id] again. *)
Theorem unsubscribed_is_never_notified
    (id : jstring) (m : RecognitionManager) (cs : list Call) (c : Call)
    (n : Notification) :
  forallb (fun c => negb (subscribesAs id c)) cs = true ->
  Notify id n ∉ effectsOf (call c (callAll cs (stateAfter (unsubscribe id m)))).
Proof.
  intros Hcs Hin.
  apply call_notifies_registered in Hin as (cb & Hin & _).
  assert (id ∉ map fst (subscribers (stateAfter (unsubscribe id m)))) as Hid.
  { change (unsubscribe id m) with (call (Unsubscribe id) m).
    rewrite call_subscribers. apply unsubscribed_key. }
  revert Hid Hin. generalize (stateAfter (unsubscribe id m)). clear m.
  induction cs as [|c' cs IH]; intros m Hid Hin.
  - apply Hid. apply list_elem_of_fmap. by exists (id, cb).
  - simpl in Hcs. apply andb_true_iff in Hcs as [Hc' Hcs].
    apply negb_true_iff in Hc'.
    apply (IH Hcs (stateAfter (call c' m))); [|exact Hin].
    by apply call_keeps_unsubscribed.
Qed.

(** The one subscriber leaves; another arrives; listening starts. *)
Lemma unsubscribed_is_never_notified_witness :
  Notify (str "0") (ListeningChange true)
  ∉ effectsOf
      (call (StartListening false None Starts)
         (callAll [Subscribe (str "1") allCallbacks]
            (stateAfter (unsubscribe (str "0") managerWithOneSubscriber)))).
Proof.
  apply (unsubscribed_is_never_notified (str "0") managerWithOneSubscriber
           [Subscribe (str "1") allCallbacks]
           (StartListening false None Starts) (ListeningChange true)).
  reflexivity.
Defined.

(** ** Command Pattern Compiler: commands without parameters *)

Lemma replaceLoop_escaped s turns :
  length s <= turns -> replaceLoop matchEscapeRegExp turns s = escaped s.
Proof.
  revert turns. induction s as [|c s IH]; intros turns Hlen.
  - by destruct turns.
  - destruct turns as [|turns]; [simpl in Hlen; lia|]. simpl in Hlen.
    cbn [replaceLoop matchEscapeRegExp escaped flat_map].
    destruct (isChar c "-{}[]+?.,\^$|#"); cbn [app];
      rewrite IH by lia; reflexivity.
Qed.

Lemma replaceLoop_unchanged matchAt s turns :
  (forall t, forallb literal t = true -> matchAt t = None) ->
  forallb literal s = true ->
  replaceLoop matchAt turns s = s.
Proof.
  intros Hnone. revert s. induction turns as [|turns IH]; intros s Hs; [done|].
  destruct s as [|c s]; [done|]. cbn [replaceLoop].
  rewrite (Hnone _ Hs). simpl in Hs. apply andb_true_iff in Hs as [_ Hs].
  by rewrite IH.
Qed.

Lemma literal_trimStart s :
  forallb literal s = true -> forallb literal (trimStart s) = true.
Proof.
  induction s as [|c s IH]; [done|]. intros Hs. simpl.
  destruct (isSpace c); [|done].
  simpl in Hs. apply andb_true_iff in Hs as [_ Hs]. auto.
Qed.

Lemma literal_not (c : ascii) :
  literal c = true ->
  isChar c "(" = false /\ isChar c ":" = false /\ isChar c "*" = false
  /\ isChar c ")" = false.
Proof.
  unfold literal, isChar. intros H. apply negb_true_iff in H.
  apply bool_decide_eq_false in H.
  repeat split; apply bool_decide_eq_false; intros Hin; apply H;
    apply list_elem_of_In in Hin; apply list_elem_of_In; simpl in *;
    intuition.
Qed.

Lemma matchOptionalParam_literal t :
  forallb literal t = true -> matchOptionalParam t = None.
Proof.
  intros Ht. apply literal_trimStart in Ht. unfold matchOptionalParam.
  destruct (trimStart t) as [|c s]; [done|].
  simpl in Ht. apply andb_true_iff in Ht as [Hc _].
  by rewrite (proj1 (literal_not c Hc)).
Qed.

Lemma startsWith_cons (c : ascii) (p : string) (x : ascii) (s : jstring) :
  x <> c -> startsWith (String c p) (x :: s) = None.
Proof.
  intros Hx. unfold startsWith. simpl. rewrite bool_decide_eq_false_2; [done|].
  intros [=]. done.
Qed.

Lemma isChar_one (c x : ascii) :
  isChar c (String x EmptyString) = false -> c <> x.
Proof.
  unfold isChar. intros H%bool_decide_eq_false Hc. apply H. subst.
  apply list_elem_of_here.
Qed.

Lemma matchNamedParam_literal t :
  forallb literal t = true -> matchNamedParam t = None.
Proof.
  intros Ht. unfold matchNamedParam. destruct t as [|c s]; [done|].
  simpl in Ht. apply andb_true_iff in Ht as [Hc _].
  destruct (literal_not c Hc) as (Ho & Hcolon & _).
  rewrite startsWith_cons by by apply isChar_one.
  by rewrite startsWith_cons by by apply isChar_one.
Qed.

Lemma matchSplatParam_literal t :
  forallb literal t = true -> matchSplatParam t = None.
Proof.
  intros Ht. destruct t as [|c s]; [done|].
  simpl in Ht. apply andb_true_iff in Ht as [Hc _].
  destruct (literal_not c Hc) as (_ & _ & Hs & _). simpl. by rewrite Hs.
Qed.

Lemma matchOptionalRegex_literal t :
  forallb literal t = true -> matchOptionalRegex t = None.
Proof.
  intros Ht. unfold matchOptionalRegex. destruct t as [|c s]; [done|].
  simpl in Ht. apply andb_true_iff in Ht as [Hc _].
  destruct (literal_not c Hc) as (Ho & _).
  by rewrite startsWith_cons by by apply isChar_one.
Qed.

Lemma literal_escaped s :
  forallb literal s = true -> forallb literal (escaped s) = true.
Proof.
  induction s as [|c s IH]; [done|]. intros Hs. simpl in Hs.
  apply andb_true_iff in Hs as [Hc Hs]. cbn [escaped flat_map].
  rewrite forallb_app. fold (escaped s). rewrite (IH Hs), andb_true_r.
  destruct (isChar c "-{}[]+?.,\^$|#"); simpl; rewrite Hc; reflexivity.
Qed.

Lemma processedCommand_literal s :
  forallb literal s = true -> processedCommand s = escaped s.
Proof.
  intros Hs. unfold processedCommand, replaceAll.
  rewrite (replaceLoop_escaped s) by done.
  pose proof (literal_escaped s Hs) as He.
  rewrite (replaceLoop_unchanged matchOptionalParam)
    by (done || apply matchOptionalParam_literal).
  rewrite (replaceLoop_unchanged matchNamedParam)
    by (done || apply matchNamedParam_literal).
  rewrite (replaceLoop_unchanged matchSplatParam)
    by (done || apply matchSplatParam_literal).
  by rewrite (replaceLoop_unchanged matchOptionalRegex)
    by (done || apply matchOptionalRegex_literal).
Qed.

Lemma tokenize_literal_char (c : ascii) (rest : jstring) :
  literal c = true ->
  tokenize None
    ((if isChar c "-{}[]+?.,\^$|#" then ["\"%char; c] else [c]) ++ rest)
  = cons (TAtom (RChar c)) <$> tokenize None rest.
Proof.
  destruct c as [[] [] [] [] [] [] [] []]; intros H;
    first [ discriminate H | reflexivity ].
Qed.

Lemma tokenize_literal s rest :
  forallb literal s = true ->
  tokenize None (escaped s ++ rest)
  = app (map (fun c => TAtom (RChar c)) s) <$> tokenize None rest.
Proof.
  induction s as [|c s IH]; intros Hs.
  - simpl. by destruct (tokenize None rest).
  - simpl in Hs. apply andb_true_iff in Hs as [Hc Hs].
    cbn [escaped flat_map]. fold (escaped s). rewrite <- app_assoc.
    rewrite (tokenize_literal_char c _ Hc), (IH Hs).
    by destruct (tokenize None rest).
Qed.

Lemma parseTokens_atoms rs ts top stack next :
  parseTokens (map TAtom rs ++ ts) top stack next
  = parseTokens ts
      {| frameIndex := frameIndex top;
         frameAlternatives := frameAlternatives top;
         frameTerms := rev rs ++ frameTerms top |}
      stack next.
Proof.
  revert top. induction rs as [|r rs IH]; intros top.
  - by destruct top.
  - cbn [map app parseTokens]. rewrite IH. unfold pushTerm.
    cbn [frameIndex frameAlternatives frameTerms rev].
    by rewrite <- app_assoc.
Qed.

Lemma sequence_chars (s : jstring) (acc : Regex) :
  acc <> REmpty ->
  foldl (fun acc r => match acc with REmpty => r | _ => RSeq r acc end)
    acc (rev (map RChar s))
  = foldr (fun c rest => RSeq (RChar c) rest) acc s.
Proof.
  intros Hacc. induction s as [|c s IH]; [done|].
  cbn [map rev foldr]. rewrite foldl_app, IH. cbn [foldl].
  destruct s; simpl; [by destruct acc|done].
Qed.

Lemma commandToRegExp_literal s :
  forallb literal s = true ->
  commandToRegExp (CommandString s)
  = Some {| pattern := literalPattern s; groupCount := 0; ignoreCase := true |}.
Proof.
  intros Hs. unfold commandToRegExp, newRegExp, commandSource.
  rewrite (processedCommand_literal s Hs).
  change (str "^" ++ escaped s ++ str "$")
    with ("^"%char :: (escaped s ++ str "$")).
  assert (tokenize None ("^"%char :: (escaped s ++ str "$"))
          = Some (map TAtom (RBegin :: map RChar s ++ [REnd]))) as ->.
  { change (tokenize None ("^"%char :: (escaped s ++ str "$")))
      with (cons (TAtom RBegin) <$> tokenize None (escaped s ++ str "$")).
    rewrite (tokenize_literal s _ Hs). cbn. f_equal. f_equal.
    by rewrite map_app, map_map. }
  cbn [mbind option_bind].
  rewrite <- (app_nil_r (map TAtom _)), parseTokens_atoms.
  cbn [parseTokens emptyFrame frameIndex frameAlternatives frameTerms mbind
       option_bind fst snd].
  f_equal. f_equal. unfold frameRegex, sequence, literalPattern.
  cbn [frameAlternatives frameTerms foldl rev].
  rewrite rev_app_distr, app_nil_r. cbn [rev app foldl].
  rewrite foldl_app. cbn [foldl].
  rewrite sequence_chars by done. by destruct s.
Qed.

Lemma matchFrom_literal (s : jstring) :
  forall i t caps (k : Continuation),
    matchFrom true (foldr (fun c rest => RSeq (RChar c) rest) REnd s) i t caps k
    = if sameText s t then k (i + length s) [] caps else None.
Proof.
  unfold sameText.
  induction s as [|c s IH]; intros i t caps k.
  - cbn [foldr matchFrom length]. rewrite Nat.add_0_r.
    destruct t; [done|]. by rewrite bool_decide_eq_false_2.
  - cbn [foldr matchFrom]. destruct t as [|x t].
    + by rewrite bool_decide_eq_false_2.
    + unfold sameChar. cbn [map length]. case_bool_decide as Hc.
      * rewrite IH. replace (S i + length s) with (i + S (length s)) by lia.
        repeat case_bool_decide; try done; congruence.
      * rewrite bool_decide_eq_false_2; [done|]. intros [=]. done.
Qed.

Lemma canonicalize_toLowerChar (c : ascii) :
  canonicalize (toLowerChar c) = canonicalize c
  /\ toLowerChar (canonicalize c) = toLowerChar c.
Proof. by destruct c as [[] [] [] [] [] [] [] []]. Qed.

Lemma sameText_toLowerCase (a b : jstring) :
  sameText a b = jeqb (toLowerCase a) (toLowerCase b).
Proof.
  unfold sameText, jeqb, toLowerCase.
  apply bool_decide_ext. split; intros H.
  - rewrite <- (map_ext _ _ (fun c => proj2 (canonicalize_toLowerChar c)) a),
            <- (map_ext _ _ (fun c => proj2 (canonicalize_toLowerChar c)) b).
    by rewrite <- !(map_map canonicalize toLowerChar), H.
  - rewrite <- (map_ext _ _ (fun c => proj1 (canonicalize_toLowerChar c)) a),
            <- (map_ext _ _ (fun c => proj1 (canonicalize_toLowerChar c)) b).
    by rewrite <- !(map_map toLowerChar canonicalize), H.
Qed.

(** X18.  A command string without parenthesis, colon and asterisk
    compiles, whatever other special characters it holds, and its regular
    expression matches a transcript exactly when the transcript is the
    whole command up to the case of the letters; there are no parameters.
    So [matchCommand] in exact mode answers with that comparison, and a
    transcript that only contains the command does not match. *)
Theorem literal_command_matches_whole_text
    (cmd transcript : jstring) (threshold : Q) :
  forallb literal cmd = true ->
  let same := jeqb (toLowerCase cmd) (toLowerCase transcript) in
  (exists re,
      commandToRegExp (CommandString cmd) = Some re
      /\ exec re transcript = if same then Some [] else None)
  /\ matchCommand [CommandString cmd] transcript false threshold
     = Returns {| isMatch := same;
                  parameters := if same then Some [] else None;
                  similarity := None |}.
Proof.
  intros Hcmd same.
  assert (exec {| pattern := literalPattern cmd; groupCount := 0;
                  ignoreCase := true |} transcript
          = if same then Some [] else None) as Hexec.
  { erewrite exec_anchored by reflexivity.
    cbn [ignoreCase groupCount replicate]. rewrite matchFrom_literal.
    unfold same. by rewrite sameText_toLowerCase. }
  split.
  - eexists. split; [by apply commandToRegExp_literal|exact Hexec].
  - cbn [matchCommand]. rewrite (commandToRegExp_literal cmd Hcmd), Hexec.
    by destruct same.
Qed.

(** The command [What's up?] on the transcript [WHAT'S UP?]. *)
Lemma literal_command_matches_whole_text_witness :
  matchCommand [CommandString (str "What's up?")] (str "WHAT'S UP?") false
    (8 # 10)
  = Returns {| isMatch := true; parameters := Some []; similarity := None |}.
Proof.
  exact (proj2 (literal_command_matches_whole_text (str "What's up?")
                  (str "WHAT'S UP?") (8 # 10) eq_refl)).
Defined.

(** ** Command Pattern Compiler: commands with a parameter *)

Lemma escaped_app a b : escaped (a ++ b) = escaped a ++ escaped b.
Proof. unfold escaped. apply flat_map_app. Qed.

Lemma wordChar_plain (c : ascii) :
  isWordChar c = true ->
  isChar c "-{}[]+?.,\^$|#" = false /\ literal c = true.
Proof. by destruct c as [[] [] [] [] [] [] [] []]. Qed.

Lemma escaped_word s : forallb isWordChar s = true -> escaped s = s.
Proof.
  induction s as [|c s IH]; [done|]. intros H. simpl in H.
  apply andb_true_iff in H as [Hc Hs]. cbn [escaped flat_map].
  fold (escaped s). rewrite (proj1 (wordChar_plain c Hc)), (IH Hs). done.
Qed.

Lemma literal_word s : forallb isWordChar s = true -> forallb literal s = true.
Proof.
  induction s as [|c s IH]; [done|]. intros H. simpl in H |- *.
  apply andb_true_iff in H as [Hc Hs].
  by rewrite (proj2 (wordChar_plain c Hc)), (IH Hs).
Qed.

Lemma replaceLoop_nil matchAt turns : replaceLoop matchAt turns [] = [].
Proof. by destruct turns. Qed.

(** The scan goes over a prefix at no position of which there is a match. *)
Lemma replaceLoop_skip matchAt pre r k :
  (forall j, j < length pre -> matchAt (drop j pre ++ r) = None) ->
  replaceLoop matchAt (length pre + k) (pre ++ r)
  = pre ++ replaceLoop matchAt k r.
Proof.
  induction pre as [|c pre IH]; intros H; [done|].
  cbn [length Nat.add app replaceLoop].
  pose proof (H 0 ltac:(simpl; lia)) as H0. cbn [drop app] in H0.
  rewrite H0. f_equal. apply IH.
  intros j Hj. apply (H (S j)). simpl. lia.
Qed.

Lemma replaceLoop_skip_heads matchAt (P : ascii -> bool) pre r k :
  (forall c t, P c = true -> matchAt (c :: t) = None) ->
  forallb P pre = true ->
  replaceLoop matchAt (length pre + k) (pre ++ r)
  = pre ++ replaceLoop matchAt k r.
Proof.
  intros Hnone Hpre. apply replaceLoop_skip. intros j Hj.
  destruct (drop j pre) as [|c t] eqn:E.
  - apply (f_equal length) in E. rewrite length_drop in E. simpl in E. lia.
  - cbn [app]. apply Hnone.
    assert (c ∈ pre) as Hin.
    { apply (subseteq_drop j pre). rewrite E. apply list_elem_of_here. }
    rewrite forallb_forall in Hpre. apply Hpre. by apply list_elem_of_In.
Qed.

Lemma replaceLoop_step matchAt turns c s :
  replaceLoop matchAt (S turns) (c :: s)
  = match matchAt (c :: s) with
    | Some (replacement, rest) => replacement ++ replaceLoop matchAt turns rest
    | None => c :: replaceLoop matchAt turns s
    end.
Proof. reflexivity. Qed.

Lemma replaceLoop_heads matchAt (P : ascii -> bool) s turns :
  (forall c t, P c = true -> matchAt (c :: t) = None) ->
  forallb P s = true -> replaceLoop matchAt turns s = s.
Proof.
  intros Hnone. revert s. induction turns as [|turns IH]; intros s Hs; [done|].
  destruct s as [|c s]; [done|]. rewrite replaceLoop_step.
  simpl in Hs. apply andb_true_iff in Hs as [Hc Hs].
  by rewrite (Hnone c s Hc), (IH s Hs).
Qed.

Lemma replaceAll_heads matchAt (P : ascii -> bool) s :
  (forall c t, P c = true -> matchAt (c :: t) = None) ->
  forallb P s = true -> replaceAll matchAt s = s.
Proof.
  intros Hnone Hs. unfold replaceAll.
  pose proof (replaceLoop_skip_heads matchAt P s [] 0 Hnone Hs) as H.
  by rewrite Nat.add_0_r, replaceLoop_nil, !app_nil_r in H.
Qed.

Lemma replaceAll_skip_heads matchAt (P : ascii -> bool) pre r :
  (forall c t, P c = true -> matchAt (c :: t) = None) ->
  forallb P pre = true ->
  replaceAll matchAt (pre ++ r) = pre ++ replaceAll matchAt r.
Proof.
  intros Hnone Hpre. unfold replaceAll. rewrite length_app.
  by apply (replaceLoop_skip_heads matchAt P).
Qed.

Lemma literal_weaker (c : ascii) :
  literal c = true ->
  notOpen c = true /\ notStar c = true /\ notOpenNorColon c = true.
Proof. by destruct c as [[] [] [] [] [] [] [] []]. Qed.

Lemma forallb_literal_weaker s :
  forallb literal s = true ->
  forallb notOpen s = true /\ forallb notStar s = true
  /\ forallb notOpenNorColon s = true.
Proof.
  induction s as [|c s IH]; [done|]. intros H. simpl in H |- *.
  apply andb_true_iff in H as [Hc Hs].
  destruct (literal_weaker c Hc) as (-> & -> & ->).
  by destruct (IH Hs) as (-> & -> & ->).
Qed.

Lemma matchNamedParam_head c t :
  notOpenNorColon c = true -> matchNamedParam (c :: t) = None.
Proof.
  intros Hc. unfold matchNamedParam.
  rewrite !startsWith_cons; [done| |].
  - intros ->. done.
  - intros ->. done.
Qed.

Lemma matchSplatParam_head c t :
  notStar c = true -> matchSplatParam (c :: t) = None.
Proof.
  unfold notStar. intros Hc%negb_true_iff. simpl. by rewrite Hc.
Qed.

Lemma matchOptionalRegex_head c t :
  notOpen c = true -> matchOptionalRegex (c :: t) = None.
Proof.
  intros Hc. unfold matchOptionalRegex.
  rewrite startsWith_cons; [done|]. intros ->. done.
Qed.

Lemma matchOptionalParam_notOpen t :
  forallb notOpen t = true -> matchOptionalParam t = None.
Proof.
  intros Ht. unfold matchOptionalParam.
  assert (forallb notOpen (trimStart t) = true) as H.
  { clear -Ht. induction t as [|c t IH]; [done|]. simpl in Ht |- *.
    apply andb_true_iff in Ht as [Hc Ht].
    destruct (isSpace c); [by apply IH|]. simpl. by rewrite Hc, Ht. }
  destruct (trimStart t) as [|c s]; [done|]. simpl in H.
  apply andb_true_iff in H as [Hc _]. unfold notOpen in Hc.
  apply negb_true_iff in Hc. by rewrite Hc.
Qed.

Lemma replaceAll_none matchAt (P : ascii -> bool) s :
  (forall t, forallb P t = true -> matchAt t = None) ->
  forallb P s = true -> replaceAll matchAt s = s.
Proof.
  intros Hnone. unfold replaceAll. generalize (length s) as turns.
  intros turns. revert s. induction turns as [|turns IH]; intros s Hs; [done|].
  destruct s as [|c s]; [done|]. cbn [replaceLoop].
  rewrite (Hnone _ Hs). simpl in Hs. apply andb_true_iff in Hs as [_ Hs].
  by rewrite IH.
Qed.

Lemma span_all (p : ascii -> bool) s :
  forallb p s = true -> span p s = (s, []).
Proof.
  induction s as [|c s IH]; [done|]. intros H. simpl in H |- *.
  apply andb_true_iff in H as [-> Hs]. by rewrite (IH Hs).
Qed.

Lemma span_until (p : ascii -> bool) s c rest :
  forallb p s = true -> p c = false -> span p (s ++ c :: rest) = (s, c :: rest).
Proof.
  intros Hs Hc. induction s as [|x s IH]; simpl.
  - by rewrite Hc.
  - simpl in Hs. apply andb_true_iff in Hs as [-> Hs]. by rewrite (IH Hs).
Qed.

Lemma startsNonWord_escaped q :
  startsNonWord q = true -> startsNonWord (escaped q) = true.
Proof.
  destruct q as [|c q]; [done|]. cbn [escaped flat_map startsNonWord].
  intros Hc. by destruct (isChar c _).
Qed.

Lemma span_word name q :
  forallb isWordChar name = true -> startsNonWord q = true ->
  span isWordChar (name ++ q) = (name, q).
Proof.
  intros Hname Hq. destruct q as [|c q].
  - rewrite app_nil_r. by apply span_all.
  - apply span_until; [done|]. by apply negb_true_iff.
Qed.

Lemma matchNamedParam_colon name q :
  name <> [] -> forallb isWordChar name = true -> startsNonWord q = true ->
  matchNamedParam (":"%char :: name ++ q) = Some (str "([^\s]+)", q).
Proof.
  intros Hne Hname Hq. unfold matchNamedParam.
  rewrite startsWith_cons by done.
  change (startsWith ":" (":"%char :: name ++ q)) with (Some (name ++ q)).
  cbv iota beta.
  rewrite (span_word name q Hname Hq). cbn [fst snd].
  by destruct name.
Qed.

(** The body of the pattern of [p :name q] and of [p * q]. *)
Lemma processedCommand_named p name q :
  forallb literal p = true -> name <> [] -> forallb isWordChar name = true ->
  forallb literal q = true -> startsNonWord q = true ->
  processedCommand (p ++ str ":" ++ name ++ q)
  = escaped p ++ str "([^\s]+)" ++ escaped q.
Proof.
  intros Hp Hne Hname Hq Hstart. unfold processedCommand.
  assert (replaceAll matchEscapeRegExp (p ++ str ":" ++ name ++ q)
          = escaped p ++ str ":" ++ name ++ escaped q) as ->.
  { unfold replaceAll. rewrite replaceLoop_escaped by done.
    rewrite !escaped_app, (escaped_word name Hname). reflexivity. }
  pose proof (literal_escaped p Hp) as He.
  pose proof (literal_escaped q Hq) as Heq.
  destruct (forallb_literal_weaker _ He) as (Ho & Hs & Hc).
  destruct (forallb_literal_weaker _ Heq) as (Hqo & Hqs & Hqc).
  destruct (forallb_literal_weaker _ (literal_word name Hname))
    as (Hno & Hns & Hnc).
  rewrite (replaceAll_none matchOptionalParam notOpen)
    by (try apply matchOptionalParam_notOpen;
        rewrite !forallb_app, Ho, Hno, Hqo; reflexivity).
  rewrite (replaceAll_skip_heads matchNamedParam notOpenNorColon)
    by (try apply matchNamedParam_head; done).
  assert (replaceAll matchNamedParam (str ":" ++ name ++ escaped q)
          = str "([^\s]+)" ++ escaped q) as ->.
  { unfold replaceAll.
    change (str ":" ++ name ++ escaped q) with (":"%char :: name ++ escaped q).
    cbn [length]. rewrite replaceLoop_step.
    rewrite (matchNamedParam_colon name (escaped q) Hne Hname)
      by by apply startsNonWord_escaped.
    by rewrite (replaceLoop_heads _ notOpenNorColon _ _ matchNamedParam_head). }
  rewrite (replaceAll_heads matchSplatParam notStar)
    by (try apply matchSplatParam_head;
        rewrite !forallb_app, Hs, Hqs; reflexivity).
  rewrite (replaceAll_skip_heads matchOptionalRegex notOpen)
    by (try apply matchOptionalRegex_head; done).
  f_equal.
  change (str "([^\s]+)" ++ escaped q) with ("("%char :: str "[^\s]+)" ++ escaped q).
  unfold replaceAll. cbn [length]. rewrite replaceLoop_step.
  assert (matchOptionalRegex ("("%char :: str "[^\s]+)" ++ escaped q) = None)
    as ->.
  { unfold matchOptionalRegex, startsWith. cbn [str list_ascii_of_string app length take].
    by rewrite bool_decide_eq_false_2. }
  f_equal.
  apply (replaceLoop_heads _ notOpen _ _ matchOptionalRegex_head).
  by rewrite forallb_app, Hqo.
Qed.

Lemma processedCommand_splat p q :
  forallb literal p = true -> forallb literal q = true ->
  processedCommand (p ++ str "*" ++ q) = escaped p ++ str "(.*?)" ++ escaped q.
Proof.
  intros Hp Hq. unfold processedCommand.
  assert (replaceAll matchEscapeRegExp (p ++ str "*" ++ q)
          = escaped p ++ str "*" ++ escaped q)
    as ->.
  { unfold replaceAll. rewrite replaceLoop_escaped by done.
    by rewrite !escaped_app. }
  pose proof (literal_escaped p Hp) as He.
  pose proof (literal_escaped q Hq) as Heq.
  destruct (forallb_literal_weaker _ He) as (Ho & Hs & Hc).
  destruct (forallb_literal_weaker _ Heq) as (Hqo & Hqs & Hqc).
  rewrite (replaceAll_none matchOptionalParam notOpen)
    by (try apply matchOptionalParam_notOpen;
        rewrite !forallb_app, Ho, Hqo; reflexivity).
  rewrite (replaceAll_heads matchNamedParam notOpenNorColon)
    by (try apply matchNamedParam_head;
        rewrite !forallb_app, Hc, Hqc; reflexivity).
  rewrite (replaceAll_skip_heads matchSplatParam notStar)
    by (try apply matchSplatParam_head; done).
  assert (replaceAll matchSplatParam (str "*" ++ escaped q)
          = str "(.*?)" ++ escaped q) as ->.
  { unfold replaceAll.
    change (str "*" ++ escaped q) with ("*"%char :: escaped q).
    cbn [length]. rewrite replaceLoop_step.
    change (matchSplatParam ("*"%char :: escaped q))
      with (Some (str "(.*?)", escaped q)).
    cbv iota beta.
    by rewrite (replaceLoop_heads _ notStar _ _ matchSplatParam_head). }
  rewrite (replaceAll_skip_heads matchOptionalRegex notOpen)
    by (try apply matchOptionalRegex_head; done).
  f_equal.
  change (str "(.*?)" ++ escaped q) with ("("%char :: str ".*?)" ++ escaped q).
  unfold replaceAll. cbn [length]. rewrite replaceLoop_step.
  assert (matchOptionalRegex ("("%char :: str ".*?)" ++ escaped q) = None)
    as ->.
  { unfold matchOptionalRegex, startsWith. cbn [str list_ascii_of_string app length take].
    by rewrite bool_decide_eq_false_2. }
  f_equal.
  apply (replaceLoop_heads _ notOpen _ _ matchOptionalRegex_head).
  by rewrite forallb_app, Hqo.
Qed.

(** *** A phrase in parentheses *)

Lemma endsNonSpace_nonnil s : endsNonSpace s = true -> s <> [].
Proof. by destruct s. Qed.

Lemma endsNonSpace_drop s j :
  endsNonSpace s = true -> j < length s -> endsNonSpace (drop j s) = true.
Proof.
  revert j. induction s as [|c s IH]; intros j Hs Hj; [done|].
  destruct j as [|j]; [done|]. cbn [drop]. simpl in Hj.
  destruct s as [|d s]; [simpl in Hj; lia|]. apply IH; [done|lia].
Qed.

Lemma trimStart_endsNonSpace s r :
  endsNonSpace s = true ->
  exists c t, trimStart (s ++ r) = c :: t /\ c ∈ s.
Proof.
  induction s as [|c s IH]; [done|]. intros Hs. cbn [app trimStart].
  destruct (isSpace c) eqn:Ec.
  - destruct s as [|d s]; [simpl in Hs; by rewrite Ec in Hs|].
    destruct (IH Hs) as (x & t & Ht & Hx). exists x, t.
    split; [done|by apply list_elem_of_further].
  - exists c, (s ++ r). split; [done|apply list_elem_of_here].
Qed.

Lemma endsNonSpace_escaped s : endsNonSpace s = true -> endsNonSpace (escaped s) = true.
Proof.
  induction s as [|c s IH]; [done|]. intros Hs. cbn [escaped flat_map].
  fold (escaped s). destruct s as [|d s].
  - cbn [escaped flat_map app]. simpl in Hs.
    destruct (isChar c _); simpl; exact Hs.
  - specialize (IH Hs). rewrite endsNonSpace_app; [done|].
    by apply endsNonSpace_nonnil.
Qed.

Lemma lazyUntilClose_phrase e rest :
  forallb phraseChar e = true ->
  lazyUntilClose (e ++ ")"%char :: rest) = Some (e, rest).
Proof.
  induction e as [|c e IH]; [done|]. intros H. simpl in H.
  apply andb_true_iff in H as [Hc He]. unfold phraseChar in Hc.
  apply andb_true_iff in Hc as [Hl Ht].
  destruct (literal_not c Hl) as (_ & _ & _ & Hclose).
  apply negb_true_iff in Ht. cbn [app lazyUntilClose].
  by rewrite Hclose, Ht, (IH He).
Qed.

Lemma phraseChar_escaped e :
  forallb phraseChar e = true -> forallb phraseChar (escaped e) = true.
Proof.
  induction e as [|c e IH]; [done|]. intros H. simpl in H.
  apply andb_true_iff in H as [Hc He]. cbn [escaped flat_map].
  rewrite forallb_app. fold (escaped e). rewrite (IH He), andb_true_r.
  destruct (isChar c _); simpl; by rewrite Hc.
Qed.

Lemma phraseChar_weaker (c : ascii) :
  phraseChar c = true ->
  literal c = true /\ negb (isChar c ")") = true.
Proof. by destruct c as [[] [] [] [] [] [] [] []]. Qed.

Lemma forallb_phraseChar e :
  forallb phraseChar e = true ->
  forallb literal e = true
  /\ forallb (fun c => negb (isChar c ")")) e = true.
Proof.
  induction e as [|c e IH]; [done|]. intros H. simpl in H |- *.
  apply andb_true_iff in H as [Hc He].
  destruct (phraseChar_weaker c Hc) as [-> ->].
  by destruct (IH He) as [-> ->].
Qed.

Lemma span_app (p : ascii -> bool) s :
  (span p s).1 ++ (span p s).2 = s.
Proof.
  induction s as [|c s IH]; [done|]. simpl. destruct (p c); [|done].
  simpl. by rewrite IH.
Qed.

Lemma span_rest (p P : ascii -> bool) s :
  forallb P s = true -> forallb P (span p s).2 = true.
Proof.
  induction s as [|c s IH]; [done|]. intros Hs. simpl.
  destruct (p c); [|done]. simpl in Hs |- *.
  apply andb_true_iff in Hs as [_ Hs]. by apply IH.
Qed.

(** [namedParam] replaces the opening of a non-capturing group by
    itself. *)
Lemma replaceAll_namedParam_group e :
  forallb literal e = true ->
  replaceAll matchNamedParam (str "(?:" ++ e ++ str ")?")
  = str "(?:" ++ e ++ str ")?".
Proof.
  intros He.
  assert (forallb notOpenNorColon (e ++ str ")?") = true) as Htail.
  { rewrite forallb_app.
    by destruct (forallb_literal_weaker e He) as (_ & _ & ->). }
  unfold replaceAll.
  change (length (str "(?:" ++ e ++ str ")?"))
    with (S (S (S (length (e ++ str ")?"))))).
  generalize (length (e ++ str ")?")). intros turns.
  set (tail := e ++ str ")?") in *.
  change (str "(?:" ++ tail) with ("("%char :: "?"%char :: ":"%char :: tail).
  rewrite replaceLoop_step. unfold matchNamedParam at 1.
  change (startsWith "(?:" ("("%char :: "?"%char :: ":"%char :: tail))
    with (Some tail).
  cbv iota beta.
  destruct (jeqb (span isWordChar tail).1 []) eqn:E.
  - f_equal. rewrite replaceLoop_step.
    rewrite (matchNamedParam_head "?"%char _ eq_refl). f_equal.
    rewrite replaceLoop_step.
    assert (matchNamedParam (":"%char :: tail) = None) as ->.
    { unfold matchNamedParam. rewrite startsWith_cons by done.
      change (startsWith ":" (":"%char :: tail)) with (Some tail).
      cbv iota beta. by rewrite E. }
    f_equal. by apply (replaceLoop_heads _ notOpenNorColon _ _ matchNamedParam_head).
  - rewrite (replaceLoop_heads _ notOpenNorColon _ _ matchNamedParam_head)
      by by apply span_rest.
    rewrite <- app_assoc. by rewrite span_app.
Qed.

Lemma matchOptionalParam_group e rest :
  forallb phraseChar e = true ->
  matchOptionalParam (" "%char :: "("%char :: e ++ ")"%char :: rest)
  = Some (str "(?:" ++ e ++ str ")?", trimStart rest).
Proof.
  intros He. unfold matchOptionalParam.
  change (trimStart (" "%char :: "("%char :: e ++ ")"%char :: rest))
    with ("("%char :: e ++ ")"%char :: rest).
  cbv iota beta. change (isChar "(" "(") with true. cbv iota.
  by rewrite (lazyUntilClose_phrase e rest He).
Qed.

Lemma matchOptionalRegex_group e rest :
  e <> [] -> forallb (fun c => negb (isChar c ")")) e = true ->
  matchOptionalRegex
    ("("%char :: "?"%char :: ":"%char :: e ++ ")"%char :: "?"%char :: rest)
  = Some (str "\s*" ++ str "(?:" ++ e ++ str ")" ++ str "?\s*", rest).
Proof.
  intros Hne He. unfold matchOptionalRegex.
  change (startsWith "(?:" ("("%char :: "?"%char :: ":"%char
                            :: e ++ ")"%char :: "?"%char :: rest))
    with (Some (e ++ ")"%char :: "?"%char :: rest)).
  cbv iota beta.
  rewrite (span_until _ e ")"%char ("?"%char :: rest) He eq_refl).
  cbn [fst snd]. destruct e as [|x e]; [done|].
  change (jeqb (x :: e) []) with false. cbv iota.
  assert (startsWith ")?" (")"%char :: "?"%char :: rest) = Some rest) as ->.
  { unfold startsWith. cbn [str list_ascii_of_string length take drop].
    by rewrite bool_decide_eq_true_2. }
  reflexivity.
Qed.

Lemma processedCommand_optional q phrase :
  forallb literal q = true -> endsNonSpace q = true ->
  phrase <> [] -> forallb phraseChar phrase = true ->
  processedCommand (q ++ str " (" ++ phrase ++ str ")")
  = escaped q ++ str "\s*(?:" ++ escaped phrase ++ str ")?\s*".
Proof.
  intros Hq Hends Hne Hphrase. unfold processedCommand.
  assert (replaceAll matchEscapeRegExp (q ++ str " (" ++ phrase ++ str ")")
          = escaped q ++ str " (" ++ escaped phrase ++ str ")") as ->.
  { unfold replaceAll. rewrite replaceLoop_escaped by done.
    by rewrite !escaped_app. }
  pose proof (literal_escaped q Hq) as Heq.
  destruct (forallb_literal_weaker _ Heq) as (Ho & Hs & Hc).
  pose proof (phraseChar_escaped phrase Hphrase) as Hep.
  destruct (forallb_phraseChar _ Hep) as [Hel Hecl].
  destruct (forallb_literal_weaker _ Hel) as (Heo & Hes & Hec).
  set (e := escaped phrase) in *.
  assert (e <> []) as Hene.
  { subst e. destruct phrase as [|c phrase]; [done|].
    cbn [escaped flat_map]. by destruct (isChar c _). }
  assert (replaceAll matchOptionalParam (escaped q ++ str " (" ++ e ++ str ")")
          = escaped q ++ str "(?:" ++ e ++ str ")?") as ->.
  { unfold replaceAll. rewrite length_app.
    rewrite replaceLoop_skip.
    - f_equal.
      change (str " (" ++ e ++ str ")")
        with (" "%char :: "("%char :: e ++ ")"%char :: []).
      cbn [length]. rewrite replaceLoop_step, (matchOptionalParam_group e [] Hep).
      cbn [trimStart]. by rewrite replaceLoop_nil, app_nil_r.
    - intros j Hj. unfold matchOptionalParam.
      destruct (trimStart_endsNonSpace (drop j (escaped q))
                  (str " (" ++ e ++ str ")")) as (c & t & -> & Hc').
      { apply endsNonSpace_drop; [by apply endsNonSpace_escaped|done]. }
      apply (subseteq_drop j) in Hc'.
      rewrite forallb_forall in Ho. specialize (Ho c).
      rewrite <- list_elem_of_In in Ho. specialize (Ho Hc').
      unfold notOpen in Ho. apply negb_true_iff in Ho. by rewrite Ho. }
  rewrite (replaceAll_skip_heads matchNamedParam notOpenNorColon)
    by (try apply matchNamedParam_head; done).
  rewrite (replaceAll_namedParam_group e Hel).
  rewrite (replaceAll_heads matchSplatParam notStar)
    by (try apply matchSplatParam_head;
        rewrite !forallb_app, Hs, Hes; reflexivity).
  rewrite (replaceAll_skip_heads matchOptionalRegex notOpen)
    by (try apply matchOptionalRegex_head; done).
  f_equal. unfold replaceAll.
  change (str "(?:" ++ e ++ str ")?")
    with ("("%char :: "?"%char :: ":"%char :: e ++ ")"%char :: "?"%char :: []).
  cbn [length]. rewrite replaceLoop_step, (matchOptionalRegex_group e [] Hene Hecl).
  rewrite replaceLoop_nil, app_nil_r.
  cbn [str list_ascii_of_string app]. try rewrite <- !app_assoc; reflexivity.
Qed.

(** *** The patterns of these commands *)

Lemma tokenize_named rest :
  tokenize None (str "([^\s]+)" ++ rest)
  = app [TOpen true; TAtom (RSet true [CSpace false]); TQuant Plus true;
         TClose] <$> tokenize None rest.
Proof.
  transitivity
    (cons (TOpen true) <$>
       (cons (TAtom (RSet true [CSpace false])) <$>
          (cons (TQuant Plus true) <$> (cons TClose <$> tokenize None rest))));
    [reflexivity|by destruct (tokenize None rest)].
Qed.

Lemma tokenize_splat rest :
  tokenize None (str "(.*?)" ++ rest)
  = app [TOpen true; TAtom RAny; TQuant Star false; TClose]
      <$> tokenize None rest.
Proof.
  transitivity
    (cons (TOpen true) <$>
       (cons (TAtom RAny) <$>
          (cons (TQuant Star false) <$> (cons TClose <$> tokenize None rest))));
    [reflexivity|by destruct (tokenize None rest)].
Qed.

Lemma tokenize_optional_open rest :
  tokenize None (str "\s*(?:" ++ rest)
  = app [TAtom (RSet false [CSpace false]); TQuant Star true; TOpen false]
      <$> tokenize None rest.
Proof.
  transitivity
    (cons (TAtom (RSet false [CSpace false])) <$>
       (cons (TQuant Star true) <$> (cons (TOpen false) <$> tokenize None rest)));
    [reflexivity|by destruct (tokenize None rest)].
Qed.

Lemma tokenize_tail q :
  forallb literal q = true ->
  tokenize None (escaped q ++ str "$")
  = Some (map TAtom (map RChar q ++ [REnd])).
Proof.
  intros Hq. rewrite (tokenize_literal q _ Hq). cbn. f_equal.
  by rewrite map_app, map_map.
Qed.

Lemma sequence_snoc rs r :
  sequence (rs ++ [r])
  = match sequence rs with REmpty => r | _ => RSeq r (sequence rs) end.
Proof.
  unfold sequence. rewrite foldl_app. cbn [foldl]. by destruct (foldl _ _ _).
Qed.

Lemma matchFrom_step ic acc r i s caps k :
  matchFrom ic (match acc with REmpty => r | _ => RSeq r acc end) i s caps k
  = matchFrom ic r i s caps (fun i' s' caps' => matchFrom ic acc i' s' caps' k).
Proof. by destruct acc. Qed.

Lemma matchFrom_sequence ic rs :
  forall i s caps k,
    matchFrom ic (sequence (rev rs)) i s caps k = matchTerms ic rs i s caps k.
Proof.
  induction rs as [|r rs IH]; intros i s caps k; [done|].
  cbn [rev matchTerms]. rewrite sequence_snoc, matchFrom_step.
  apply (proj1 (matchFrom_wellBehaved ic r)).
  intros i' s' caps' _ _. apply IH.
Qed.

Lemma matchTerms_ext ic rs :
  forall i s caps k1 k2,
    agreeAfter i s k1 k2 ->
    matchTerms ic rs i s caps k1 = matchTerms ic rs i s caps k2.
Proof.
  induction rs as [|r rs IH]; intros i s caps k1 k2 Hk.
  - apply Hk; lia.
  - cbn [matchTerms]. apply (proj1 (matchFrom_wellBehaved ic r)).
    intros i' s' caps' Hi Hd. apply IH. by apply (agreeAfter_later i s).
Qed.

Lemma matchTerms_app ic rs ts :
  forall i s caps k,
    matchTerms ic (rs ++ ts) i s caps k
    = matchTerms ic rs i s caps
        (fun i' s' caps' => matchTerms ic ts i' s' caps' k).
Proof.
  induction rs as [|r rs IH]; intros i s caps k; [done|].
  cbn [app matchTerms]. apply (proj1 (matchFrom_wellBehaved ic r)).
  intros i' s' caps' _ _. apply IH.
Qed.

(** A pattern that starts with [^] matches at index 0 only. *)
Lemma exec_terms re rs s :
  pattern re = sequence (rev (RBegin :: rs)) ->
  exec re s
  = matchTerms (ignoreCase re) rs 0 s (replicate (groupCount re) None)
      (fun _ _ caps => Some caps).
Proof.
  intros H.
  assert (forall i t caps k,
             matchFrom (ignoreCase re) (pattern re) (S i) t caps k = None)
    as Hlater.
  { intros i t caps k. by rewrite H, matchFrom_sequence. }
  assert (forall t i, execFrom re (S i) t = None) as Hfrom.
  { induction t as [|c t IH]; intros i; cbn [execFrom];
      rewrite Hlater; [done|apply IH]. }
  unfold exec. destruct s as [|c s]; cbn [execFrom];
    rewrite ?Hfrom, orElse_none, H, matchFrom_sequence; reflexivity.
Qed.

Lemma sameText_cons c x a b :
  sameText (c :: a) (x :: b) = sameChar true c x && sameText a b.
Proof.
  unfold sameText, sameChar. cbn [map].
  repeat case_bool_decide; try done; congruence.
Qed.

Lemma sameText_length a b : sameText a b = true -> length a = length b.
Proof.
  unfold sameText. intros H%bool_decide_eq_true.
  apply (f_equal length) in H. by rewrite !length_map in H.
Qed.

Lemma sameText_nil_r a : sameText a [] = bool_decide (a = []).
Proof. destruct a; by unfold sameText. Qed.

(** The characters of a command in front of the rest of its pattern. *)
Lemma matchTerms_chars p rs :
  forall i t caps k,
    matchTerms true (map RChar p ++ rs) i t caps k
    = if sameText p (take (length p) t)
      then matchTerms true rs (i + length p) (drop (length p) t) caps k
      else None.
Proof.
  induction p as [|c p IH]; intros i t caps k.
  - cbn [map app length take drop]. by rewrite Nat.add_0_r.
  - cbn [map app matchTerms matchFrom length]. destruct t as [|x t].
    + by destruct p.
    + cbn [take drop]. rewrite sameText_cons.
      destruct (sameChar true c x); [|done]. rewrite IH.
      by replace (S i + length p) with (i + S (length p)) by lia.
Qed.

Lemma matchTerms_chars_end q :
  forall i t caps,
    matchTerms true (map RChar q ++ [REnd]) i t caps (fun _ _ caps' => Some caps')
    = if sameText q t then Some caps else None.
Proof.
  induction q as [|c q IH]; intros i t caps.
  - cbn [map app matchTerms matchFrom]. by destruct t.
  - cbn [map app matchTerms matchFrom]. destruct t as [|x t]; [done|].
    rewrite sameText_cons. destruct (sameChar true c x); [|done]. apply IH.
Qed.

(** A quantified pattern that matches one character, the characters that
    satisfy [p], in front of a continuation that wants [n] characters to be
    left: it takes all the characters but the last [n], greedy or not. *)
Lemma repeatMatcher_until
    (m : nat -> jstring -> Captures -> Continuation -> option Captures)
    (p : ascii -> bool) greedy (k : Continuation) (n : nat) :
  (forall i caps k', m i [] caps k' = None) ->
  (forall i x s caps k',
      m i (x :: s) caps k' = if p x then k' (S i) s caps else None) ->
  (forall i s caps, length s <> n -> k i s caps = None) ->
  forall s turns i caps,
    length s <= turns ->
    repeatMatcher m [] greedy k turns i s caps
    = if bool_decide (n <= length s) && forallb p (take (length s - n) s)
      then k (i + (length s - n)) (drop (length s - n) s) caps else None.
Proof.
  intros Hnil Hcons Hk.
  induction s as [|x s IH]; intros turns i caps Hlen.
  - cbn [length Nat.sub take drop forallb]. rewrite Nat.add_0_r, andb_true_r.
    assert (repeatMatcher m [] greedy k turns i [] caps = k i [] caps) as ->.
    { destruct turns; cbn [repeatMatcher clearGroups foldr]; rewrite ?Hnil;
        destruct greedy; simpl; by rewrite ?orElse_none. }
    case_bool_decide as Hn; [done|]. apply Hk. simpl. lia.
  - destruct turns as [|turns]; [simpl in Hlen; lia|].
    simpl in Hlen. cbn [repeatMatcher clearGroups foldr].
    rewrite Hcons.
    replace (S i =? i) with false by (symmetry; apply Nat.eqb_neq; lia).
    rewrite IH by lia. cbn [length].
    destruct (decide (n <= length s)) as [Hle|Hgt].
    + rewrite (bool_decide_eq_true_2 (n <= length s) Hle).
      rewrite (bool_decide_eq_true_2 (n <= S (length s))) by lia.
      replace (S (length s) - n) with (S (length s - n)) by lia.
      cbn [take drop forallb andb]. rewrite (Hk i (x :: s)) by (simpl; lia).
      replace (i + S (length s - n)) with (S i + (length s - n)) by lia.
      destruct (p x); destruct greedy; simpl; by rewrite ?orElse_none.
    + rewrite (bool_decide_eq_false_2 (n <= length s) Hgt). cbn [andb].
      assert ((if p x then None else None) = (None : option Captures)) as ->
        by by destruct (p x).
      assert (orElse (if greedy then None else k i (x :: s) caps)
                (fun _ => if greedy then k i (x :: s) caps else None)
              = k i (x :: s) caps) as Hor.
      { destruct greedy; simpl; by rewrite ?orElse_none. }
      destruct (decide (n = S (length s))) as [->|Hne].
      * rewrite bool_decide_eq_true_2 by lia. rewrite Nat.sub_diag.
        cbn [take drop forallb andb]. rewrite Nat.add_0_r.
        destruct greedy; simpl; by rewrite ?orElse_none.
      * rewrite bool_decide_eq_false_2 by lia. cbn [andb].
        rewrite (Hk i (x :: s)) by (simpl; lia). by destruct greedy.
Qed.

Lemma parseTokens_end rs top next :
  frameAlternatives top = [] ->
  parseTokens (map TAtom rs) top [] next
  = Some (sequence (rev rs ++ frameTerms top), next).
Proof.
  intros Halt. rewrite <- (app_nil_r (map TAtom rs)), parseTokens_atoms.
  cbn [parseTokens]. unfold frameRegex.
  cbn [frameAlternatives frameTerms]. by rewrite Halt.
Qed.

(** [p :name q] compiles to [^p([^\s]+)q$]. *)
Lemma commandToRegExp_named p name q :
  forallb literal p = true -> name <> [] -> forallb isWordChar name = true ->
  forallb literal q = true -> startsNonWord q = true ->
  commandToRegExp (CommandString (p ++ str ":" ++ name ++ q))
  = Some {| pattern :=
              sequence
                (rev (RBegin :: map RChar p
                        ++ RGroup (Some 0)
                             (RQuant Plus true (RSet true [CSpace false]))
                        :: map RChar q ++ [REnd]));
            groupCount := 1; ignoreCase := true |}.
Proof.
  intros Hp Hne Hname Hq Hstart.
  unfold commandToRegExp, newRegExp, commandSource.
  rewrite (processedCommand_named p name q Hp Hne Hname Hq Hstart).
  change (str "^" ++ (escaped p ++ str "([^\s]+)" ++ escaped q) ++ str "$")
    with ("^"%char :: ((escaped p ++ str "([^\s]+)" ++ escaped q) ++ str "$")).
  rewrite <- !app_assoc.
  change (tokenize None
            ("^"%char :: escaped p ++ str "([^\s]+)" ++ escaped q ++ str "$"))
    with (cons (TAtom RBegin) <$>
            tokenize None (escaped p ++ str "([^\s]+)" ++ escaped q ++ str "$")).
  rewrite (tokenize_literal p _ Hp), tokenize_named, (tokenize_tail q Hq).
  cbn [fmap option_fmap option_map mbind option_bind].
  rewrite <- (map_map RChar TAtom p).
  change (TAtom RBegin :: map TAtom (map RChar p) ++ ?r)
    with (map TAtom (RBegin :: map RChar p) ++ r).
  rewrite parseTokens_atoms.
  cbn [app parseTokens emptyFrame pushTerm frameIndex frameAlternatives
       frameTerms quantifiable frameRegex foldl].
  rewrite parseTokens_end by reflexivity.
  cbn [mbind option_bind fst snd frameTerms]. f_equal. f_equal.
  unfold sequence at 2. cbn [foldl].
  cbn [rev]. rewrite !rev_app_distr. cbn [rev app].
  rewrite rev_app_distr. cbn [rev app]. rewrite app_nil_r.
  by rewrite <- !app_assoc.
Qed.

(** [p * q] compiles to [^p(.*?)q$]. *)
Lemma commandToRegExp_splat p q :
  forallb literal p = true -> forallb literal q = true ->
  commandToRegExp (CommandString (p ++ str "*" ++ q))
  = Some {| pattern :=
              sequence
                (rev (RBegin :: map RChar p
                        ++ RGroup (Some 0) (RQuant Star false RAny)
                        :: map RChar q ++ [REnd]));
            groupCount := 1; ignoreCase := true |}.
Proof.
  intros Hp Hq.
  unfold commandToRegExp, newRegExp, commandSource.
  rewrite (processedCommand_splat p q Hp Hq).
  change (str "^" ++ (escaped p ++ str "(.*?)" ++ escaped q) ++ str "$")
    with ("^"%char :: ((escaped p ++ str "(.*?)" ++ escaped q) ++ str "$")).
  rewrite <- !app_assoc.
  change (tokenize None
            ("^"%char :: escaped p ++ str "(.*?)" ++ escaped q ++ str "$"))
    with (cons (TAtom RBegin) <$>
            tokenize None (escaped p ++ str "(.*?)" ++ escaped q ++ str "$")).
  rewrite (tokenize_literal p _ Hp), tokenize_splat, (tokenize_tail q Hq).
  cbn [fmap option_fmap option_map mbind option_bind].
  rewrite <- (map_map RChar TAtom p).
  change (TAtom RBegin :: map TAtom (map RChar p) ++ ?r)
    with (map TAtom (RBegin :: map RChar p) ++ r).
  rewrite parseTokens_atoms.
  cbn [app parseTokens emptyFrame pushTerm frameIndex frameAlternatives
       frameTerms quantifiable frameRegex foldl].
  rewrite parseTokens_end by reflexivity.
  cbn [mbind option_bind fst snd frameTerms]. f_equal. f_equal.
  unfold sequence at 2. cbn [foldl].
  cbn [rev]. rewrite !rev_app_distr. cbn [rev app].
  rewrite rev_app_distr. cbn [rev app]. rewrite app_nil_r.
  by rewrite <- !app_assoc.
Qed.

(** [q (phrase)] compiles to [^q\s*(?:phrase)?\s*$]. *)
Lemma commandToRegExp_optional q phrase :
  forallb literal q = true -> endsNonSpace q = true ->
  phrase <> [] -> forallb phraseChar phrase = true ->
  commandToRegExp (CommandString (q ++ str " (" ++ phrase ++ str ")"))
  = Some {| pattern :=
              sequence
                (rev (RBegin :: map RChar q
                        ++ [RQuant Star true (RSet false [CSpace false]);
                            RQuant Opt true
                              (RGroup None (sequence (rev (map RChar phrase))));
                            RQuant Star true (RSet false [CSpace false]);
                            REnd]));
            groupCount := 0; ignoreCase := true |}.
Proof.
  intros Hq Hends Hne Hphrase.
  unfold commandToRegExp, newRegExp, commandSource.
  rewrite (processedCommand_optional q phrase Hq Hends Hne Hphrase).
  change (str "^" ++ (escaped q ++ str "\s*(?:" ++ escaped phrase ++ str ")?\s*")
            ++ str "$")
    with ("^"%char :: ((escaped q ++ str "\s*(?:" ++ escaped phrase
                          ++ str ")?\s*") ++ str "$")).
  rewrite <- !app_assoc.
  change (tokenize None
            ("^"%char :: escaped q ++ str "\s*(?:" ++ escaped phrase
               ++ str ")?\s*" ++ str "$"))
    with (cons (TAtom RBegin) <$>
            tokenize None (escaped q ++ str "\s*(?:" ++ escaped phrase
                             ++ str ")?\s*" ++ str "$")).
  destruct (forallb_phraseChar phrase Hphrase) as [Hlit _].
  rewrite (tokenize_literal q _ Hq), tokenize_optional_open,
    (tokenize_literal phrase _ Hlit).
  change (tokenize None (str ")?\s*" ++ str "$"))
    with (Some [TClose; TQuant Opt true; TAtom (RSet false [CSpace false]);
                TQuant Star true; TAtom REnd]).
  cbn [fmap option_fmap option_map mbind option_bind].
  rewrite <- (map_map RChar TAtom q), <- (map_map RChar TAtom phrase).
  change (TAtom RBegin :: map TAtom (map RChar q) ++ ?r)
    with (map TAtom (RBegin :: map RChar q) ++ r).
  rewrite parseTokens_atoms.
  cbn [app parseTokens emptyFrame pushTerm frameIndex frameAlternatives
       frameTerms quantifiable].
  rewrite parseTokens_atoms.
  cbn [app parseTokens emptyFrame pushTerm frameIndex frameAlternatives
       frameTerms quantifiable frameRegex foldl mbind option_bind fst snd].
  f_equal. f_equal.
  rewrite app_nil_r.
  cbn [rev]. rewrite !rev_app_distr. cbn [rev app].
  by rewrite <- !app_assoc.
Qed.

Lemma sameText_other_length a b :
  length b <> length a -> sameText a b = false.
Proof.
  intros H. destruct (sameText a b) eqn:E; [|done].
  apply sameText_length in E. lia.
Qed.

(** The group of a named parameter in front of the rest [q] of the
    command. *)
Lemma matchTerms_named q i r :
  matchTerms true
    (RGroup (Some 0) (RQuant Plus true (RSet true [CSpace false]))
       :: map RChar q ++ [REnd]) i r [None] (fun _ _ caps => Some caps)
  = match r with
    | x :: r' =>
        if notSpace x && bool_decide (length q <= length r')
           && forallb notSpace (take (length r' - length q) r')
           && sameText q (drop (length r' - length q) r')
        then Some [Some (x :: take (length r' - length q) r')] else None
    | [] => None
    end.
Proof.
  cbn [matchTerms matchFrom groupsOf clearGroups foldr].
  destruct r as [|x r']; [reflexivity|].
  cbn [existsb atomMatches xorb orb]. rewrite orb_false_r.
  unfold notSpace at 1. destruct (isSpace x); [reflexivity|].
  cbn [negb xorb andb].
  rewrite (repeatMatcher_until _ notSpace true _ (length q)); try done.
  - destruct (bool_decide (length q <= length r')) eqn:Hle; [|reflexivity].
    apply bool_decide_eq_true in Hle.
    destruct (forallb notSpace (take (length r' - length q) r'));
      [|reflexivity].
    cbn [andb]. rewrite matchTerms_chars_end.
    destruct (sameText q _); [|reflexivity].
    replace (S i + (length r' - length q) - i)
      with (S (length r' - length q)) by lia.
    reflexivity.
  - intros j y s caps k'. cbn. rewrite orb_false_r. unfold notSpace.
    by destruct (isSpace y).
  - intros j s caps Hs. rewrite matchTerms_chars_end.
    by rewrite sameText_other_length.
Qed.

(** The group of a wildcard in front of the rest [q] of the command. *)
Lemma matchTerms_splat q i r :
  matchTerms true
    (RGroup (Some 0) (RQuant Star false RAny) :: map RChar q ++ [REnd])
    i r [None] (fun _ _ caps => Some caps)
  = if bool_decide (length q <= length r)
       && forallb notLineTerminator (take (length r - length q) r)
       && sameText q (drop (length r - length q) r)
    then Some [Some (take (length r - length q) r)] else None.
Proof.
  cbn [matchTerms matchFrom groupsOf clearGroups foldr].
  rewrite (repeatMatcher_until _ notLineTerminator false _ (length q));
    try done.
  - destruct (bool_decide (length q <= length r)) eqn:Hle; [|reflexivity].
    apply bool_decide_eq_true in Hle.
    destruct (forallb notLineTerminator (take (length r - length q) r));
      [|reflexivity].
    cbn [andb]. rewrite matchTerms_chars_end.
    destruct (sameText q _); [|reflexivity].
    replace (i + (length r - length q) - i) with (length r - length q) by lia.
    reflexivity.
  - intros j y s caps k'. cbn. unfold notLineTerminator.
    by destruct (isLineTerminator y).
  - intros j s caps Hs. rewrite matchTerms_chars_end.
    by rewrite sameText_other_length.
Qed.

Lemma matchTerms_spaces_end i s caps :
  matchTerms true [RQuant Star true (RSet false [CSpace false]); REnd] i s caps
    (fun _ _ caps' => Some caps')
  = if forallb isSpace s then Some caps else None.
Proof.
  cbn [matchTerms matchFrom groupsOf].
  rewrite (repeatMatcher_to_end _ isSpace); try done.
  intros j y t caps' k'. cbn. by rewrite orb_false_r.
Qed.

Lemma groupsOf_chars s : groupsOf (sequence (rev (map RChar s))) = [].
Proof.
  induction s as [|c s IH]; [done|]. cbn [map rev].
  rewrite sequence_snoc. by destruct (sequence (rev (map RChar s))).
Qed.

Lemma matchTerms_cons ic r rs i s caps k :
  matchTerms ic (r :: rs) i s caps k
  = matchFrom ic r i s caps (fun i' s' caps' => matchTerms ic rs i' s' caps' k).
Proof. reflexivity. Qed.

Lemma matchTerms_nil ic i s caps k : matchTerms ic [] i s caps k = k i s caps.
Proof. reflexivity. Qed.

Lemma matchFrom_optional ic r i s caps k :
  matchFrom ic (RQuant Opt true r) i s caps k
  = orElse
      (matchFrom ic r i s (clearGroups (groupsOf r) caps)
         (fun i' s' caps' => if i' =? i then None else k i' s' caps'))
      (fun _ => k i s caps).
Proof. reflexivity. Qed.

Lemma matchFrom_star ic greedy r i s caps k :
  matchFrom ic (RQuant Star greedy r) i s caps k
  = repeatMatcher (matchFrom ic r) (groupsOf r) greedy k (length s) i s caps.
Proof. reflexivity. Qed.

Lemma matchFrom_group ic r i s caps k :
  matchFrom ic (RGroup None r) i s caps k = matchFrom ic r i s caps k.
Proof. reflexivity. Qed.

(** The optional phrase and what follows it. *)
Lemma matchTerms_optional_tail phrase i s caps :
  phrase <> [] ->
  matchTerms true
    [RQuant Opt true (RGroup None (sequence (rev (map RChar phrase))));
     RQuant Star true (RSet false [CSpace false]); REnd] i s caps
    (fun _ _ caps' => Some caps')
  = if (sameText phrase (take (length phrase) s)
        && forallb isSpace (drop (length phrase) s))
       || forallb isSpace s
    then Some caps else None.
Proof.
  intros Hne. rewrite matchTerms_cons, matchFrom_optional, matchFrom_group.
  cbn [groupsOf]. rewrite groupsOf_chars. cbn [clearGroups foldr].
  rewrite matchFrom_sequence.
  rewrite <- (app_nil_r (map RChar phrase)), matchTerms_chars.
  rewrite matchTerms_nil.
  replace (i + length phrase =? i) with false
    by (symmetry; apply Nat.eqb_neq; destruct phrase; [done|simpl; lia]).
  rewrite !matchTerms_spaces_end.
  destruct (sameText phrase _); cbn [andb orb];
    [destruct (forallb isSpace (drop _ _)); cbn [orElse orb]|];
    by destruct (forallb isSpace s).
Qed.

(** A greedy quantified pattern that matches one character, the characters
    that satisfy [p], in front of a run of such characters that ends there:
    it takes the whole run, when the continuation that fails after the run
    fails inside the run too. *)
Lemma repeatMatcher_greedy_run
    (m : nat -> jstring -> Captures -> Continuation -> option Captures)
    (p : ascii -> bool) (k : Continuation) (r : jstring) (caps : Captures) :
  (forall i caps k', m i [] caps k' = None) ->
  (forall i x s caps k',
      m i (x :: s) caps k' = if p x then k' (S i) s caps else None) ->
  match r with [] => True | c :: _ => p c = false end ->
  forall run turns i,
    forallb p run = true ->
    length (run ++ r) <= turns ->
    (forall j, j < length run ->
               k (i + length run) r caps = None ->
               k (i + j) (drop j run ++ r) caps = None) ->
    repeatMatcher m [] true k turns i (run ++ r) caps
    = k (i + length run) r caps.
Proof.
  intros Hnil Hcons Hr.
  induction run as [|x run IH]; intros turns i Hrun Hlen Hk.
  - cbn [app length]. rewrite Nat.add_0_r.
    destruct turns; cbn [repeatMatcher clearGroups foldr]; [done|].
    destruct r as [|c r]; [by rewrite Hnil|]. by rewrite Hcons, Hr.
  - destruct turns as [|turns]; [simpl in Hlen; lia|].
    simpl in Hlen, Hrun. apply andb_true_iff in Hrun as [Hx Hrun].
    cbn [app repeatMatcher clearGroups foldr]. rewrite Hcons, Hx.
    replace (S i =? i) with false by (symmetry; apply Nat.eqb_neq; lia).
    rewrite (IH turns (S i) Hrun); [|lia|].
    2: { intros j Hj Hnone. replace (S i + j) with (i + S j) by lia.
         apply (Hk (S j)); [simpl; lia|].
         by replace (i + length (x :: run)) with (S i + length run)
           by (simpl; lia). }
    replace (i + length (x :: run)) with (S i + length run) by (simpl; lia).
    destruct (k (S i + length run) r caps) eqn:E; [done|]. cbn [orElse].
    pose proof (Hk 0 ltac:(simpl; lia)) as H0.
    rewrite Nat.add_0_r in H0. cbn [drop app] in H0. apply H0.
    by replace (i + length (x :: run)) with (S i + length run)
      by (simpl; lia).
Qed.

Lemma canonicalize_space (c : ascii) : isSpace (canonicalize c) = isSpace c.
Proof. by destruct c as [[] [] [] [] [] [] [] []]. Qed.

Lemma sameChar_space c x : sameChar true c x = true -> isSpace c = isSpace x.
Proof.
  unfold sameChar. intros H%bool_decide_eq_true.
  by rewrite <- (canonicalize_space c), H, canonicalize_space.
Qed.

Lemma trimStart_split s :
  exists run, s = run ++ trimStart s /\ forallb isSpace run = true.
Proof.
  induction s as [|c s (run & Hs & Hrun)]; [by exists []|].
  cbn [trimStart]. destruct (isSpace c) eqn:E.
  - exists (c :: run). cbn [app forallb]. by rewrite E, <- Hs.
  - by exists [].
Qed.

Lemma trimStart_head s :
  match trimStart s with [] => True | c :: _ => isSpace c = false end.
Proof.
  induction s as [|c s IH]; [done|]. cbn [trimStart].
  by destruct (isSpace c) eqn:E.
Qed.

Lemma trimStart_run run s :
  forallb isSpace run = true -> trimStart (run ++ s) = trimStart s.
Proof.
  induction run as [|c run IH]; [done|]. intros H. simpl in H.
  apply andb_true_iff in H as [Hc Hrun]. cbn [app trimStart].
  by rewrite Hc, IH.
Qed.

Lemma forallb_isSpace_trimStart s :
  forallb isSpace (trimStart s) = forallb isSpace s.
Proof.
  induction s as [|c s IH]; [done|]. cbn [trimStart forallb].
  destruct (isSpace c) eqn:E; [done|]. cbn [forallb]. by rewrite E.
Qed.

(** The white space, the optional phrase and what follows it. *)
Lemma matchTerms_optional phrase i s :
  startsNonSpace phrase = true ->
  matchTerms true
    [RQuant Star true (RSet false [CSpace false]);
     RQuant Opt true (RGroup None (sequence (rev (map RChar phrase))));
     RQuant Star true (RSet false [CSpace false]); REnd] i s []
    (fun _ _ caps' => Some caps')
  = if (sameText phrase (take (length phrase) (trimStart s))
        && forallb isSpace (drop (length phrase) (trimStart s)))
       || forallb isSpace s
    then Some [] else None.
Proof.
  intros Hstart.
  assert (phrase <> []) as Hne by by destruct phrase.
  rewrite matchTerms_cons, matchFrom_star. cbn [groupsOf].
  destruct (trimStart_split s) as (run & Hs & Hrun).
  pose proof (trimStart_head s) as Hhead.
  rewrite <- (forallb_isSpace_trimStart s).
  set (r := trimStart s) in *. rewrite Hs at 1 2.
  rewrite (repeatMatcher_greedy_run _ isSpace _ r []); try done.
  - by rewrite matchTerms_optional_tail.
  - intros j y t caps' k'. cbn. by rewrite orb_false_r.
  - intros j Hj. rewrite !matchTerms_optional_tail by done.
    destruct (drop j run) as [|x run'] eqn:E.
    { apply (f_equal length) in E. rewrite length_drop in E. simpl in E. lia. }
    assert (isSpace x = true /\ forallb isSpace run' = true) as [Hx Hrun'].
    { assert (forallb isSpace (drop j run) = true) as H.
      { rewrite forallb_forall in Hrun. apply forallb_forall.
        intros c Hc%list_elem_of_In. apply Hrun, list_elem_of_In.
        by apply (subseteq_drop j run). }
      rewrite E in H. simpl in H. by apply andb_true_iff in H. }
    destruct phrase as [|c phrase]; [done|]. cbn [length take app].
    rewrite sameText_cons.
    assert (sameChar true c x = false) as ->.
    { destruct (sameChar true c x) eqn:Ec; [|done].
      apply sameChar_space in Ec. simpl in Hstart.
      apply negb_true_iff in Hstart. congruence. }
    cbn [andb orb forallb]. rewrite Hx, forallb_app, Hrun'. cbn [andb].
    destruct (forallb isSpace r); [|done].
    by rewrite orb_true_r.
Qed.

Lemma sameText_lower a b :
  sameText a b = true <-> toLowerCase b = toLowerCase a.
Proof.
  rewrite sameText_toLowerCase. unfold jeqb. rewrite bool_decide_eq_true.
  split; congruence.
Qed.

Lemma lower_length a b : toLowerCase b = toLowerCase a -> length b = length a.
Proof.
  intros H. apply (f_equal length) in H. unfold toLowerCase in H.
  by rewrite !length_map in H.
Qed.

(** What [p :name q] matches: the texts [p' w q'] in which [p'] and [q'] are
    [p] and [q] up to case and [w] is one token without white space, the
    parameter. *)
Lemma named_command_matches p name q :
  forallb literal p = true -> name <> [] -> forallb isWordChar name = true ->
  forallb literal q = true -> startsNonWord q = true ->
  exists re,
    commandToRegExp (CommandString (p ++ str ":" ++ name ++ q)) = Some re
    /\ forall t caps,
         exec re t = Some caps
         <-> exists p' w q',
               t = p' ++ w ++ q'
               /\ toLowerCase p' = toLowerCase p
               /\ toLowerCase q' = toLowerCase q
               /\ w <> [] /\ forallb notSpace w = true
               /\ caps = [Some w].
Proof.
  intros Hp Hne Hname Hq Hstart. eexists.
  split; [by apply commandToRegExp_named|].
  intros t caps. erewrite exec_terms by reflexivity.
  cbn [ignoreCase groupCount replicate].
  rewrite matchTerms_chars, matchTerms_named. split.
  - destruct (sameText p (take (length p) t)) eqn:Ep; [|done].
    destruct (drop (length p) t) as [|x r'] eqn:Er; [done|].
    destruct (notSpace x) eqn:Ex; [|done].
    destruct (bool_decide (length q <= length r')) eqn:Hle; [|done].
    destruct (forallb notSpace (take (length r' - length q) r')) eqn:Ew;
      [|done].
    destruct (sameText q (drop (length r' - length q) r')) eqn:Eq; [|done].
    cbn [andb]. intros [= <-].
    exists (take (length p) t), (x :: take (length r' - length q) r'),
      (drop (length r' - length q) r').
    apply sameText_lower in Ep, Eq.
    repeat split; try done.
    + cbn [app]. rewrite take_drop, <- Er. by rewrite take_drop.
    + cbn [forallb]. by rewrite Ex, Ew.
  - intros (p' & w & q' & -> & Hp' & Hq' & Hw & Hns & ->).
    pose proof (lower_length _ _ Hp') as Lp.
    pose proof (lower_length _ _ Hq') as Lq.
    rewrite take_app_length', drop_app_length' by done.
    rewrite (proj2 (sameText_lower p p') Hp').
    destruct w as [|x w]; [done|]. cbn [app forallb] in *.
    apply andb_true_iff in Hns as [Hx Hns]. rewrite Hx.
    rewrite length_app, bool_decide_eq_true_2 by lia.
    replace (length w + length q' - length q) with (length w) by lia.
    rewrite take_app_length, drop_app_length, Hns.
    by rewrite (proj2 (sameText_lower q q') Hq').
Qed.

(** What [p * q] matches: the texts [p' x q'] in which [p'] and [q'] are
    [p] and [q] up to case and [x] has no line terminator; [x] is the
    parameter. *)
Lemma splat_command_matches p q :
  forallb literal p = true -> forallb literal q = true ->
  exists re,
    commandToRegExp (CommandString (p ++ str "*" ++ q)) = Some re
    /\ pattern re
       = sequence
           (rev (RBegin :: map RChar p
                   ++ RGroup (Some 0) (RQuant Star false RAny)
                   :: map RChar q ++ [REnd]))
    /\ forall t caps,
         exec re t = Some caps
         <-> exists p' x q',
               t = p' ++ x ++ q'
               /\ toLowerCase p' = toLowerCase p
               /\ toLowerCase q' = toLowerCase q
               /\ forallb notLineTerminator x = true
               /\ caps = [Some x].
Proof.
  intros Hp Hq. eexists.
  split; [by apply commandToRegExp_splat|]. split; [reflexivity|].
  intros t caps. erewrite exec_terms by reflexivity.
  cbn [ignoreCase groupCount replicate].
  rewrite matchTerms_chars, matchTerms_splat. split.
  - destruct (sameText p (take (length p) t)) eqn:Ep; [|done].
    set (r := drop (length p) t).
    destruct (bool_decide (length q <= length r)) eqn:Hle; [|done].
    destruct (forallb notLineTerminator (take (length r - length q) r)) eqn:Ew;
      [|done].
    destruct (sameText q (drop (length r - length q) r)) eqn:Eq; [|done].
    cbn [andb]. intros [= <-].
    exists (take (length p) t), (take (length r - length q) r),
      (drop (length r - length q) r).
    apply sameText_lower in Ep, Eq.
    repeat split; try done.
    rewrite take_drop. unfold r. by rewrite take_drop.
  - intros (p' & x & q' & -> & Hp' & Hq' & Hx & ->).
    pose proof (lower_length _ _ Hp') as Lp.
    pose proof (lower_length _ _ Hq') as Lq.
    rewrite take_app_length', drop_app_length' by done.
    rewrite (proj2 (sameText_lower p p') Hp').
    rewrite length_app, bool_decide_eq_true_2 by lia.
    replace (length x + length q' - length q) with (length x) by lia.
    rewrite take_app_length, drop_app_length, Hx.
    by rewrite (proj2 (sameText_lower q q') Hq').
Qed.

Lemma trimStart_spaces s : forallb isSpace s = true -> trimStart s = [].
Proof.
  induction s as [|c s IH]; [done|]. intros H. simpl in H |- *.
  apply andb_true_iff in H as [-> Hs]. by apply IH.
Qed.

Lemma sameText_starts a b :
  sameText a b = true -> startsNonSpace a = true -> startsNonSpace b = true.
Proof.
  destruct a as [|c a]; [done|]. destruct b as [|x b]; [done|].
  rewrite sameText_cons. intros [Hc _]%andb_true_iff.
  cbn [startsNonSpace]. by rewrite (sameChar_space c x Hc).
Qed.

(** What [q (phrase)] matches: the texts in which [q] up to case is
    followed by white space, or by white space, the phrase up to case and
    white space; there is no parameter. *)
Lemma optional_command_matches q phrase :
  forallb literal q = true -> endsNonSpace q = true ->
  startsNonSpace phrase = true -> forallb phraseChar phrase = true ->
  exists re,
    commandToRegExp (CommandString (q ++ str " (" ++ phrase ++ str ")"))
    = Some re
    /\ forall t caps,
         exec re t = Some caps
         <-> exists q' before said after,
               t = q' ++ before ++ said ++ after
               /\ toLowerCase q' = toLowerCase q
               /\ forallb isSpace before = true
               /\ (said = [] \/ toLowerCase said = toLowerCase phrase)
               /\ forallb isSpace after = true
               /\ caps = [].
Proof.
  intros Hq Hends Hstart Hphrase.
  assert (phrase <> []) as Hne by by destruct phrase.
  eexists. split; [by apply commandToRegExp_optional|].
  intros t caps. erewrite exec_terms by reflexivity.
  cbn [ignoreCase groupCount replicate].
  rewrite matchTerms_chars, matchTerms_optional by done. split.
  - destruct (sameText q (take (length q) t)) eqn:Eq; [|done].
    set (s := drop (length q) t).
    destruct (trimStart_split s) as (run & Hs & Hrun).
    apply sameText_lower in Eq.
    destruct (sameText phrase (take (length phrase) (trimStart s))
              && forallb isSpace (drop (length phrase) (trimStart s))) eqn:E.
    + cbn [orb]. intros [= <-].
      apply andb_true_iff in E as [E1 E2]. apply sameText_lower in E1.
      exists (take (length q) t), run, (take (length phrase) (trimStart s)),
        (drop (length phrase) (trimStart s)).
      repeat split; try done; [|by right].
      rewrite take_drop, <- Hs. unfold s. by rewrite take_drop.
    + cbn [orb]. destruct (forallb isSpace s) eqn:Es; [|done].
      intros [= <-]. exists (take (length q) t), s, [], [].
      repeat split; try done; [|by left].
      rewrite !app_nil_r. unfold s. by rewrite take_drop.
  - intros (q' & before & said & after & -> & Hq' & Hb & Hsaid & Ha & ->).
    pose proof (lower_length _ _ Hq') as Lq.
    rewrite take_app_length', drop_app_length' by done.
    rewrite (proj2 (sameText_lower q q') Hq').
    rewrite (trimStart_run before _ Hb).
    destruct Hsaid as [->|Hsaid].
    + cbn [app]. rewrite forallb_app, Hb, Ha. cbn [andb].
      by rewrite orb_true_r.
    + pose proof (lower_length _ _ Hsaid) as Ls.
      apply sameText_lower in Hsaid.
      pose proof (sameText_starts _ _ Hsaid Hstart) as Hs.
      assert (trimStart (said ++ after) = said ++ after) as ->.
      { destruct said as [|c said]; [done|]. cbn [app trimStart].
        simpl in Hs. apply negb_true_iff in Hs. by rewrite Hs. }
      rewrite take_app_length', drop_app_length' by done.
      by rewrite Hsaid, Ha.
Qed.

(** *** The transcripts that commands are tested against *)

Lemma lineTerminator_space (c : ascii) :
  isLineTerminator c = true -> isSpace c = true.
Proof. by destruct c as [[] [] [] [] [] [] [] []]. Qed.

Lemma word_notLineTerminator w :
  isWord w -> forallb notLineTerminator w = true.
Proof.
  intros [_ Hw]. apply forallb_forall. intros c Hc.
  rewrite Forall_forall in Hw. specialize (Hw c Hc). unfold notLineTerminator.
  destruct (isLineTerminator c) eqn:E; [|done].
  apply lineTerminator_space in E. congruence.
Qed.

Lemma join_notLineTerminator ws :
  Forall isWord ws -> forallb notLineTerminator (join (str " ") ws) = true.
Proof.
  induction 1 as [|w ws Hw Hws IH]; [done|].
  destruct ws as [|v ws]; [by apply word_notLineTerminator|].
  change (join (str " ") (w :: v :: ws))
    with (w ++ str " " ++ join (str " ") (v :: ws)).
  by rewrite !forallb_app, (word_notLineTerminator w Hw), IH.
Qed.

(** A normalized transcript has no line terminator: its white space is
    single spaces. *)
Lemma normalized_notLineTerminator s :
  removeDuplicateWords s = s -> forallb notLineTerminator s = true.
Proof.
  intros H. destruct (normalized_joined s H) as (ws & Hws & _ & -> & _).
  by apply join_notLineTerminator.
Qed.

Lemma concatTranscripts_notLineTerminator parts :
  forallb notLineTerminator (concatTranscripts parts) = true.
Proof. apply normalized_notLineTerminator, removeDuplicateWords_idem. Qed.

Lemma tested_notLineTerminator m item interim :
  reachable m ->
  forallb notLineTerminator
    (testedTranscript item interim (finalTranscriptState m)) = true.
Proof.
  intros Hm. unfold testedTranscript. destruct (matchInterim item).
  - apply concatTranscripts_notLineTerminator.
  - by apply normalized_notLineTerminator, reachable_normalized.
Qed.

(** C6.  Compiling a command string gives an anchored, case-insensitive
    regular expression, [^...$] with the [i] flag: a command without
    parameter matches the texts that are the command up to case.  A [:name]
    token is the group [([^\s]+)]: the command [p :name q] matches the
    texts [p' w q'] in which [p'] and [q'] are [p] and [q] up to case and [w]
    is exactly one token, not empty and without white space, and [w] is the
    parameter.  [*] is the lazy group [(.*?)]: the command [p * q] matches
    the texts [p' x q'] in which [x] is any run of characters without line
    terminator, and [x] is the parameter; the transcripts that commands are
    tested against have no line terminator, their white space being single
    spaces, so that on them [*] matches any run of characters, white space
    included.  A phrase in parentheses is optional, with the white space
    around it: [q (phrase)] matches [q], white space, and then nothing or
    the phrase and white space.  So [I want *] matches
    [I want pizza and fries], [I am :name] does not match [I am Mary Smith],
    [Hello (there)] matches [Hello] and [Hello there] and not [Hello the],
    and of two wildcards the first one takes as little as it can. *)
Theorem command_pattern_compiler :
  (forall cmd : jstring,
      forallb literal cmd = true ->
      commandSource cmd = str "^" ++ escaped cmd ++ str "$"
      /\ exists re,
           commandToRegExp (CommandString cmd) = Some re
           /\ forall t,
                exec re t
                = if jeqb (toLowerCase t) (toLowerCase cmd)
                  then Some [] else None)
  /\ (forall p name q : jstring,
         forallb literal p = true ->
         name <> [] -> forallb isWordChar name = true ->
         forallb literal q = true -> startsNonWord q = true ->
         commandSource (p ++ str ":" ++ name ++ q)
         = str "^" ++ escaped p ++ str "([^\s]+)" ++ escaped q ++ str "$"
         /\ exists re,
              commandToRegExp (CommandString (p ++ str ":" ++ name ++ q))
              = Some re
              /\ forall t caps,
                   exec re t = Some caps
                   <-> exists p' w q',
                         t = p' ++ w ++ q'
                         /\ toLowerCase p' = toLowerCase p
                         /\ toLowerCase q' = toLowerCase q
                         /\ w <> [] /\ forallb notSpace w = true
                         /\ caps = [Some w])
  /\ (forall p q : jstring,
         forallb literal p = true -> forallb literal q = true ->
         commandSource (p ++ str "*" ++ q)
         = str "^" ++ escaped p ++ str "(.*?)" ++ escaped q ++ str "$"
         /\ exists re,
              commandToRegExp (CommandString (p ++ str "*" ++ q)) = Some re
              /\ pattern re
                 = sequence
                     (rev (RBegin :: map RChar p
                             ++ RGroup (Some 0) (RQuant Star false RAny)
                             :: map RChar q ++ [REnd]))
              /\ (forall t caps,
                     exec re t = Some caps
                     <-> exists p' x q',
                           t = p' ++ x ++ q'
                           /\ toLowerCase p' = toLowerCase p
                           /\ toLowerCase q' = toLowerCase q
                           /\ forallb notLineTerminator x = true
                           /\ caps = [Some x])
              /\ (forall m item interim p' x q',
                     reachable m ->
                     testedTranscript item interim (finalTranscriptState m)
                     = p' ++ x ++ q' ->
                     toLowerCase p' = toLowerCase p ->
                     toLowerCase q' = toLowerCase q ->
                     exec re (p' ++ x ++ q') = Some [Some x]))
  /\ (forall parts : list jstring,
         forallb notLineTerminator (concatTranscripts parts) = true)
  /\ (forall m item interim,
         reachable m ->
         forallb notLineTerminator
           (testedTranscript item interim (finalTranscriptState m)) = true)
  /\ (forall q phrase : jstring,
         forallb literal q = true -> endsNonSpace q = true ->
         startsNonSpace phrase = true -> forallb phraseChar phrase = true ->
         commandSource (q ++ str " (" ++ phrase ++ str ")")
         = str "^" ++ escaped q ++ str "\s*(?:" ++ escaped phrase
             ++ str ")?\s*$"
         /\ exists re,
              commandToRegExp
                (CommandString (q ++ str " (" ++ phrase ++ str ")"))
              = Some re
              /\ forall t caps,
                   exec re t = Some caps
                   <-> exists q' before said after,
                         t = q' ++ before ++ said ++ after
                         /\ toLowerCase q' = toLowerCase q
                         /\ forallb isSpace before = true
                         /\ (said = [] \/ toLowerCase said = toLowerCase phrase)
                         /\ forallb isSpace after = true
                         /\ caps = [])
  /\ exec (compiled "I want *") (str "I want pizza and fries")
     = Some [Some (str "pizza and fries")]
  /\ exec (compiled "I am :name") (str "I am Mary") = Some [Some (str "Mary")]
  /\ compiledTest "I am :name" (str "I am Mary Smith") = false
  /\ compiledTest "Hello (there)" (str "Hello") = true
  /\ compiledTest "Hello (there)" (str "Hello there") = true
  /\ compiledTest "Hello (there)" (str "HELLO  THERE ") = true
  /\ compiledTest "Hello (there)" (str "Hello the") = false
  /\ compiledTest "Hello (there)" (str "Oh Hello there") = false
  /\ exec (compiled "* and *") (str "a and b and c")
     = Some [Some (str "a"); Some (str "b and c")].
Proof.
  split.
  { intros cmd Hcmd. split.
    - unfold commandSource. by rewrite processedCommand_literal.
    - eexists. split; [by apply commandToRegExp_literal|]. intros t.
      erewrite exec_anchored by reflexivity.
      cbn [ignoreCase groupCount replicate].
      rewrite matchFrom_literal, sameText_toLowerCase. unfold jeqb.
      repeat case_bool_decide; try done; congruence. }
  split.
  { intros p name q Hp Hne Hname Hq Hstart. split.
    - unfold commandSource. rewrite processedCommand_named by done.
      by rewrite <- !app_assoc.
    - by apply named_command_matches. }
  split.
  { intros p q Hp Hq. split.
    - unfold commandSource. rewrite processedCommand_splat by done.
      by rewrite <- !app_assoc.
    - destruct (splat_command_matches p q Hp Hq) as (re & Hre & Hpat & Hiff).
      exists re. repeat split; try done; try apply Hiff.
      intros m item interim p' x q' Hm Ht Hp' Hq'. apply Hiff.
      exists p', x, q'. repeat split; try done.
      pose proof (tested_notLineTerminator m item interim Hm) as H.
      rewrite Ht, !forallb_app in H.
      by apply andb_true_iff in H as [_ [H _]%andb_true_iff]. }
  split; [apply concatTranscripts_notLineTerminator|].
  split; [apply tested_notLineTerminator|].
  split.
  { intros q phrase Hq Hends Hstart Hphrase. split.
    - unfold commandSource.
      rewrite processedCommand_optional by (done || by destruct phrase).
      by rewrite <- !app_assoc.
    - by apply optional_command_matches. }
  repeat split; vm_compute; reflexivity.
Qed.

(** [The weather is :condition today] on [the weather is sunny today],
    [I would like to order *] on [I would like to order pizza and fries],
    and [Pass the salt (please)] on [pass the salt] and on
    [Pass the salt please]. *)
Lemma command_pattern_compiler_witness :
  (exists re,
      commandToRegExp (CommandString (str "The weather is :condition today"))
      = Some re
      /\ exec re (str "the weather is sunny today") = Some [Some (str "sunny")])
  /\ (exists re,
         commandToRegExp (CommandString (str "I would like to order *"))
         = Some re
         /\ exec re (str "I would like to order pizza and fries")
            = Some [Some (str "pizza and fries")])
  /\ (exists re,
         commandToRegExp (CommandString (str "Pass the salt (please)"))
         = Some re
         /\ exec re (str "pass the salt") = Some []
         /\ exec re (str "Pass the salt please") = Some []).
Proof.
  destruct command_pattern_compiler
    as (_ & Hnamed & Hsplat & _ & _ & Hoptional & _).
  split; [|split].
  - destruct (Hnamed (str "The weather is ") (str "condition") (str " today")
                eq_refl ltac:(discriminate) eq_refl eq_refl eq_refl)
      as (_ & re & Hre & Hiff).
    exists re. split; [exact Hre|]. apply Hiff.
    exists (str "the weather is "), (str "sunny"), (str " today").
    repeat split. discriminate.
  - destruct (Hsplat (str "I would like to order ") [] eq_refl eq_refl)
      as (_ & re & Hre & _ & Hiff & _).
    exists re. split; [exact Hre|]. apply Hiff.
    exists (str "I would like to order "), (str "pizza and fries"), [].
    repeat split.
  - destruct (Hoptional (str "Pass the salt") (str "please")
                eq_refl eq_refl eq_refl eq_refl)
      as (_ & re & Hre & Hiff).
    exists re. split; [exact Hre|]. split; apply Hiff.
    + exists (str "pass the salt"), [], [], []. repeat split. by left.
    + exists (str "Pass the salt"), (str " "), (str "please"), [].
      repeat split. by right.
Defined.

(** ** Command Matching Engine: fuzzy mode *)

Lemma alphaNum_not_space (c : ascii) : isAlphaNum c = true -> isSpace c = false.
Proof. by destruct c as [[] [] [] [] [] [] [] []]. Qed.

Lemma tidy_collapseSpaces inRun s :
  tidy inRun
    (collapseSpaces inRun
       (map (fun c => if isAlphaNum c || isSpace c then c else " "%char) s))
  = true.
Proof.
  revert inRun. induction s as [|c s IH]; intros inRun; [done|].
  cbn [map collapseSpaces].
  destruct (isAlphaNum c) eqn:Ha; cbn [orb].
  - rewrite (alphaNum_not_space c Ha). cbn [tidy].
    by rewrite (alphaNum_not_space c Ha), Ha, IH.
  - assert (isSpace (if isSpace c then c else " "%char) = true) as ->
      by by destruct (isSpace c) eqn:Hs.
    destruct inRun; [apply IH|]. cbn [tidy]. by rewrite IH.
Qed.

Lemma tidy_weaken s : tidy true s = true -> tidy false s = true.
Proof.
  destruct s as [|c s]; [done|]. simpl. by destruct (isSpace c).
Qed.

Lemma tidy_trimStart inRun s :
  tidy inRun s = true -> tidy false (trimStart s) = true.
Proof.
  revert inRun. induction s as [|c s IH]; intros inRun; [done|]. simpl.
  destruct (isSpace c) eqn:Hs.
  - intros H. apply andb_true_iff in H as [_ H]. by apply (IH true).
  - intros H. simpl. by rewrite Hs.
Qed.

Lemma tidy_trimEnd inRun s :
  tidy inRun s = true -> tidy inRun (trimEnd s) = true.
Proof.
  revert inRun. induction s as [|c s IH]; intros inRun; [done|].
  cbn [tidy trimEnd]. destruct (isSpace c) eqn:Hs.
  - intros H. apply andb_true_iff in H as [H1 H2]. apply IH in H2.
    destruct (trimEnd s) as [|x t] eqn:E; [done|].
    rewrite <- E in H2 |- *. cbn [tidy]. by rewrite Hs, H1, H2.
  - intros H. apply andb_true_iff in H as [H1 H2]. apply IH in H2.
    destruct (trimEnd s) as [|x t] eqn:E; rewrite <- ?E in H2 |- *;
      cbn [tidy]; by rewrite Hs, H1, ?H2.
Qed.

Lemma tidy_unchanged inRun s :
  tidy inRun s = true ->
  map (fun c => if isAlphaNum c || isSpace c then c else " "%char) s = s
  /\ collapseSpaces inRun s = s.
Proof.
  revert inRun. induction s as [|c s IH]; intros inRun; [done|].
  cbn [tidy map collapseSpaces]. destruct (isSpace c) eqn:Hs.
  - intros H. apply andb_true_iff in H as [H1 H2].
    apply andb_true_iff in H1 as [Hr Hc]. apply bool_decide_eq_true in Hc.
    destruct (IH true H2) as [-> ->]. rewrite orb_true_r.
    destruct inRun; [done|]. by subst c.
  - intros H. apply andb_true_iff in H as [H1 H2].
    destruct (IH false H2) as [-> ->]. by rewrite H1.
Qed.

Lemma withoutSpecials_idem s :
  withoutSpecials (withoutSpecials s) = withoutSpecials s.
Proof.
  unfold withoutSpecials at 1.
  assert (tidy false (withoutSpecials s) = true) as Ht.
  { unfold withoutSpecials, trim. apply tidy_trimEnd.
    apply (tidy_trimStart false), tidy_collapseSpaces. }
  destruct (tidy_unchanged false _ Ht) as [-> ->].
  unfold withoutSpecials. apply trim_idem.
Qed.

(** X19.  [testFuzzyMatch] strips the special characters of the command
    and hands the result to [matchCommand], which strips them again; the
    second pass changes nothing.  So the entry it returns says that the
    command matches exactly when the Dice score of the stripped command
    and the input reaches the threshold, carries that score, or 0 without
    a match, and the call never throws. *)
Theorem testFuzzyMatch_scores_the_stripped_command
    (cmd : CommandPattern) (input : jstring) (threshold : Q) :
  testFuzzyMatch cmd input threshold
  = ([], Returns
           {| fuzzyCommand := cmd;
              fuzzyIsMatch := Qle_bool threshold (fuzzyScore cmd input);
              fuzzySimilarity :=
                if Qle_bool threshold (fuzzyScore cmd input)
                then fuzzyScore cmd input else 0%Q;
              fuzzyCleanCommand := withoutSpecials (commandToString cmd) |}).
Proof.
  unfold testFuzzyMatch, fuzzyScore, lift, mbind, pass_bind, mret, pass_ret.
  cbn [matchCommand commandToString]. rewrite withoutSpecials_idem.
  by destruct (Qle_bool threshold _).
Qed.

Lemma testFuzzyMatch_entry cmd input threshold :
  testFuzzyMatch cmd input threshold
  = ([], Returns (fuzzyEntry input threshold cmd)).
Proof.
  unfold testFuzzyMatch, fuzzyEntry, fuzzyScore, lift, mbind, pass_bind, mret,
    pass_ret.
  cbn [matchCommand commandToString]. rewrite withoutSpecials_idem.
  by destruct (Qle_bool threshold _).
Qed.

Lemma mapPass_testFuzzyMatch text threshold cmds :
  mapPass (fun cmd => testFuzzyMatch cmd text threshold) cmds
  = ([], Returns (map (fuzzyEntry text threshold) cmds)).
Proof.
  induction cmds as [|cmd cmds IH]; [done|].
  cbn [mapPass map]. rewrite testFuzzyMatch_entry, IH. reflexivity.
Qed.

Lemma forEachFrom_invocations {A} (g : A -> list Arg) index item n l inv :
  inv ∈ (forEachFrom (fun _ m => invoke index item (g m)) n l).1 ->
  exists m, m ∈ l
    /\ inv = {| invokedCommand := index; invokedArgs := g m |}.
Proof.
  revert n. induction l as [|x l IH]; intros n.
  - simpl. by intros ?%elem_of_nil.
  - cbn [forEachFrom]. unfold mbind, pass_bind, invoke. cbn [fst snd].
    destruct (callback item (g x)); cbn [fst snd app].
    + intros [->|Hin]%elem_of_cons.
      * exists x. split; [apply list_elem_of_here|done].
      * destruct (IH _ Hin) as (m & Hm & ->). exists m.
        split; [by apply list_elem_of_further|done].
    + intros [->|Hin]%elem_of_cons; [|by apply elem_of_nil in Hin].
      exists x. split; [apply list_elem_of_here|done].
Qed.

Lemma bestMatch_greatest (first : FuzzyMatch) (others : list FuzzyMatch) :
  let best :=
    foldl (fun best current =>
             if Qlt_le_dec (fuzzySimilarity best) (fuzzySimilarity current)
             then current else best)
      first others in
  best ∈ first :: others
  /\ forall m, m ∈ first :: others ->
       (fuzzySimilarity m <= fuzzySimilarity best)%Q.
Proof.
  revert first. induction others as [|x others IH]; intros first; cbn [foldl].
  - split; [apply list_elem_of_here|].
    intros m [->|Hm%elem_of_nil]%elem_of_cons; [apply Qle_refl|done].
  - destruct (Qlt_le_dec (fuzzySimilarity first) (fuzzySimilarity x)) as [Hlt|Hle].
    + destruct (IH x) as [Hin Hmax]. split.
      * by apply list_elem_of_further.
      * intros m [->|Hm]%elem_of_cons; [|by apply Hmax].
        apply Qle_trans with (fuzzySimilarity x); [by apply Qlt_le_weak|].
        apply Hmax, list_elem_of_here.
    + destruct (IH first) as [Hin Hmax]. split.
      * apply elem_of_cons in Hin as [->|Hin]; [apply list_elem_of_here|].
        by do 2 apply list_elem_of_further.
      * intros m [->|[->|Hm]%elem_of_cons]%elem_of_cons.
        -- apply Hmax, list_elem_of_here.
        -- apply Qle_trans with (fuzzySimilarity first); [done|].
           apply Hmax, list_elem_of_here.
        -- by apply Hmax, list_elem_of_further.
Qed.

Lemma matching_entries text threshold cmds m :
  m ∈ filter (fun m => fuzzyIsMatch m = true)
        (map (fuzzyEntry text threshold) cmds) ->
  exists cmd, cmd ∈ cmds
    /\ Qle_bool threshold (fuzzyScore cmd text) = true
    /\ m = fuzzyEntry text threshold cmd
    /\ fuzzySimilarity m = fuzzyScore cmd text.
Proof.
  intros [Hm Hin]%list_elem_of_filter.
  apply list_elem_of_fmap in Hin as (cmd & -> & Hin).
  exists cmd. simpl in Hm. repeat split; try done.
  simpl. by rewrite Hm.
Qed.

(** X20.  A command in fuzzy mode compiles no pattern, so that its
    evaluation never ends in a [SyntaxError].  Each call of its callback
    is for one of its alternatives whose score reaches the threshold
    (0.8 when none is given), with the stripped alternative, the
    transcript tested, the score and the alternative as arguments.  With
    [bestMatchOnly] there is at most one call, and no alternative scores
    higher than the one it is made for. *)
Theorem fuzzy_command_calls
    (interim final : jstring) (index : nat) (item : SpeechRecognitionCommand) :
  isFuzzyMatch item = true ->
  let text := testedTranscript item interim final in
  let threshold := default (8 # 10)%Q (fuzzyMatchingThreshold item) in
  let pass := evaluateCommand interim final index item in
  pass.2 <> Throws SyntaxError
  /\ (bestMatchOnly item = true -> length pass.1 <= 1)
  /\ forall inv, inv ∈ pass.1 ->
       exists cmd,
         cmd ∈ commandsToTest item
         /\ inv = {| invokedCommand := index;
                     invokedArgs :=
                       [ArgString (withoutSpecials (commandToString cmd));
                        ArgString text;
                        ArgNumber (fuzzyScore cmd text);
                        ArgContext cmd] |}
         /\ Qle_bool threshold (fuzzyScore cmd text) = true
         /\ (bestMatchOnly item = true ->
             forall other,
               other ∈ commandsToTest item ->
               Qle_bool threshold (fuzzyScore other text) = true ->
               (fuzzyScore other text <= fuzzyScore cmd text)%Q).
Proof.
  intros Hfuzzy text threshold pass. subst pass. unfold evaluateCommand.
  fold threshold. fold (testedTranscript item interim final). fold text.
  destruct ((negb (jeqb interim []) && negb (matchInterim item))
            || jeqb (trim (concatTranscripts [final; interim])) []);
    [by split; [|split; [simpl; lia|intros inv ?%elem_of_nil]]|].
  destruct (jeqb (trim text) []);
    [by split; [|split; [simpl; lia|intros inv ?%elem_of_nil]]|].
  rewrite Hfuzzy, mapPass_testFuzzyMatch.
  unfold mbind, pass_bind. cbn [fst snd app].
  destruct (filter (fun m => fuzzyIsMatch m = true)
              (map (fuzzyEntry text threshold) (commandsToTest item)))
    as [|first others] eqn:Hmatches.
  { by split; [|split; [simpl; lia|intros inv ?%elem_of_nil]]. }
  assert (forall m, m ∈ first :: others ->
            exists cmd, cmd ∈ commandsToTest item
              /\ Qle_bool threshold (fuzzyScore cmd text) = true
              /\ m = fuzzyEntry text threshold cmd
              /\ fuzzySimilarity m = fuzzyScore cmd text) as Hentries.
  { intros m Hm. rewrite <- Hmatches in Hm. by apply matching_entries. }
  destruct (bestMatchOnly item) eqn:Hbest.
  - destruct (bestMatch_greatest first others) as [Hin Hmax].
    cbv zeta in Hin, Hmax.
    split; [unfold invoke; simpl; by destruct (callback item _)|].
    split; [by intros _|].
    intros inv Hinv. unfold invoke in Hinv. cbn [fst] in Hinv.
    apply elem_of_cons in Hinv as [->|Hinv%elem_of_nil]; [|done].
    destruct (Hentries _ Hin) as (cmd & Hcmd & Hle & Hbe & Hsim).
    exists cmd. split; [done|]. split.
    { unfold fuzzyArgs. rewrite Hbe. simpl. by rewrite Hle. }
    split; [done|]. intros _ other Hother Hscore. rewrite <- Hsim.
    assert (fuzzyEntry text threshold other ∈ first :: others) as Ho.
    { rewrite <- Hmatches. apply list_elem_of_filter. split.
      - simpl. done.
      - apply list_elem_of_fmap. by exists other. }
    specialize (Hmax _ Ho). simpl in Hmax. by rewrite Hscore in Hmax.
  - split.
    + generalize 0. generalize (first :: others). clear.
      induction l as [|x l IH]; intros n; [done|].
      cbn [forEachFrom]. unfold mbind, pass_bind, invoke. cbn [fst snd].
      destruct (callback item _); [apply IH|done].
    + split; [done|]. intros inv Hinv.
      apply forEachFrom_invocations in Hinv as (m & Hm & ->).
      destruct (Hentries _ Hm) as (cmd & Hcmd & Hle & Hbe & Hsim).
      exists cmd. split; [done|]. split.
      { unfold fuzzyArgs. rewrite Hbe. simpl. by rewrite Hle. }
      split; [done|]. intros [=].
Qed.

(** The pattern [hello (] does not compile, and is matched fuzzily. *)
Lemma fuzzy_command_calls_witness :
  let item :=
    {| command := OneCommand (CommandString (str "hello ("));
       callback := fun _ => true;
       matchInterim := false; isFuzzyMatch := true;
       fuzzyMatchingThreshold := None; bestMatchOnly := true |} in
  commandToRegExp (CommandString (str "hello (")) = None
  /\ (evaluateCommand [] (str "hello") 0 item).2 <> Throws SyntaxError
  /\ length (evaluateCommand [] (str "hello") 0 item).1 <= 1.
Proof.
  intros item. split; [reflexivity|].
  pose proof (fuzzy_command_calls [] (str "hello") 0 item eq_refl) as H.
  cbv zeta in H. destruct H as (H1 & H2 & _).
  split; [exact H1|exact (H2 eq_refl)].
Defined.

(** ** Command Matching Engine: what a pass calls *)

Lemma forEachFrom_calls {A} (f : nat -> A -> Pass unit) n l inv :
  inv ∈ (forEachFrom f n l).1 ->
  exists j x, l !! j = Some x /\ inv ∈ (f (n + j) x).1.
Proof.
  revert n. induction l as [|y l IH]; intros n.
  - simpl. by intros ?%elem_of_nil.
  - cbn [forEachFrom]. unfold mbind, pass_bind.
    assert (inv ∈ (f n y).1 -> exists j x,
               (y :: l) !! j = Some x /\ inv ∈ (f (n + j) x).1) as Hhere.
    { intros Hin. exists 0, y. by rewrite Nat.add_0_r. }
    destruct (f n y) as [calls [[]|e]] eqn:Hf; cbn [fst snd] in *; [|done].
    intros [Hin|Hin]%elem_of_app; [by apply Hhere|].
    destruct (IH _ Hin) as (j & x & Hj & Hx). exists (S j), x.
    split; [done|]. by replace (n + S j) with (S n + j) by lia.
Qed.

Lemma invoke_calls index item args inv :
  inv ∈ (invoke index item args).1 -> invokedCommand inv = index.
Proof.
  unfold invoke. cbn [fst].
  by intros [->|?%elem_of_nil]%elem_of_cons.
Qed.

Lemma blank_transcripts final interim :
  trim final = [] -> trim interim = [] ->
  concatTranscripts [final; interim] = [].
Proof.
  intros Hf Hi. unfold concatTranscripts. cbn [map join]. by rewrite Hf, Hi.
Qed.

Lemma evaluateCommand_calls interim final index item inv :
  inv ∈ (evaluateCommand interim final index item).1 ->
  invokedCommand inv = index
  /\ (interim <> [] -> matchInterim item = true)
  /\ trim (testedTranscript item interim final) <> [].
Proof.
  unfold evaluateCommand. fold (testedTranscript item interim final).
  destruct ((negb (jeqb interim []) && negb (matchInterim item))
            || jeqb (trim (concatTranscripts [final; interim])) []) eqn:Hgate;
    [by intros ?%elem_of_nil|].
  apply orb_false_iff in Hgate as [Hgate _].
  destruct (jeqb (trim (testedTranscript item interim final)) []) eqn:Hblank;
    [by intros ?%elem_of_nil|].
  intros Hin. split; [|split].
  - destruct (isFuzzyMatch item).
    + rewrite mapPass_testFuzzyMatch in Hin.
      unfold mbind, pass_bind in Hin. cbn [fst snd app] in Hin.
      destruct (filter _ _) as [|first others]; [by apply elem_of_nil in Hin|].
      destruct (bestMatchOnly item); [by apply invoke_calls in Hin|].
      by apply forEachFrom_invocations in Hin as (m & _ & ->).
    + apply forEachFrom_calls in Hin as (j & cmd & _ & Hin).
      unfold lift, mbind, pass_bind in Hin. cbn [fst snd app] in Hin.
      destruct (matchCommand [cmd] _ false _) as [r|e]; cbn [fst snd app] in Hin;
        [|by apply elem_of_nil in Hin].
      destruct (isMatch r); [|by apply elem_of_nil in Hin].
      destruct (parameters r); by apply invoke_calls in Hin.
  - intros Hi. unfold jeqb in Hgate.
    rewrite bool_decide_eq_false_2 in Hgate by done.
    by destruct (matchInterim item).
  - unfold jeqb in Hblank. by apply bool_decide_eq_false in Hblank.
Qed.

(** X21.  A matching pass calls a callback only for a registered command
    whose tested transcript is not blank, and, while there is interim
    text, only for commands with [matchInterim].  When the final
    transcript and the interim transcript are both blank the pass calls
    nothing and returns. *)
Theorem matching_pass_needs_a_transcript
    (commands : list SpeechRecognitionCommand) (interim final : jstring) :
  (forall inv,
      inv ∈ (matchCommands commands interim final).1 ->
      exists item,
        commands !! invokedCommand inv = Some item
        /\ (interim <> [] -> matchInterim item = true)
        /\ trim (testedTranscript item interim final) <> [])
  /\ (trim final = [] -> trim interim = [] ->
      matchCommands commands interim final = ([], Returns tt)).
Proof.
  unfold matchCommands. split.
  - intros inv Hin. apply forEachFrom_calls in Hin as (j & item & Hj & Hin).
    apply evaluateCommand_calls in Hin as (Hindex & Hi & Ht).
    exists item. simpl in Hindex. by rewrite Hindex.
  - intros Hf Hi. generalize 0.
    induction commands as [|item commands IH]; intros n; [done|].
    cbn [forEachFrom].
    assert (evaluateCommand interim final n item = ([], Returns tt)) as ->.
    { unfold evaluateCommand.
      rewrite (blank_transcripts final interim Hf Hi).
      change (jeqb (trim []) []) with true. by rewrite orb_true_r. }
    unfold mbind, pass_bind. cbn [fst snd app].
    rewrite IH. reflexivity.
Qed.

(** A final transcript of one space, without interim text. *)
Lemma matching_pass_needs_a_transcript_witness :
  matchCommands [helloCommand true] [] (str " ") = ([], Returns tt).
Proof.
  exact (proj2 (matching_pass_needs_a_transcript [helloCommand true] []
                  (str " ")) eq_refl eq_refl).
Defined.

(** ** Command Matching Engine: callbacks that throw *)




















(** ** The hook and the manager *)



(** X23.  The [resetTranscript] of the hook empties the transcripts of the
    hook and aborts the recognizer if it is listening, but the manager keeps
    its interim and its final transcript.  So the next transcript change
    that the manager announces with the same final transcript puts all of
    it back into the hook. *)
Theorem hook_resetTranscript_clears_the_hook_only
    (m : RecognitionManager) (state : Hook.TranscriptState)
    (commands : list SpeechRecognitionCommand) (interim : jstring) :
  reachable m ->
  let reset := Hook.resetTranscript state m in
  resultOf reset
  = {| Hook.interimTranscript := []; Hook.finalTranscript := [] |}
  /\ effectsOf reset
     = (if hasRecognition m && listening m then [RecognizerAbort] else [])
  /\ interimTranscript (stateAfter reset) = interimTranscript m
  /\ finalTranscriptState (stateAfter reset) = finalTranscriptState m
  /\ (Hook.handleTranscriptChange true commands interim
        (finalTranscriptState (stateAfter reset)) (resultOf reset)).1
     = {| Hook.interimTranscript := interim;
          Hook.finalTranscript := finalTranscriptState m |}.
Proof.
  intros Hm reset. apply reachable_normalized in Hm.
  assert (resultOf reset
          = {| Hook.interimTranscript := []; Hook.finalTranscript := [] |}
          /\ effectsOf reset
             = (if hasRecognition m && listening m then [RecognizerAbort]
                else [])
          /\ interimTranscript (stateAfter reset) = interimTranscript m
          /\ finalTranscriptState (stateAfter reset) = finalTranscriptState m)
    as (Hr & He & Hi & Hf).
  { subst reset. clear Hm. unfold Hook.resetTranscript.
    destruct m as [rec pause i0 f0 lis mic subs osl prev]. run_calls.
    destruct rec as [[rc rl rh]|]; cbn; [|done].
    destruct lis; cbn; done. }
  rewrite Hr, He, Hi, Hf. repeat split.
  unfold Hook.handleTranscriptChange.
  cbn [fst Hook.transcriptReducer Hook.appendTranscript Hook.finalTranscript].
  f_equal. unfold concatTranscripts. cbn [map join].
  change (trim [] ++ str " " ++ trim (finalTranscriptState m))
    with (" "%char :: trim (finalTranscriptState m)).
  by rewrite trim_after_space, trim_idem, removeDuplicateWords_trim.
Qed.

(** The manager has heard [hello world] when the hook resets. *)
Lemma hook_resetTranscript_clears_the_hook_only_witness :
  let heard :=
    stateAfter
      (call (OnResult (finalBatch "hello world"))
         (stateAfter (startListening true None Starts
                        managerWithOneSubscriber))) in
  let state := {| Hook.interimTranscript := [];
                  Hook.finalTranscript := str "hello world" |} in
  finalTranscriptState (stateAfter (Hook.resetTranscript state heard))
  = str "hello world"
  /\ (Hook.handleTranscriptChange true [] (str "how")
        (finalTranscriptState (stateAfter (Hook.resetTranscript state heard)))
        (resultOf (Hook.resetTranscript state heard))).1
     = {| Hook.interimTranscript := str "how";
          Hook.finalTranscript := str "hello world" |}.
Proof.
  intros heard state.
  pose proof (hook_resetTranscript_clears_the_hook_only heard state []
                (str "how")
                (reachable_call _ _
                   (reachable_call (StartListening true None Starts) _
                      (reachable_new true [(str "0", allCallbacks)])))) as H.
  cbv zeta in H. destruct H as (_ & _ & _ & Hf & Hh).
  split; [exact Hf|exact Hh].
Defined.
